(** * The Intent compiler: scanner, checker, lowerer and driver

    A shallow embedding of the TypeScript sources
    ([src/lexer], [src/analyzer], [src/codegen], [src/index.ts]) together
    with the properties of the specification that concern them.

    JavaScript strings are sequences of UTF-16 code units; they are
    modelled as lists of code units ([jsstring]).  Numbers that the
    sources only use as integers (offsets, lines, columns) are [nat] or
    [Z]; numeric literal values are kept as the text they are parsed from. *)

From Stdlib Require Import List ZArith NArith Bool String Ascii Lia PeanoNat.
From Stdlib Require Import DecimalString.
Import ListNotations.

Set Implicit Arguments.

(* ================================================================== *)
(** * JavaScript strings *)
(* ================================================================== *)

Module Js.

Definition jsstring := list N.

(** Embedding of ASCII literals. *)
Definition js (s : string) : jsstring :=
  map N_of_ascii (list_ascii_of_string s).

Definition ch (a : ascii) : N := N_of_ascii a.

Definition DQUOTE : N := 34%N.
Definition BACKSLASH : N := 92%N.
Definition LF : N := 10%N.
Definition TAB : N := 9%N.
Definition CR : N := 13%N.
Definition NUL : N := 0%N.

Fixpoint eqb (a b : jsstring) : bool :=
  match a, b with
  | [], [] => true
  | x :: a', y :: b' => N.eqb x y && eqb a' b'
  | _, _ => false
  end.

(** [s.substring(a, b)]: both indices are clamped to the length of [s]
    and swapped when out of order. *)
Definition substring (s : jsstring) (a b : nat) : jsstring :=
  let a' := Nat.min a (List.length s) in
  let b' := Nat.min b (List.length s) in
  firstn (Nat.max a' b' - Nat.min a' b') (skipn (Nat.min a' b') s).

(** [String(n)] for an integer [n]. *)
Definition of_Z (z : Z) : jsstring := js (NilZero.string_of_int (Z.to_int z)).
Definition of_nat (n : nat) : jsstring := of_Z (Z.of_nat n).

(** [String(c)] where [c] may be [undefined]. *)
Definition of_char (c : option N) : jsstring :=
  match c with Some n => [n] | None => js "undefined" end.

(** [xs.join(sep)] *)
Fixpoint join (sep : jsstring) (xs : list jsstring) : jsstring :=
  match xs with
  | [] => []
  | [x] => x
  | x :: rest => x ++ sep ++ join sep rest
  end.

(** ['  '.repeat(n)] *)
Fixpoint repeat_str (s : jsstring) (n : nat) : jsstring :=
  match n with O => [] | S k => s ++ repeat_str s k end.

(** ** [parseInt(text, radix)] *)

(** StrWhiteSpaceChar of ECMA-262. *)
Definition isStrWhiteSpace (c : N) : bool :=
  existsb (N.eqb c)
    [9; 10; 11; 12; 13; 32; 160; 5760; 8232; 8233; 8239; 8287; 12288; 65279]%N
  || ((8192 <=? c) && (c <=? 8202))%N.

Fixpoint trimStart (s : jsstring) : jsstring :=
  match s with
  | c :: s' => if isStrWhiteSpace c then trimStart s' else s
  | [] => []
  end.

Definition digitValue (c : N) : option N :=
  if ((48 <=? c) && (c <=? 57))%N then Some (c - 48)%N
  else if ((97 <=? c) && (c <=? 122))%N then Some (c - 87)%N
  else if ((65 <=? c) && (c <=? 90))%N then Some (c - 55)%N
  else None.

(** Longest prefix of digits of the radix, accumulated most significant
    first; [None] when the prefix is empty. *)
Fixpoint parseDigits (radix : N) (s : jsstring) (acc : option N) : option N :=
  match s with
  | c :: s' =>
      match digitValue c with
      | Some d =>
          if (d <? radix)%N
          then parseDigits radix s'
                 (Some (match acc with Some a => a * radix + d | None => d end)%N)
          else acc
      | None => acc
      end
  | [] => acc
  end.

Definition stripHexPrefix (radix : N) (s : jsstring) : jsstring :=
  match s with
  | 48%N :: x :: s' =>
      if ((radix =? 16) && ((x =? 120) || (x =? 88)))%N then s' else s
  | _ => s
  end.

(** The result is [None] for [NaN]. *)
Definition parseInt (text : jsstring) (radix : N) : option Z :=
  let s := trimStart text in
  let '(neg, s) :=
    match s with
    | 45%N :: s' => (true, s')
    | 43%N :: s' => (false, s')
    | _ => (false, s)
    end in
  match parseDigits radix (stripHexPrefix radix s) None with
  | Some n => Some (if neg then (- Z.of_N n)%Z else Z.of_N n)
  | None => None
  end.

(** [String.fromCharCode(x)]: one code unit, [ToUint16(x)]. *)
Definition fromCharCode (x : option Z) : jsstring :=
  match x with
  | Some z => [Z.to_N (z mod 65536)%Z]
  | None => [0%N]
  end.

(** [String.fromCodePoint(x)] raises a RangeError unless [x] is an
    integer in [0, 0x10FFFF]. *)
Definition fromCodePoint (x : option Z) : option jsstring :=
  match x with
  | Some z =>
      if ((0 <=? z) && (z <=? 1114111))%Z then
        if (z <? 65536)%Z then Some [Z.to_N z]
        else
          let c := Z.to_N (z - 65536)%Z in
          Some [(55296 + c / 1024)%N; (56320 + c mod 1024)%N]
      else None
  | None => None
  end.

(** ** Regular-expression replacements used by the lowerer *)

(** [\w] *)
Definition isWordChar (c : N) : bool :=
  (((48 <=? c) && (c <=? 57)) || ((65 <=? c) && (c <=? 90))
   || ((97 <=? c) && (c <=? 122)) || (c =? 95))%N.

Fixpoint startsWith (s prefix : jsstring) : bool :=
  match prefix, s with
  | [], _ => true
  | p :: prefix', c :: s' => N.eqb p c && startsWith s' prefix'
  | _ :: _, [] => false
  end.

(** [s.replace(/\bword\b/g, by)] for a non-empty [word] of word
    characters.  [prevWord] tells whether the character before [s] is a
    word character. *)
Fixpoint replaceWord_from (word by_ : jsstring) (prevWord : bool)
    (skip : nat) (s : jsstring) : jsstring :=
  match s with
  | [] => []
  | c :: s' =>
      match skip with
      | S k => replaceWord_from word by_ true k s'
      | O =>
          if negb prevWord && startsWith s word
             && negb (match skipn (List.length word) s with
                      | d :: _ => isWordChar d
                      | [] => false
                      end)
          then by_ ++ replaceWord_from word by_ true (List.length word - 1) s'
          else c :: replaceWord_from word by_ (isWordChar c) 0 s'
      end
  end.

Definition replaceWord (word by_ s : jsstring) : jsstring :=
  replaceWord_from word by_ false 0 s.

(** [s.replace(/[.\[\]]/g, '_')] *)
Definition replaceDotsAndBrackets (s : jsstring) : jsstring :=
  map (fun c => if ((c =? 46) || (c =? 91) || (c =? 93))%N then 95%N else c) s.

(** [s.replace(/\b(\w+)\b/g, f)]: every maximal run of word characters
    is replaced by the result of [f] on it.  [run] is the run being read,
    in reverse. *)
Fixpoint replaceWords_from (f : jsstring -> jsstring) (run : jsstring)
    (s : jsstring) : jsstring :=
  match s with
  | [] => match run with [] => [] | _ => f (rev run) end
  | c :: s' =>
      if isWordChar c then replaceWords_from f (c :: run) s'
      else
        match run with
        | [] => c :: replaceWords_from f [] s'
        | _ => f (rev run) ++ c :: replaceWords_from f [] s'
        end
  end.

Definition replaceWords (f : jsstring -> jsstring) (s : jsstring) : jsstring :=
  replaceWords_from f [] s.

(** ** [JSON.stringify] of a string *)

Definition hexDigit (n : N) : N :=
  if (n <? 10)%N then (48 + n)%N else (87 + n)%N.

Definition hex4 (c : N) : jsstring :=
  [hexDigit (c / 4096 mod 16); hexDigit (c / 256 mod 16);
   hexDigit (c / 16 mod 16); hexDigit (c mod 16)]%N.

Definition isHighSurrogate (c : N) : bool := ((55296 <=? c) && (c <=? 56319))%N.
Definition isLowSurrogate (c : N) : bool := ((56320 <=? c) && (c <=? 57343))%N.

(** [afterHigh] tells whether the previous code unit was a high
    surrogate that the current low surrogate completes. *)
Fixpoint quoteJSON_from (afterHigh : bool) (s : jsstring) : jsstring :=
  match s with
  | [] => []
  | c :: s' =>
      if (c =? 34)%N then [92; 34]%N ++ quoteJSON_from false s'
      else if (c =? 92)%N then [92; 92]%N ++ quoteJSON_from false s'
      else if (c =? 8)%N then [92; 98]%N ++ quoteJSON_from false s'
      else if (c =? 12)%N then [92; 102]%N ++ quoteJSON_from false s'
      else if (c =? 10)%N then [92; 110]%N ++ quoteJSON_from false s'
      else if (c =? 13)%N then [92; 114]%N ++ quoteJSON_from false s'
      else if (c =? 9)%N then [92; 116]%N ++ quoteJSON_from false s'
      else if (c <? 32)%N then [92; 117]%N ++ hex4 c ++ quoteJSON_from false s'
      else if isHighSurrogate c then
        match s' with
        | d :: _ =>
            if isLowSurrogate d then c :: quoteJSON_from true s'
            else [92; 117]%N ++ hex4 c ++ quoteJSON_from false s'
        | [] => [92; 117]%N ++ hex4 c
        end
      else if isLowSurrogate c then
        if afterHigh then c :: quoteJSON_from false s'
        else [92; 117]%N ++ hex4 c ++ quoteJSON_from false s'
      else c :: quoteJSON_from false s'
  end.

Definition JSON_stringify (s : jsstring) : jsstring :=
  [34%N] ++ quoteJSON_from false s ++ [34%N].

End Js.

Import Js.

(* ================================================================== *)
(** * Tokens ([src/lexer/token.ts]) *)
(* ================================================================== *)

Module Token.

Inductive TokenType :=
  (* literals *)
  | INTEGER | FLOAT | STRING | CHAR | BOOLEAN
  | IDENTIFIER
  (* keywords *)
  | FN | LET | MUT | TYPE | STRUCT | ENUM | TRAIT | IMPL | CONTRACT | INTENT
  | EFFECT | CAPABILITY | REQUIRES | ENSURES | INVARIANT | IF | ELSE | MATCH
  | FOR | WHILE | RETURN | IMPORT | EXPORT | WHERE | PURE | EXTERN | TRUE
  | FALSE | NIL | SELF | OLD | FORALL | EXISTS | IN | AS
  (* type keywords *)
  | INT | INT8 | INT16 | INT32 | INT64 | UINT | FLOAT32 | FLOAT64 | BOOL
  | CHAR_TYPE | STRING_TYPE | VOID | NEVER | RESULT | OPTION
  (* operators *)
  | PLUS | MINUS | STAR | SLASH | PERCENT | POWER
  | EQ | NEQ | LT | GT | LTE | GTE
  | AND | OR | NOT
  | BIT_AND | BIT_OR | BIT_XOR | BIT_NOT | SHL | SHR
  | ASSIGN | PLUS_ASSIGN | MINUS_ASSIGN | STAR_ASSIGN | SLASH_ASSIGN
  | ARROW | FAT_ARROW | RANGE | RANGE_INCL
  (* delimiters and punctuation *)
  | LPAREN | RPAREN | LBRACE | RBRACE | LBRACKET | RBRACKET
  | COMMA | DOT | COLON | SEMICOLON | QUESTION | AT | HASH | UNDERSCORE
  (* special *)
  | NEWLINE | EOF | INVALID
  (* [KEYWORDS] is an object literal, so [KEYWORDS[text]] also finds the
     members it inherits from [Object.prototype]; such a value is not a
     member of the enumeration and is recorded by the name looked up. *)
  | INHERITED (name : jsstring).

Definition TokenType_eq_dec (a b : TokenType) : {a = b} + {a <> b}.
Proof. decide equality. apply (list_eq_dec N.eq_dec). Defined.

Definition TokenType_eqb (a b : TokenType) : bool :=
  if TokenType_eq_dec a b then true else false.

Record SourceLocation := mkLocation {
  loc_line : Z;
  loc_column : Z;
  loc_offset : nat;
  loc_length : nat;
  loc_file : option jsstring
}.

(** Token literal values.  Numbers are kept as the call of [parseInt] or
    [parseFloat] that yields them. *)
Inductive Literal :=
  | LitAbsent                       (* field omitted *)
  | LitUndefined
  | LitNull
  | LitBool (b : bool)
  | LitString (s : jsstring)
  | LitParseInt (text : jsstring) (radix : N)
  | LitParseFloat (text : jsstring).

Record Token := mkToken {
  tok_type : TokenType;
  tok_value : jsstring;
  tok_location : SourceLocation;
  tok_literal : Literal
}.

Definition KEYWORDS_table : list (string * TokenType) :=
  [ ("fn", FN); ("let", LET); ("mut", MUT); ("type", TYPE);
    ("struct", STRUCT); ("enum", ENUM); ("trait", TRAIT); ("impl", IMPL);
    ("contract", CONTRACT); ("intent", INTENT); ("effect", EFFECT);
    ("capability", CAPABILITY); ("requires", REQUIRES);
    ("ensures", ENSURES); ("invariant", INVARIANT); ("if", IF);
    ("else", ELSE); ("match", MATCH); ("for", FOR); ("while", WHILE);
    ("return", RETURN); ("import", IMPORT); ("export", EXPORT);
    ("where", WHERE); ("pure", PURE); ("extern", EXTERN); ("true", TRUE);
    ("false", FALSE); ("nil", NIL); ("self", SELF); ("Self", SELF);
    ("old", OLD); ("forall", FORALL); ("exists", EXISTS); ("in", IN);
    ("as", AS);
    ("Int", INT); ("Int8", INT8); ("Int16", INT16); ("Int32", INT32);
    ("Int64", INT64); ("UInt", UINT); ("Float32", FLOAT32);
    ("Float64", FLOAT64); ("Bool", BOOL); ("Char", CHAR_TYPE);
    ("String", STRING_TYPE); ("Void", VOID); ("Never", NEVER);
    ("Result", RESULT); ("Option", OPTION) ]%string.

Definition Object_prototype_members : list string :=
  [ "constructor"; "hasOwnProperty"; "isPrototypeOf"; "propertyIsEnumerable";
    "toLocaleString"; "toString"; "valueOf"; "__defineGetter__";
    "__defineSetter__"; "__lookupGetter__"; "__lookupSetter__";
    "__proto__" ]%string.

Fixpoint assoc_js {A} (tbl : list (string * A)) (k : jsstring) : option A :=
  match tbl with
  | (k', v) :: tbl' => if Js.eqb (js k') k then Some v else assoc_js tbl' k
  | [] => None
  end.

(** [KEYWORDS[text]], [None] when the result is [undefined]. *)
Definition KEYWORDS (text : jsstring) : option TokenType :=
  match assoc_js KEYWORDS_table text with
  | Some t => Some t
  | None =>
      if existsb (fun m => Js.eqb (js m) text) Object_prototype_members
      then Some (INHERITED text) else None
  end.

Definition createToken (type : TokenType) (value : jsstring)
    (line column : Z) (offset : nat) (literal : Literal) : Token :=
  {| tok_type := type;
     tok_value := value;
     tok_location :=
       {| loc_line := line; loc_column := column; loc_offset := offset;
          loc_length := List.length value; loc_file := None |};
     tok_literal := literal |}.

Definition set_file (t : Token) (f : jsstring) : Token :=
  {| tok_type := tok_type t;
     tok_value := tok_value t;
     tok_location :=
       {| loc_line := loc_line (tok_location t);
          loc_column := loc_column (tok_location t);
          loc_offset := loc_offset (tok_location t);
          loc_length := loc_length (tok_location t);
          loc_file := Some f |};
     tok_literal := tok_literal t |}.

End Token.

Import Token.

(* ================================================================== *)
(** * The scanner ([src/lexer/lexer.ts]) *)
(* ================================================================== *)

Module Lexer.

Record LexerError := mkLexerError {
  err_message : jsstring;
  err_location : SourceLocation
}.

(** The fields of [class Lexer]. *)
Record Lexer := mkLexer {
  source : jsstring;
  tokens : list Token;
  errors : list LexerError;
  start : nat;
  current : nat;
  line : Z;
  column : Z;
  lineStart : nat;
  file : option jsstring
}.

Definition set_start (n : nat) (st : Lexer) : Lexer :=
  mkLexer (source st) (tokens st) (errors st) n (current st) (line st)
    (column st) (lineStart st) (file st).
Definition set_current (n : nat) (st : Lexer) : Lexer :=
  mkLexer (source st) (tokens st) (errors st) (start st) n (line st)
    (column st) (lineStart st) (file st).
Definition set_line (z : Z) (st : Lexer) : Lexer :=
  mkLexer (source st) (tokens st) (errors st) (start st) (current st) z
    (column st) (lineStart st) (file st).
Definition set_column (z : Z) (st : Lexer) : Lexer :=
  mkLexer (source st) (tokens st) (errors st) (start st) (current st) (line st)
    z (lineStart st) (file st).
Definition set_lineStart (n : nat) (st : Lexer) : Lexer :=
  mkLexer (source st) (tokens st) (errors st) (start st) (current st) (line st)
    (column st) n (file st).
Definition push_token (t : Token) (st : Lexer) : Lexer :=
  mkLexer (source st) (tokens st ++ [t]) (errors st) (start st) (current st)
    (line st) (column st) (lineStart st) (file st).
Definition push_error (e : LexerError) (st : Lexer) : Lexer :=
  mkLexer (source st) (tokens st) (errors st ++ [e]) (start st) (current st)
    (line st) (column st) (lineStart st) (file st).

(** ** The scanner monad: state, exceptions, and loop fuel *)

Inductive JsError :=
  | RangeError (argument : option Z).  (* Invalid code point *)

Inductive outcome (A : Type) :=
  | Ok (a : A)
  | Throw (e : JsError)
  | OutOfFuel.
Arguments Ok {A} a.
Arguments Throw {A} e.
Arguments OutOfFuel {A}.

Definition M (A : Type) := Lexer -> outcome (A * Lexer).

Definition ret {A} (a : A) : M A := fun st => Ok (a, st).

Definition bind {A B} (m : M A) (k : A -> M B) : M B := fun st =>
  match m st with
  | Ok (a, st') => k a st'
  | Throw e => Throw e
  | OutOfFuel => OutOfFuel
  end.

Definition get : M Lexer := fun st => Ok (st, st).
Definition modify (f : Lexer -> Lexer) : M unit := fun st => Ok (tt, f st).
Definition throw {A} (e : JsError) : M A := fun _ => Throw e.

Declare Scope lexer_scope.
Delimit Scope lexer_scope with lexer.
Notation "x <- m ;; k" := (bind m (fun x => k))
  (at level 61, m at next level, right associativity) : lexer_scope.
Notation "m ;; k" := (bind m (fun _ => k))
  (at level 61, right associativity) : lexer_scope.
Open Scope lexer_scope.

Definition when (b : bool) (m : M unit) : M unit := if b then m else ret tt.

(** [while (cond) body], the loop variables other than the fields being
    threaded through [A]. *)
Fixpoint loop {A} (fuel : nat) (cond : A -> Lexer -> bool)
    (body : A -> M A) (a : A) : M A := fun st =>
  if cond a st then
    match fuel with
    | O => OutOfFuel
    | S fuel' =>
        match body a st with
        | Ok (a', st') => loop fuel' cond body a' st'
        | Throw e => Throw e
        | OutOfFuel => OutOfFuel
        end
    end
  else Ok (a, st).

(** Every loop of the scanner consumes input while it runs, so the
    remaining input bounds its iterations. *)
Definition while {A} (cond : A -> Lexer -> bool) (body : A -> M A) (a : A)
    : M A := fun st =>
  loop (List.length (source st) - current st) cond body a st.

(** ** Helper methods *)

Definition isAtEnd (st : Lexer) : bool :=
  List.length (source st) <=? current st.

Definition advance : M (option N) := fun st =>
  Ok (nth_error (source st) (current st),
      set_column (column st + 1) (set_current (S (current st)) st)).

Definition peek (st : Lexer) : N :=
  if isAtEnd st then NUL
  else match nth_error (source st) (current st) with
       | Some c => c | None => NUL end.

Definition peekNext (st : Lexer) : N :=
  if List.length (source st) <=? current st + 1 then NUL
  else match nth_error (source st) (current st + 1) with
       | Some c => c | None => NUL end.

Definition match_ (expected : N) : M bool := fun st =>
  if isAtEnd st then Ok (false, st)
  else
    match nth_error (source st) (current st) with
    | Some c =>
        if N.eqb c expected
        then Ok (true, set_column (column st + 1) (set_current (S (current st)) st))
        else Ok (false, st)
    | None => Ok (false, st)
    end.

Definition isDigit (c : N) : bool := ((ch "0" <=? c) && (c <=? ch "9"))%N.

Definition isHexDigit (c : N) : bool :=
  (((ch "0" <=? c) && (c <=? ch "9"))
   || ((ch "a" <=? c) && (c <=? ch "f"))
   || ((ch "A" <=? c) && (c <=? ch "F")))%N.

Definition isOctalDigit (c : N) : bool := ((ch "0" <=? c) && (c <=? ch "7"))%N.

Definition isAlpha (c : N) : bool :=
  (((ch "a" <=? c) && (c <=? ch "z"))
   || ((ch "A" <=? c) && (c <=? ch "Z")))%N.

Definition isAlphaNumeric (c : N) : bool := isAlpha c || isDigit c.

Definition addToken (type : TokenType) : M unit := fun st =>
  let text := substring (source st) (start st) (current st) in
  Ok (tt, push_token
            (createToken type text (line st)
               (column st - Z.of_nat (List.length text)) (start st) LitAbsent)
            st).

Definition addTokenWithLiteral (type : TokenType) (literal : Literal)
    (line column : Z) : M unit := fun st =>
  let text := substring (source st) (start st) (current st) in
  let token := createToken type text line column (start st) literal in
  let token :=
    match file st with
    | Some (c :: f) => set_file token (c :: f)
    | _ => token
    end in
  Ok (tt, push_token token st).

Definition error (message : jsstring) : M unit :=
  (fun st =>
     Ok (tt, push_error
               {| err_message := message;
                  err_location :=
                    {| loc_line := line st; loc_column := column st;
                       loc_offset := current st; loc_length := 1;
                       loc_file := file st |} |} st)) ;;
  addToken INVALID.

(** ** Scanning *)

Definition isc (c : option N) (a : ascii) : bool :=
  match c with Some n => N.eqb n (ch a) | None => false end.
Arguments isc c a%_char.

Definition is_code (c : option N) (n : N) : bool :=
  match c with Some m => N.eqb m n | None => false end.

(** [this.advance() + this.advance()]: string concatenation, unless both
    operands are [undefined], when the sum is the number [NaN], which
    [parseInt] then reads as the text NaN. *)
Definition concat_advance (a b : option N) : jsstring :=
  match a, b with
  | None, None => js "NaN"
  | _, _ => of_char a ++ of_char b
  end.

(** The result is [None] when the method returns [undefined]. *)
Definition escapeSequence : M (option jsstring) :=
  c <- advance ;;
  if isc c "n" then ret (Some [LF])
  else if isc c "t" then ret (Some [TAB])
  else if isc c "r" then ret (Some [CR])
  else if is_code c BACKSLASH then ret (Some [BACKSLASH])
  else if is_code c DQUOTE then ret (Some [DQUOTE])
  else if isc c "'" then ret (Some [ch "'"])
  else if isc c "0" then ret (Some [NUL])
  else if isc c "x" then
    a <- advance ;;
    b <- advance ;;
    ret (Some (fromCharCode (parseInt (concat_advance a b) 16)))
  else if isc c "u" then
    opened <- match_ (ch "{") ;;
    if opened then
      hex <- while (fun _ st => negb (N.eqb (peek st) (ch "}")) && negb (isAtEnd st))
               (fun hex => d <- advance ;; ret (hex ++ of_char d)) [] ;;
      closed <- match_ (ch "}") ;;
      if negb closed then
        error (js "Unterminated unicode escape") ;; ret (Some [])
      else
        match fromCodePoint (parseInt hex 16) with
        | Some s => ret (Some s)
        | None => throw (RangeError (parseInt hex 16))
        end
    else
      error (js "Invalid unicode escape") ;; ret (Some [])
  else
    error (js "Invalid escape sequence: " ++ [BACKSLASH] ++ of_char c) ;;
    ret (option_map (fun n => [n]) c).

(** [value += x] where [x] may be [undefined]. *)
Definition of_opt_string (x : option jsstring) : jsstring :=
  match x with Some s => s | None => js "undefined" end.

Definition newline_inside : M unit :=
  modify (fun st =>
    set_lineStart (current st + 1) (set_column 0 (set_line (line st + 1) st))).

Definition blockComment : M unit :=
  depth <- while (fun depth st => (0 <? depth) && negb (isAtEnd st))
             (fun depth =>
                st <- get ;;
                if N.eqb (peek st) (ch "/") && N.eqb (peekNext st) (ch "*") then
                  advance ;; advance ;; ret (S depth)
                else if N.eqb (peek st) (ch "*") && N.eqb (peekNext st) (ch "/") then
                  advance ;; advance ;; ret (pred depth)
                else
                  when (N.eqb (peek st) LF) newline_inside ;;
                  advance ;; ret depth)
             1 ;;
  when (0 <? depth) (error (js "Unterminated block comment")).

Definition string_ : M unit :=
  st0 <- get ;;
  let startLine := line st0 in
  let startColumn := (column st0 - 1)%Z in
  value <- while (fun _ st => negb (N.eqb (peek st) DQUOTE) && negb (isAtEnd st))
             (fun value =>
                st <- get ;;
                when (N.eqb (peek st) LF) newline_inside ;;
                if N.eqb (peek st) BACKSLASH then
                  advance ;;
                  e <- escapeSequence ;;
                  ret (value ++ of_opt_string e)
                else
                  c <- advance ;;
                  ret (value ++ of_char c))
             [] ;;
  st <- get ;;
  if isAtEnd st then error (js "Unterminated string")
  else
    advance ;;
    addTokenWithLiteral STRING (LitString value) startLine startColumn.

Definition char_ : M unit :=
  st0 <- get ;;
  let startColumn := (column st0 - 1)%Z in
  value <- (if N.eqb (peek st0) BACKSLASH
            then advance ;; escapeSequence
            else c <- advance ;; ret (option_map (fun n => [n]) c)) ;;
  st <- get ;;
  if negb (N.eqb (peek st) (ch "'")) then
    error (js "Unterminated character literal")
  else
    advance ;;
    st <- get ;;
    addTokenWithLiteral CHAR
      (match value with Some s => LitString s | None => LitUndefined end)
      (line st) startColumn.

(** [while (p(this.peek())) this.advance();] *)
Definition advanceWhile (p : N -> bool) : M unit :=
  while (fun _ st => p (peek st)) (fun _ => advance ;; ret tt) tt.

Definition number : M unit :=
  st0 <- get ;;
  let startColumn := (column st0 - 1)%Z in
  let decimal : M unit :=
    advanceWhile isDigit ;;
    while (fun _ st => N.eqb (peek st) (ch "_") && isDigit (peekNext st))
      (fun _ => advance ;; advanceWhile isDigit) tt ;;
    st <- get ;;
    isFloat1 <- (if N.eqb (peek st) (ch ".") && isDigit (peekNext st)
                 then advance ;; advanceWhile isDigit ;; ret true
                 else ret false) ;;
    st <- get ;;
    isFloat <- (if N.eqb (peek st) (ch "e") || N.eqb (peek st) (ch "E") then
                  advance ;;
                  st <- get ;;
                  when (N.eqb (peek st) (ch "+") || N.eqb (peek st) (ch "-"))
                    (advance ;; ret tt) ;;
                  advanceWhile isDigit ;;
                  ret true
                else ret isFloat1) ;;
    st <- get ;;
    let text :=
      filter (fun c => negb (N.eqb c (ch "_")))
        (substring (source st) (start st) (current st)) in
    addTokenWithLiteral (if isFloat then FLOAT else INTEGER)
      (if isFloat then LitParseFloat text else LitParseInt text 10)
      (line st) startColumn in
  if is_code (nth_error (source st0) (start st0)) (ch "0") then
    let next := peek st0 in
    if N.eqb next (ch "x") || N.eqb next (ch "X") then
      advance ;;
      advanceWhile isHexDigit ;;
      st <- get ;;
      let value := substring (source st) (start st) (current st) in
      addTokenWithLiteral INTEGER (LitParseInt value 16) (line st) startColumn
    else if N.eqb next (ch "b") || N.eqb next (ch "B") then
      advance ;;
      advanceWhile (fun c => N.eqb c (ch "0") || N.eqb c (ch "1")) ;;
      st <- get ;;
      let value := substring (source st) (start st + 2) (current st) in
      addTokenWithLiteral INTEGER (LitParseInt value 2) (line st) startColumn
    else if N.eqb next (ch "o") || N.eqb next (ch "O") then
      advance ;;
      advanceWhile isOctalDigit ;;
      st <- get ;;
      let value := substring (source st) (start st + 2) (current st) in
      addTokenWithLiteral INTEGER (LitParseInt value 8) (line st) startColumn
    else decimal
  else decimal.

Definition identifier : M unit :=
  advanceWhile (fun c => isAlphaNumeric c || N.eqb c (ch "_")) ;;
  st <- get ;;
  let text := substring (source st) (start st) (current st) in
  let type := match KEYWORDS text with Some t => t | None => IDENTIFIER end in
  let col := (column st - Z.of_nat (List.length text))%Z in
  if TokenType_eqb type TRUE then
    addTokenWithLiteral BOOLEAN (LitBool true) (line st) col
  else if TokenType_eqb type FALSE then
    addTokenWithLiteral BOOLEAN (LitBool false) (line st) col
  else if TokenType_eqb type NIL then
    addTokenWithLiteral NIL LitNull (line st) col
  else addToken type.

Definition scanToken : M unit :=
  c <- advance ;;
  if isc c "(" then addToken LPAREN
  else if isc c ")" then addToken RPAREN
  else if isc c "{" then addToken LBRACE
  else if isc c "}" then addToken RBRACE
  else if isc c "[" then addToken LBRACKET
  else if isc c "]" then addToken RBRACKET
  else if isc c "," then addToken COMMA
  else if isc c ";" then addToken SEMICOLON
  else if isc c "?" then addToken QUESTION
  else if isc c "@" then addToken AT
  else if isc c "#" then addToken HASH
  else if isc c "~" then addToken BIT_NOT
  else if isc c ":" then addToken COLON
  else if isc c "+" then
    m <- match_ (ch "=") ;;
    if m then addToken PLUS_ASSIGN else addToken PLUS
  else if isc c "-" then
    m <- match_ (ch ">") ;;
    if m then addToken ARROW
    else m <- match_ (ch "=") ;;
         if m then addToken MINUS_ASSIGN else addToken MINUS
  else if isc c "*" then
    m <- match_ (ch "*") ;;
    if m then addToken POWER
    else m <- match_ (ch "=") ;;
         if m then addToken STAR_ASSIGN else addToken STAR
  else if isc c "/" then
    m <- match_ (ch "/") ;;
    if m then
      while (fun _ st => negb (N.eqb (peek st) LF) && negb (isAtEnd st))
        (fun _ => advance ;; ret tt) tt
    else m <- match_ (ch "*") ;;
         if m then blockComment
         else m <- match_ (ch "=") ;;
              if m then addToken SLASH_ASSIGN else addToken SLASH
  else if isc c "%" then addToken PERCENT
  else if isc c "=" then
    m <- match_ (ch "=") ;;
    if m then addToken EQ
    else m <- match_ (ch ">") ;;
         if m then addToken FAT_ARROW else addToken ASSIGN
  else if isc c "!" then
    m <- match_ (ch "=") ;;
    if m then addToken NEQ else addToken NOT
  else if isc c "<" then
    m <- match_ (ch "=") ;;
    if m then addToken LTE
    else m <- match_ (ch "<") ;;
         if m then addToken SHL else addToken LT
  else if isc c ">" then
    m <- match_ (ch "=") ;;
    if m then addToken GTE
    else m <- match_ (ch ">") ;;
         if m then addToken SHR else addToken GT
  else if isc c "&" then
    m <- match_ (ch "&") ;;
    if m then addToken AND else addToken BIT_AND
  else if isc c "|" then
    m <- match_ (ch "|") ;;
    if m then addToken OR else addToken BIT_OR
  else if isc c "^" then addToken BIT_XOR
  else if isc c "." then
    m <- match_ (ch ".") ;;
    if m then
      m <- match_ (ch "=") ;;
      if m then addToken RANGE_INCL else addToken RANGE
    else addToken DOT
  else if isc c " " || is_code c CR || is_code c TAB then ret tt
  else if is_code c LF then
    modify (fun st =>
      set_lineStart (current st) (set_column 1 (set_line (line st + 1) st)))
  else if is_code c DQUOTE then string_
  else if isc c "'" then char_
  else
    if match c with Some n => isDigit n | None => false end then number
    else if match c with Some n => isAlpha n | None => false end then identifier
    else if isc c "_" then
      st <- get ;;
      if isAlphaNumeric (peek st) then identifier else addToken UNDERSCORE
    else error (js "Unexpected character: '" ++ of_char c ++ js "'").

(** [Lexer.tokenize()] *)
Definition Lexer_tokenize : M (list Token * list LexerError) :=
  while (fun _ st => negb (isAtEnd st))
    (fun _ => modify (fun st => set_start (current st) st) ;; scanToken) tt ;;
  st <- get ;;
  modify (push_token
            (createToken EOF [] (line st) (column st) (current st) LitAbsent)) ;;
  st <- get ;;
  ret (tokens st, errors st).

Definition new_Lexer (source : jsstring) (file : option jsstring) : Lexer :=
  mkLexer source [] [] 0 0 1 1 0 file.

(** The exported function [tokenize(source, file)]. *)
Definition tokenize (source : jsstring) (file : option jsstring)
    : outcome (list Token * list LexerError) :=
  match Lexer_tokenize (new_Lexer source file) with
  | Ok (r, _) => Ok r
  | Throw e => Throw e
  | OutOfFuel => OutOfFuel
  end.

Close Scope lexer_scope.

End Lexer.

(* ================================================================== *)
(** * The syntax tree ([src/parser/ast.ts]) *)
(* ================================================================== *)

(** Induction principles of the nested inductive types below carry the
    hypotheses for the elements of lists and options. *)
Scheme All for list.
Scheme All for option.
Scheme All for prod.

Module AST.

Record Identifier := mkIdentifier {
  id_location : SourceLocation;
  id_name : jsstring
}.

Inductive LiteralKind :=
  | LKinteger | LKfloat | LKstring | LKchar | LKboolean | LKnil.

(** [Literal.value : number | string | boolean | null].  A number that is
    an integer is given by its value; any other number (a fraction, NaN,
    an infinity) by the text that [String(value)] yields for it. *)
Inductive LiteralValue :=
  | LVInt (z : Z)
  | LVFloat (text : jsstring)
  | LVString (s : jsstring)
  | LVBool (b : bool)
  | LVNull.

Record Literal := mkLiteral {
  lit_location : SourceLocation;
  lit_value : LiteralValue;
  lit_literalKind : LiteralKind
}.

(** [String(value)] *)
Definition String_of_value (v : LiteralValue) : jsstring :=
  match v with
  | LVInt z => of_Z z
  | LVFloat text => text
  | LVString s => s
  | LVBool true => js "true"
  | LVBool false => js "false"
  | LVNull => js "null"
  end.

(** [JSON.stringify(value)]: a number that is not finite prints as
    null. *)
Definition JSON_stringify_value (v : LiteralValue) : jsstring :=
  match v with
  | LVString s => JSON_stringify s
  | LVFloat text =>
      if Js.eqb text (js "NaN") || Js.eqb text (js "Infinity")
         || Js.eqb text (js "-Infinity")
      then js "null" else text
  | _ => String_of_value v
  end.

(** The names of primitive types; the syntactic [PrimitiveType] also has
    ['Void']. *)
Inductive PrimitiveName :=
  | Int | Int8 | Int16 | Int32 | Int64 | UInt
  | Float32 | Float64 | Bool | Char | String_.

Inductive PrimitiveTypeName :=
  | Prim (p : PrimitiveName)
  | Void.

Inductive TypeExpression :=
  | PrimitiveType (location : SourceLocation) (name : PrimitiveTypeName)
  | NamedType (location : SourceLocation) (name : Identifier)
      (path : list Identifier)
  | GenericType (location : SourceLocation) (base : TypeExpression)
      (arguments : list TypeExpression)
  | ArrayType (location : SourceLocation) (elementType : TypeExpression)
      (size : option Z)
  | TupleType (location : SourceLocation) (elements : list TypeExpression)
  | FunctionType (location : SourceLocation)
      (parameters : list TypeExpression) (returnType : TypeExpression)
      (effects : list TypeExpression)
  | ReferenceType (location : SourceLocation) (inner : TypeExpression)
      (isMutable : bool)
  | OptionalType (location : SourceLocation) (inner : TypeExpression)
  | ResultType (location : SourceLocation) (okType errType : TypeExpression)
  | NeverType (location : SourceLocation).

Inductive Pattern :=
  | WildcardPattern (location : SourceLocation)
  | LiteralPattern (location : SourceLocation) (value : Literal)
  | IdentifierPattern (location : SourceLocation) (name : Identifier)
      (isMutable : bool)
  | TuplePattern (location : SourceLocation) (elements : list Pattern)
  | StructPattern (location : SourceLocation) (type : Identifier)
      (fields : list StructPatternField) (hasRest : bool)
  | EnumPattern (location : SourceLocation) (type variant : Identifier)
      (fields : option (list Pattern))
  | RangePattern (location : SourceLocation) (start end_ : option Literal)
      (isInclusive : bool)
with StructPatternField :=
  | mkStructPatternField (location : SourceLocation) (name : Identifier)
      (pattern : Pattern).

Inductive BinaryOperator :=
  | OpAdd | OpSub | OpMul | OpDiv | OpMod | OpPow        (* + - * / % ** *)
  | OpEq | OpNeq | OpLt | OpGt | OpLte | OpGte           (* == != < > <= >= *)
  | OpAnd | OpOr                                         (* && || *)
  | OpBitAnd | OpBitOr | OpBitXor | OpShl | OpShr.       (* & | ^ << >> *)

Inductive UnaryOperator :=
  | OpNeg | OpNot | OpBitNot | OpRef | OpDeref.          (* - ! ~ & * *)

Inductive AssignmentOperator :=
  | AssignEq | AssignAdd | AssignSub | AssignMul | AssignDiv. (* = += -= *= /= *)

Inductive VerifyLevel := full | runtime | trusted.

Record GenericParameter := mkGenericParameter {
  gp_location : SourceLocation;
  gp_name : Identifier;
  gp_bounds : list TypeExpression;
  gp_defaultType : option TypeExpression
}.

Record TypeConstraint := mkTypeConstraint {
  tc_location : SourceLocation;
  tc_type : TypeExpression;
  tc_bounds : list TypeExpression
}.

Record WhereClause := mkWhereClause {
  wc_location : SourceLocation;
  wc_constraints : list TypeConstraint
}.

Record EnumVariant := mkEnumVariant {
  ev_location : SourceLocation;
  ev_name : Identifier;
  ev_fields : option (list TypeExpression)
}.

Record CapabilityField := mkCapabilityField {
  cf_location : SourceLocation;
  cf_name : Identifier;
  cf_type : TypeExpression
}.

Record ImportSpecifier := mkImportSpecifier {
  is_location : SourceLocation;
  is_name : Identifier;
  is_alias : option Identifier
}.

Inductive Expression :=
  | IdentifierExpr (id : Identifier)
  | LiteralExpr (lit : Literal)
  | BinaryExpression (location : SourceLocation) (operator : BinaryOperator)
      (left right : Expression)
  | UnaryExpression (location : SourceLocation) (operator : UnaryOperator)
      (operand : Expression) (isPrefix : bool)
  | CallExpression (location : SourceLocation) (callee : Expression)
      (arguments : list Expression) (genericArgs : list TypeExpression)
  | MemberExpression (location : SourceLocation) (object : Expression)
      (property : Identifier) (isOptional : bool)
  | IndexExpression (location : SourceLocation) (object index : Expression)
  | IfExpressionExpr (e : IfExpression)
  | MatchExpression (location : SourceLocation) (subject : Expression)
      (arms : list MatchArm)
  | BlockExpressionExpr (b : BlockExpression)
  | LambdaExpression (location : SourceLocation)
      (parameters : list FunctionParameter) (returnType : option TypeExpression)
      (body : Expression)
  | ArrayExpression (location : SourceLocation) (elements : list Expression)
  | TupleExpression (location : SourceLocation) (elements : list Expression)
  | StructExpression (location : SourceLocation) (type : Identifier)
      (fields : list StructExpressionField) (spread : option Expression)
  | RangeExpression (location : SourceLocation)
      (start end_ : option Expression) (isInclusive : bool)
  | CastExpression (location : SourceLocation) (expression : Expression)
      (targetType : TypeExpression)
  | OldExpression (location : SourceLocation) (expression : Expression)
  | ForallExpression (location : SourceLocation)
      (bindings : list ForallBinding) (condition : Expression)
  | ExistsExpression (location : SourceLocation)
      (bindings : list ForallBinding) (condition : Expression)
  | TryExpression (location : SourceLocation) (expression : Expression)
  | AssignmentExpression (location : SourceLocation)
      (operator : AssignmentOperator) (left right : Expression)
with IfExpression :=
  | mkIfExpression (location : SourceLocation) (condition : Expression)
      (thenBranch : BlockExpression) (elseBranch : ElseExpression)
with ElseExpression :=
  | ElseBlockExpression (b : BlockExpression)
  | ElseIfExpression (e : IfExpression)
  | NoElseExpression
with BlockExpression :=
  | mkBlockExpression (location : SourceLocation)
      (statements : list Statement) (expression : option Expression)
with MatchArm :=
  | mkMatchArm (location : SourceLocation) (pattern : Pattern)
      (guard : option Expression) (body : Expression)
with FunctionParameter :=
  | mkParameter (location : SourceLocation) (name : Identifier)
      (type : TypeExpression) (isMutable : bool)
      (defaultValue : option Expression)
with StructExpressionField :=
  | mkStructExpressionField (location : SourceLocation) (name : Identifier)
      (value : Expression)
with ForallBinding :=
  | mkForallBinding (location : SourceLocation) (name : Identifier)
      (range : option Expression)
with Annotation :=
  | RequiresAnnotation (location : SourceLocation) (condition : Expression)
  | EnsuresAnnotation (location : SourceLocation) (condition : Expression)
  | InvariantAnnotation (location : SourceLocation) (condition : Expression)
  | EffectAnnotation (location : SourceLocation)
      (effects : list TypeExpression)
  | CapabilityAnnotation (location : SourceLocation)
      (capability : Identifier) (fields : list (jsstring * Expression))
  | ContractAnnotation (location : SourceLocation) (contract : Identifier)
      (genericArgs : list TypeExpression)
  | IntentAnnotation (location : SourceLocation) (intent : Identifier)
      (genericArgs : list TypeExpression)
  | VerifyAnnotation (location : SourceLocation) (level : VerifyLevel)
with Statement :=
  | ExpressionStatement (location : SourceLocation) (expression : Expression)
  | ReturnStatement (location : SourceLocation) (value : option Expression)
  | IfStatementStmt (s : IfStatement)
  | WhileStatement (location : SourceLocation) (condition : Expression)
      (body : BlockStatement) (invariants : list Annotation)
  | ForStatement (location : SourceLocation) (variable : Identifier)
      (iterable : Expression) (body : BlockStatement)
      (invariants : list Annotation)
  | MatchStatement (location : SourceLocation) (subject : Expression)
      (arms : list MatchArm)
  | BlockStatementStmt (b : BlockStatement)
  | FunctionDeclarationStmt (d : FunctionDeclaration)
  | VariableDeclaration (location : SourceLocation) (name : Identifier)
      (type : option TypeExpression) (initializer : option Expression)
      (isMutable isExported : bool)
  | TypeAliasDeclaration (location : SourceLocation) (name : Identifier)
      (genericParams : list GenericParameter) (type : TypeExpression)
      (isExported : bool)
  | StructDeclaration (location : SourceLocation) (name : Identifier)
      (genericParams : list GenericParameter) (fields : list StructField)
      (invariants : list Annotation) (isExported : bool)
  | EnumDeclaration (location : SourceLocation) (name : Identifier)
      (genericParams : list GenericParameter) (variants : list EnumVariant)
      (isExported : bool)
  | TraitDeclaration (location : SourceLocation) (name : Identifier)
      (genericParams : list GenericParameter)
      (supertraits : list TypeExpression)
      (methods : list FunctionDeclaration) (isExported : bool)
  | ImplDeclaration (location : SourceLocation)
      (genericParams : list GenericParameter) (trait : option TypeExpression)
      (forType : TypeExpression) (methods : list FunctionDeclaration)
      (whereClause : option WhereClause)
  | ContractDeclaration (location : SourceLocation) (name : Identifier)
      (genericParams : list GenericParameter)
      (annotations : list Annotation) (isExported : bool)
  | IntentDeclaration (location : SourceLocation) (name : Identifier)
      (genericParams : list GenericParameter)
      (annotations : list Annotation) (isExported : bool)
  | EffectDeclaration (location : SourceLocation) (name : Identifier)
      (genericParams : list GenericParameter)
      (methods : list FunctionDeclaration) (isExported : bool)
  | CapabilityDeclaration (location : SourceLocation) (name : Identifier)
      (fields : list CapabilityField) (isExported : bool)
  | ImportDeclaration (location : SourceLocation) (path : list jsstring)
      (imports : list ImportSpecifier) (isWildcard : bool)
  | ExportDeclaration (location : SourceLocation) (declaration : Statement)
with IfStatement :=
  | mkIfStatement (location : SourceLocation) (condition : Expression)
      (thenBranch : BlockStatement) (elseBranch : ElseStatement)
with ElseStatement :=
  | ElseBlock (b : BlockStatement)
  | ElseIf (s : IfStatement)
  | NoElse
with BlockStatement :=
  | mkBlockStatement (location : SourceLocation)
      (statements : list Statement)
with FunctionDeclaration :=
  | mkFunctionDeclaration (location : SourceLocation) (name : Identifier)
      (genericParams : list GenericParameter) (parameters : list FunctionParameter)
      (returnType : TypeExpression) (annotations : list Annotation)
      (body : option BlockStatement) (isPure isExported : bool)
with StructField :=
  | mkStructField (location : SourceLocation) (name : Identifier)
      (type : TypeExpression) (defaultValue : option Expression)
      (annotations : list Annotation).

Record Program := mkProgram {
  prog_location : SourceLocation;
  prog_statements : list Statement
}.

(** Field accessors. *)
Definition fd_location (d : FunctionDeclaration) : SourceLocation :=
  let 'mkFunctionDeclaration l _ _ _ _ _ _ _ _ := d in l.
Definition fd_name (d : FunctionDeclaration) : Identifier :=
  let 'mkFunctionDeclaration _ n _ _ _ _ _ _ _ := d in n.
Definition fd_genericParams (d : FunctionDeclaration) : list GenericParameter :=
  let 'mkFunctionDeclaration _ _ g _ _ _ _ _ _ := d in g.
Definition fd_parameters (d : FunctionDeclaration) : list FunctionParameter :=
  let 'mkFunctionDeclaration _ _ _ p _ _ _ _ _ := d in p.
Definition fd_returnType (d : FunctionDeclaration) : TypeExpression :=
  let 'mkFunctionDeclaration _ _ _ _ r _ _ _ _ := d in r.
Definition fd_annotations (d : FunctionDeclaration) : list Annotation :=
  let 'mkFunctionDeclaration _ _ _ _ _ a _ _ _ := d in a.
Definition fd_body (d : FunctionDeclaration) : option BlockStatement :=
  let 'mkFunctionDeclaration _ _ _ _ _ _ b _ _ := d in b.
Definition fd_isPure (d : FunctionDeclaration) : bool :=
  let 'mkFunctionDeclaration _ _ _ _ _ _ _ p _ := d in p.
Definition fd_isExported (d : FunctionDeclaration) : bool :=
  let 'mkFunctionDeclaration _ _ _ _ _ _ _ _ e := d in e.

Definition param_location (p : FunctionParameter) : SourceLocation :=
  let 'mkParameter l _ _ _ _ := p in l.
Definition param_name (p : FunctionParameter) : Identifier :=
  let 'mkParameter _ n _ _ _ := p in n.
Definition param_type (p : FunctionParameter) : TypeExpression :=
  let 'mkParameter _ _ t _ _ := p in t.
Definition param_isMutable (p : FunctionParameter) : bool :=
  let 'mkParameter _ _ _ m _ := p in m.

Definition sf_name (f : StructField) : Identifier :=
  let 'mkStructField _ n _ _ _ := f in n.
Definition sf_type (f : StructField) : TypeExpression :=
  let 'mkStructField _ _ t _ _ := f in t.

Definition block_statements (b : BlockStatement) : list Statement :=
  let 'mkBlockStatement _ s := b in s.

(** [expr.location] *)
Definition expr_location (e : Expression) : SourceLocation :=
  match e with
  | IdentifierExpr id => id_location id
  | LiteralExpr lit => lit_location lit
  | BinaryExpression l _ _ _ | UnaryExpression l _ _ _
  | CallExpression l _ _ _ | MemberExpression l _ _ _
  | IndexExpression l _ _ | MatchExpression l _ _
  | LambdaExpression l _ _ _ | ArrayExpression l _ | TupleExpression l _
  | StructExpression l _ _ _ | RangeExpression l _ _ _
  | CastExpression l _ _ | OldExpression l _ | ForallExpression l _ _
  | ExistsExpression l _ _ | TryExpression l _
  | AssignmentExpression l _ _ _ => l
  | IfExpressionExpr (mkIfExpression l _ _ _) => l
  | BlockExpressionExpr (mkBlockExpression l _ _) => l
  end.

Definition annotation_location (a : Annotation) : SourceLocation :=
  match a with
  | RequiresAnnotation l _ | EnsuresAnnotation l _ | InvariantAnnotation l _
  | EffectAnnotation l _ | CapabilityAnnotation l _ _
  | ContractAnnotation l _ _ | IntentAnnotation l _ _
  | VerifyAnnotation l _ => l
  end.

Definition pattern_location (p : Pattern) : SourceLocation :=
  match p with
  | WildcardPattern l | LiteralPattern l _ | IdentifierPattern l _ _
  | TuplePattern l _ | StructPattern l _ _ _ | EnumPattern l _ _ _
  | RangePattern l _ _ _ => l
  end.

(** Operator spellings. *)
Definition BinaryOperator_text (op : BinaryOperator) : jsstring :=
  js match op with
     | OpAdd => "+" | OpSub => "-" | OpMul => "*" | OpDiv => "/"
     | OpMod => "%" | OpPow => "**"
     | OpEq => "==" | OpNeq => "!=" | OpLt => "<" | OpGt => ">"
     | OpLte => "<=" | OpGte => ">="
     | OpAnd => "&&" | OpOr => "||"
     | OpBitAnd => "&" | OpBitOr => "|" | OpBitXor => "^"
     | OpShl => "<<" | OpShr => ">>"
     end.

Definition UnaryOperator_text (op : UnaryOperator) : jsstring :=
  js match op with
     | OpNeg => "-" | OpNot => "!" | OpBitNot => "~"
     | OpRef => "&" | OpDeref => "*"
     end.

Definition AssignmentOperator_text (op : AssignmentOperator) : jsstring :=
  js match op with
     | AssignEq => "=" | AssignAdd => "+=" | AssignSub => "-="
     | AssignMul => "*=" | AssignDiv => "/="
     end.

Definition PrimitiveName_text (p : PrimitiveName) : jsstring :=
  js match p with
     | Int => "Int" | Int8 => "Int8" | Int16 => "Int16" | Int32 => "Int32"
     | Int64 => "Int64" | UInt => "UInt" | Float32 => "Float32"
     | Float64 => "Float64" | Bool => "Bool" | Char => "Char"
     | String_ => "String"
     end.

Definition PrimitiveName_eqb (a b : PrimitiveName) : bool :=
  Js.eqb (PrimitiveName_text a) (PrimitiveName_text b).

End AST.

(* ================================================================== *)
(** * Types of the checker ([src/analyzer/types.ts]) *)
(* ================================================================== *)

Module Types.

Import AST.

Inductive ContractKind := requires | ensures | invariant.

Record ContractCondition := mkContractCondition {
  cc_kind : ContractKind;
  cc_expression : jsstring;
  cc_location : Z * Z          (* line, column *)
}.

(** [Map<string, T>] keeps its entries in insertion order; an entry that
    is set again keeps its place. *)
Definition Map (T : Type) := list (jsstring * T).

Fixpoint Map_get {T} (m : Map T) (k : jsstring) : option T :=
  match m with
  | (k', v) :: m' => if Js.eqb k' k then Some v else Map_get m' k
  | [] => None
  end.

Definition Map_has {T} (m : Map T) (k : jsstring) : bool :=
  match Map_get m k with Some _ => true | None => false end.

Fixpoint Map_set {T} (m : Map T) (k : jsstring) (v : T) : Map T :=
  match m with
  | (k', v') :: m' =>
      if Js.eqb k' k then (k', v) :: m' else (k', v') :: Map_set m' k v
  | [] => [(k, v)]
  end.

Inductive Type_ :=
  | primitive (name : PrimitiveName)
  | struct (s : StructType)
  | enum (e : EnumType)
  | trait (t : TraitType)
  | array (elementType : Type_) (size : option Z)
  | tuple (elements : list Type_)
  | function (f : FunctionType)
  | generic (base : Type_) (arguments : list Type_)
  | typevar (v : TypeVariable)
  | reference (inner : Type_) (isMutable : bool)
  | optional (inner : Type_)
  | result (okType errType : Type_)
  | never
  | void
  | unknown
  | error (message : jsstring)
  | effect (e : EffectType)
  | capability (c : CapabilityType)
with StructType :=
  | mkStructType (name : jsstring) (fields : list (jsstring * Type_))
      (genericParams : list TypeVariable)
      (invariants : list ContractCondition) (module : jsstring)
with EnumType :=
  | mkEnumType (name : jsstring)
      (variants : list (jsstring * option (list Type_)))
      (genericParams : list TypeVariable) (module : jsstring)
with TraitType :=
  | mkTraitType (name : jsstring) (methods : list (jsstring * FunctionType))
      (supertraits : list TraitType) (genericParams : list TypeVariable)
      (module : jsstring)
with FunctionType :=
  | mkFunctionType (parameters : list ParameterType) (returnType : Type_)
      (effects : list EffectType) (capabilities : list CapabilityType)
      (contracts : list ContractRef) (isPure : bool)
with ParameterType :=
  | mkParameterType (name : jsstring) (type : Type_) (isMutable : bool)
with TypeVariable :=
  | mkTypeVariable (name : jsstring) (bounds : list Type_) (id : nat)
with EffectType :=
  | mkEffectType (name : jsstring) (methods : list (jsstring * FunctionType))
      (genericParams : list TypeVariable) (module : jsstring)
with CapabilityType :=
  | mkCapabilityType (name : jsstring) (permissions : list (jsstring * Type_))
      (module : jsstring)
with ContractRef :=
  | mkContractRef (name : jsstring) (genericArgs : list Type_).

(** Field accessors. *)
Definition st_name (s : StructType) := let 'mkStructType n _ _ _ _ := s in n.
Definition st_fields (s : StructType) := let 'mkStructType _ f _ _ _ := s in f.
Definition st_module (s : StructType) := let 'mkStructType _ _ _ _ m := s in m.
Definition en_name (e : EnumType) := let 'mkEnumType n _ _ _ := e in n.
Definition en_variants (e : EnumType) := let 'mkEnumType _ v _ _ := e in v.
Definition en_module (e : EnumType) := let 'mkEnumType _ _ _ m := e in m.
Definition tr_name (t : TraitType) := let 'mkTraitType n _ _ _ _ := t in n.
Definition tr_module (t : TraitType) := let 'mkTraitType _ _ _ _ m := t in m.
Definition ft_parameters (f : FunctionType) :=
  let 'mkFunctionType p _ _ _ _ _ := f in p.
Definition ft_returnType (f : FunctionType) :=
  let 'mkFunctionType _ r _ _ _ _ := f in r.
Definition ft_effects (f : FunctionType) :=
  let 'mkFunctionType _ _ e _ _ _ := f in e.
Definition ft_capabilities (f : FunctionType) :=
  let 'mkFunctionType _ _ _ c _ _ := f in c.
Definition ft_contracts (f : FunctionType) :=
  let 'mkFunctionType _ _ _ _ c _ := f in c.
Definition ft_isPure (f : FunctionType) :=
  let 'mkFunctionType _ _ _ _ _ p := f in p.
Definition pt_name (p : ParameterType) := let 'mkParameterType n _ _ := p in n.
Definition pt_type (p : ParameterType) := let 'mkParameterType _ t _ := p in t.
Definition tv_name (v : TypeVariable) := let 'mkTypeVariable n _ _ := v in n.
Definition tv_id (v : TypeVariable) := let 'mkTypeVariable _ _ i := v in i.
Definition eff_name (e : EffectType) := let 'mkEffectType n _ _ _ := e in n.
Definition eff_methods (e : EffectType) := let 'mkEffectType _ m _ _ := e in m.
Definition eff_module (e : EffectType) := let 'mkEffectType _ _ _ m := e in m.
Definition cap_name (c : CapabilityType) :=
  let 'mkCapabilityType n _ _ := c in n.

(** ** Type utilities *)

Definition isPrimitive (type : Type_) : bool :=
  match type with primitive _ => true | _ => false end.

Definition isNumeric (type : Type_) : bool :=
  match type with
  | primitive (Int | Int8 | Int16 | Int32 | Int64 | UInt | Float32 | Float64) =>
      true
  | _ => false
  end.

Definition isInteger (type : Type_) : bool :=
  match type with
  | primitive (Int | Int8 | Int16 | Int32 | Int64 | UInt) => true
  | _ => false
  end.

Definition isFloat (type : Type_) : bool :=
  match type with
  | primitive (Float32 | Float64) => true
  | _ => false
  end.

Definition isBoolean (type : Type_) : bool :=
  match type with primitive Bool => true | _ => false end.

Definition isString (type : Type_) : bool :=
  match type with primitive String_ => true | _ => false end.

Definition isVoid (type : Type_) : bool :=
  match type with void => true | _ => false end.

Definition isNever (type : Type_) : bool :=
  match type with never => true | _ => false end.

Definition option_Z_eqb (a b : option Z) : bool :=
  match a, b with
  | Some x, Some y => Z.eqb x y
  | None, None => true
  | _, _ => false
  end.

(** [typeEquals(a, b)].  The kinds ['effect'] and ['capability'] have no
    case of their own and fall to [default: return false]. *)
Fixpoint typeEquals (a b : Type_) {struct a} : bool :=
  match a, b with
  | primitive n, primitive m => PrimitiveName_eqb n m
  | void, void | never, never | unknown, unknown => true
  | error ma, error mb => Js.eqb mb ma
  | array ea sa, array eb sb => typeEquals ea eb && option_Z_eqb sa sb
  | tuple ea, tuple eb =>
      Nat.eqb (List.length ea) (List.length eb)
      && (fix every (xs ys : list Type_) {struct xs} : bool :=
            match xs, ys with
            | x :: xs', y :: ys' => typeEquals x y && every xs' ys'
            | [], _ => true
            | _ :: _, [] => false
            end) ea eb
  | optional ia, optional ib => typeEquals ia ib
  | result oa ra, result ob rb => typeEquals oa ob && typeEquals ra rb
  | reference ia ma, reference ib mb => Bool.eqb ma mb && typeEquals ia ib
  | struct sa, struct sb =>
      Js.eqb (st_name sa) (st_name sb) && Js.eqb (st_module sa) (st_module sb)
  | enum ea, enum eb =>
      Js.eqb (en_name ea) (en_name eb) && Js.eqb (en_module ea) (en_module eb)
  | trait ta, trait tb =>
      Js.eqb (tr_name ta) (tr_name tb) && Js.eqb (tr_module ta) (tr_module tb)
  | typevar va, typevar vb => Nat.eqb (tv_id va) (tv_id vb)
  | function (mkFunctionType pa ra _ _ _ pura),
    function (mkFunctionType pb rb _ _ _ purb) =>
      Nat.eqb (List.length pa) (List.length pb)
      && (fix every (ps qs : list ParameterType) {struct ps} : bool :=
            match ps, qs with
            | mkParameterType _ t _ :: ps', q :: qs' =>
                typeEquals t (pt_type q) && every ps' qs'
            | [], _ => true
            | _ :: _, [] => false
            end) pa pb
      && typeEquals ra rb
      && Bool.eqb pura purb
  | generic ba aa, generic bb ab =>
      typeEquals ba bb
      && Nat.eqb (List.length aa) (List.length ab)
      && (fix every (xs ys : list Type_) {struct xs} : bool :=
            match xs, ys with
            | x :: xs', y :: ys' => typeEquals x y && every xs' ys'
            | [], _ => true
            | _ :: _, [] => false
            end) aa ab
  | _, _ => false
  end.

Definition getNumericSize (type : Type_) : N :=
  match type with
  | primitive Int8 => 8
  | primitive Int16 => 16
  | primitive (Int32 | Float32) => 32
  | primitive (Int64 | Float64 | Int | UInt) => 64
  | _ => 0
  end%N.

Definition is_error (type : Type_) : bool :=
  match type with error _ => true | _ => false end.

(** [isAssignableTo(source, target)] *)
Fixpoint isAssignableTo (source target : Type_) {struct target} : bool :=
  (* Never is assignable to anything *)
  if isNever source then true
  (* Anything is assignable to unknown *)
  else if match target with unknown => true | _ => false end then true
  (* Error types propagate *)
  else if is_error source || is_error target then true
  (* Exact type match *)
  else if typeEquals source target then true
  else
    match target with
    (* Optional handling: T is assignable to T? *)
    | optional inner => isAssignableTo source inner
    | reference tinner tmut =>
        match source with
        | reference sinner smut =>
            (* &mut T is assignable to &T *)
            if negb tmut && smut then isAssignableTo sinner tinner
            else Bool.eqb smut tmut && isAssignableTo sinner tinner
        | _ => false
        end
    | _ =>
        (* Numeric coercion *)
        if isNumeric source && isNumeric target then
          let sourceSize := getNumericSize source in
          let targetSize := getNumericSize target in
          if isInteger source && isInteger target then
            (sourceSize <=? targetSize)%N
          else if isFloat source && isFloat target then
            (sourceSize <=? targetSize)%N
          else if isInteger source && isFloat target then true
          else false
        else false
    end.

(** [typeToString(type)] *)
Fixpoint typeToString (type : Type_) : jsstring :=
  match type with
  | primitive name => PrimitiveName_text name
  | void => js "Void"
  | never => js "Never"
  | unknown => js "unknown"
  | error message => js "<error: " ++ message ++ js ">"
  | array elementType size =>
      match size with
      | Some n =>
          js "[" ++ typeToString elementType ++ js "; " ++ of_Z n ++ js "]"
      | None => js "[" ++ typeToString elementType ++ js "]"
      end
  | tuple elements =>
      js "(" ++ join (js ", ") (map typeToString elements) ++ js ")"
  | optional inner => typeToString inner ++ js "?"
  | result okType errType =>
      js "Result<" ++ typeToString okType ++ js ", "
      ++ typeToString errType ++ js ">"
  | reference inner isMutable =>
      if isMutable then js "&mut " ++ typeToString inner
      else js "&" ++ typeToString inner
  | struct s => st_name s
  | enum e => en_name e
  | trait t => tr_name t
  | typevar v => tv_name v
  | function (mkFunctionType parameters returnType effects _ _ _) =>
      let params :=
        join (js ", ")
          ((fix each (ps : list ParameterType) : list jsstring :=
              match ps with
              | mkParameterType _ t _ :: ps' => typeToString t :: each ps'
              | [] => []
              end) parameters) in
      let effs :=
        match effects with
        | [] => []
        | _ => js " @effect[" ++ join (js ", ") (map eff_name effects) ++ js "]"
        end in
      js "fn(" ++ params ++ js ") -> " ++ typeToString returnType ++ effs
  | generic base arguments =>
      typeToString base ++ js "<"
      ++ join (js ", ") (map typeToString arguments) ++ js ">"
  | effect e => js "effect " ++ eff_name e
  | capability c => js "capability " ++ cap_name c
  end.

(** Built-in types *)
Definition PRIMITIVES (name : PrimitiveName) : Type_ := primitive name.
Definition VOID_TYPE : Type_ := void.
Definition NEVER_TYPE : Type_ := never.
Definition UNKNOWN_TYPE : Type_ := unknown.

End Types.

(* ================================================================== *)
(** * The symbol table ([src/analyzer/symbols.ts]) *)
(* ================================================================== *)

Module Symbols.

Import Types.

Inductive SymbolKind :=
  | Kvariable | Kparameter | Kfunction | Ktype | Kstruct | Kenum | Ktrait
  | Keffect | Kcapability | Kcontract | Kintent | Ktypevar | Kmodule.

Record Symbol := mkSymbol {
  sym_name : jsstring;
  sym_type : Type_;
  sym_isMutable : bool;
  sym_isExported : bool;
  sym_kind : SymbolKind;
  sym_location : SourceLocation;
  sym_module : jsstring
}.

Record ContractSymbol := mkContractSymbol {
  cs_name : jsstring;
  cs_genericParams : list TypeVariable;
  cs_requires : list jsstring;
  cs_ensures : list jsstring;
  cs_invariants : list jsstring;
  cs_module : jsstring
}.

Record IntentSymbol := mkIntentSymbol {
  is_name : jsstring;
  is_genericParams : list TypeVariable;
  is_ensures : list jsstring;
  is_module : jsstring
}.

Inductive ScopeKind := Sglobal | Smodule | Sfunction | Sblock | Sloop.

(** [class Scope].  The [parent] pointer is the next scope of the stack
    that [SymbolTable] keeps. *)
Record Scope := mkScope {
  symbols : Map Symbol;
  types : Map Type_;
  contracts : Map ContractSymbol;
  intents : Map IntentSymbol;
  name : jsstring;
  kind : ScopeKind
}.

Definition new_Scope (name : jsstring) (kind : ScopeKind) : Scope :=
  mkScope [] [] [] [] name kind.

(** The definers return the updated scope and whether the name was free. *)
Definition Scope_define (s : Scope) (symbol : Symbol) : Scope * bool :=
  if Map_has (symbols s) (sym_name symbol) then (s, false)
  else (mkScope (Map_set (symbols s) (sym_name symbol) symbol) (types s)
          (contracts s) (intents s) (name s) (kind s), true).

Definition Scope_defineType (s : Scope) (n : jsstring) (type : Type_)
    : Scope * bool :=
  if Map_has (types s) n then (s, false)
  else (mkScope (symbols s) (Map_set (types s) n type) (contracts s)
          (intents s) (name s) (kind s), true).

Definition Scope_defineContract (s : Scope) (contract : ContractSymbol)
    : Scope * bool :=
  if Map_has (contracts s) (cs_name contract) then (s, false)
  else (mkScope (symbols s) (types s)
          (Map_set (contracts s) (cs_name contract) contract) (intents s)
          (name s) (kind s), true).

Definition Scope_defineIntent (s : Scope) (intent : IntentSymbol)
    : Scope * bool :=
  if Map_has (intents s) (is_name intent) then (s, false)
  else (mkScope (symbols s) (types s) (contracts s)
          (Map_set (intents s) (is_name intent) intent) (name s) (kind s),
        true).

(** [class SymbolTable].  [currentScope] is the innermost scope and
    [parents] its chain of parents, the global scope last. *)
Record SymbolTable := mkSymbolTable {
  currentScope : Scope;
  parents : list Scope;
  modules : list jsstring;         (* names of the module scopes entered *)
  activeEffects : list jsstring;   (* Set<string> *)
  requiredCapabilities : Map (Map bool)
}.

Definition new_SymbolTable : SymbolTable :=
  mkSymbolTable (new_Scope (js "global") Sglobal) [] [] [] [].

Definition set_scopes (c : Scope) (ps : list Scope) (t : SymbolTable)
    : SymbolTable :=
  mkSymbolTable c ps (modules t) (activeEffects t) (requiredCapabilities t).

Definition enterScope (name : jsstring) (kind : ScopeKind) (t : SymbolTable)
    : SymbolTable :=
  mkSymbolTable (new_Scope name kind) (currentScope t :: parents t)
    (match kind with Smodule => modules t ++ [name] | _ => modules t end)
    (activeEffects t) (requiredCapabilities t).

Definition exitScope (t : SymbolTable) : SymbolTable :=
  match parents t with
  | p :: ps => set_scopes p ps t
  | [] => t
  end.

Definition define (name : jsstring) (type : Type_) (kind : SymbolKind)
    (location : SourceLocation) (isMutable isExported : option bool)
    (module : option jsstring) (t : SymbolTable) : SymbolTable * bool :=
  let symbol :=
    {| sym_name := name; sym_type := type; sym_kind := kind;
       sym_location := location;
       sym_isMutable := match isMutable with Some b => b | None => false end;
       sym_isExported := match isExported with Some b => b | None => false end;
       sym_module :=
         match module with Some m => m | None => Symbols.name (currentScope t) end
    |} in
  let '(s, ok) := Scope_define (currentScope t) symbol in
  (set_scopes s (parents t) t, ok).

Definition defineType (name : jsstring) (type : Type_) (t : SymbolTable)
    : SymbolTable * bool :=
  let '(s, ok) := Scope_defineType (currentScope t) name type in
  (set_scopes s (parents t) t, ok).

Definition defineContract (contract : ContractSymbol) (t : SymbolTable)
    : SymbolTable * bool :=
  let '(s, ok) := Scope_defineContract (currentScope t) contract in
  (set_scopes s (parents t) t, ok).

Definition defineIntent (intent : IntentSymbol) (t : SymbolTable)
    : SymbolTable * bool :=
  let '(s, ok) := Scope_defineIntent (currentScope t) intent in
  (set_scopes s (parents t) t, ok).

(** [Scope.lookup] walks the chain of parents. *)
Fixpoint chain_lookup {T} (get : Scope -> Map T) (scopes : list Scope)
    (n : jsstring) : option T :=
  match scopes with
  | s :: rest =>
      match Map_get (get s) n with
      | Some v => Some v
      | None => chain_lookup get rest n
      end
  | [] => None
  end.

Definition scope_chain (t : SymbolTable) : list Scope :=
  currentScope t :: parents t.

Definition lookup (n : jsstring) (t : SymbolTable) : option Symbol :=
  chain_lookup symbols (scope_chain t) n.
Definition lookupType (n : jsstring) (t : SymbolTable) : option Type_ :=
  chain_lookup types (scope_chain t) n.
Definition lookupContract (n : jsstring) (t : SymbolTable)
    : option ContractSymbol :=
  chain_lookup contracts (scope_chain t) n.
Definition lookupIntent (n : jsstring) (t : SymbolTable)
    : option IntentSymbol :=
  chain_lookup intents (scope_chain t) n.

(** ** Effect tracking *)

(** [new Set(xs)]: the distinct elements in order of first occurrence. *)
Fixpoint Set_of (xs : list jsstring) (seen : list jsstring) : list jsstring :=
  match xs with
  | x :: xs' =>
      if existsb (Js.eqb x) seen then Set_of xs' seen
      else x :: Set_of xs' (seen ++ [x])
  | [] => []
  end.

Definition Set_has (s : list jsstring) (x : jsstring) : bool :=
  existsb (Js.eqb x) s.

Definition set_activeEffects (e : list jsstring) (t : SymbolTable)
    : SymbolTable :=
  mkSymbolTable (currentScope t) (parents t) (modules t) e
    (requiredCapabilities t).

Definition hasEffect (e : jsstring) (t : SymbolTable) : bool :=
  Set_has (activeEffects t) e.
Definition getActiveEffects (t : SymbolTable) : list jsstring :=
  activeEffects t.
Definition clearEffects (t : SymbolTable) : SymbolTable :=
  set_activeEffects [] t.
Definition setEffects (effects : list jsstring) (t : SymbolTable)
    : SymbolTable :=
  set_activeEffects (Set_of effects []) t.

End Symbols.

(* ================================================================== *)
(** * The checker ([src/analyzer/analyzer.ts]) *)
(* ================================================================== *)

Module Analyzer.

Import AST Types Symbols.

Inductive Severity := Serror | Swarning | Sinfo.

Record SemanticError := mkSemanticError {
  se_message : jsstring;
  se_location : SourceLocation;
  se_severity : Severity
}.

(** The fields of [class SemanticAnalyzer], and the counter of type
    variables of [types.ts].  [typeMap] is keyed by node identity; the
    model records the sequence of its updates. *)
Record Analyzer := mkAnalyzer {
  errors : list SemanticError;
  warnings : list SemanticError;
  symbolTable : SymbolTable;
  typeMap : list (Expression * Type_);
  currentModule : jsstring;
  currentFunction : option FunctionDeclaration;
  inContractContext : bool;
  typeVarCounter : nat
}.

Definition set_errors (x : list SemanticError) (st : Analyzer) : Analyzer :=
  mkAnalyzer x (warnings st) (symbolTable st) (typeMap st) (currentModule st)
    (currentFunction st) (inContractContext st) (typeVarCounter st).
Definition set_warnings (x : list SemanticError) (st : Analyzer) : Analyzer :=
  mkAnalyzer (errors st) x (symbolTable st) (typeMap st) (currentModule st)
    (currentFunction st) (inContractContext st) (typeVarCounter st).
Definition set_symbolTable (x : SymbolTable) (st : Analyzer) : Analyzer :=
  mkAnalyzer (errors st) (warnings st) x (typeMap st) (currentModule st)
    (currentFunction st) (inContractContext st) (typeVarCounter st).
Definition set_typeMap (x : list (Expression * Type_)) (st : Analyzer)
    : Analyzer :=
  mkAnalyzer (errors st) (warnings st) (symbolTable st) x (currentModule st)
    (currentFunction st) (inContractContext st) (typeVarCounter st).
Definition set_currentFunction (x : option FunctionDeclaration)
    (st : Analyzer) : Analyzer :=
  mkAnalyzer (errors st) (warnings st) (symbolTable st) (typeMap st)
    (currentModule st) x (inContractContext st) (typeVarCounter st).
Definition set_inContractContext (x : bool) (st : Analyzer) : Analyzer :=
  mkAnalyzer (errors st) (warnings st) (symbolTable st) (typeMap st)
    (currentModule st) (currentFunction st) x (typeVarCounter st).
Definition set_typeVarCounter (x : nat) (st : Analyzer) : Analyzer :=
  mkAnalyzer (errors st) (warnings st) (symbolTable st) (typeMap st)
    (currentModule st) (currentFunction st) (inContractContext st) x.

(** ** The checker monad

    [Untyped] stands for an execution that leaves the statically typed
    fragment: a method that is declared to return a [Type] returns
    [undefined].  The model does not follow such executions. *)
Inductive outcome (A : Type) :=
  | Ok (a : A)
  | Untyped.
Arguments Ok {A} a.
Arguments Untyped {A}.

Definition M (A : Type) := Analyzer -> outcome (A * Analyzer).

Definition ret {A} (a : A) : M A := fun st => Ok (a, st).

Definition bind {A B} (m : M A) (k : A -> M B) : M B := fun st =>
  match m st with
  | Ok (a, st') => k a st'
  | Untyped => Untyped
  end.

Definition get : M Analyzer := fun st => Ok (st, st).
Definition gets {A} (f : Analyzer -> A) : M A := fun st => Ok (f st, st).
Definition modify (f : Analyzer -> Analyzer) : M unit :=
  fun st => Ok (tt, f st).
Definition untyped {A} : M A := fun _ => Untyped.

Declare Scope analyzer_scope.
Delimit Scope analyzer_scope with analyzer.
Notation "x <- m ;; k" := (bind m (fun x => k))
  (at level 61, m at next level, right associativity) : analyzer_scope.
Notation "m ;; k" := (bind m (fun _ => k))
  (at level 61, right associativity) : analyzer_scope.
Open Scope analyzer_scope.

Definition when (b : bool) (m : M unit) : M unit := if b then m else ret tt.

(** [xs.map(f)] and [for (const x of xs) f(x)] with effects. *)
Definition mapM {X Y} (f : X -> M Y) : list X -> M (list Y) :=
  fix go (l : list X) : M (list Y) :=
    match l with
    | [] => ret []
    | x :: l' => y <- f x ;; ys <- go l' ;; ret (y :: ys)
    end.

Definition forEach {X} (f : X -> M unit) : list X -> M unit :=
  fix go (l : list X) : M unit :=
    match l with
    | [] => ret tt
    | x :: l' => f x ;; go l'
    end.

(** [for (let i = 0; i < Math.min(xs.length, ys.length); i++) f(xs[i], ys[i])] *)
Definition forEach2 {X Y} (f : X -> Y -> M unit) : list X -> list Y -> M unit :=
  fix go (xs : list X) (ys : list Y) : M unit :=
    match xs, ys with
    | x :: xs', y :: ys' => f x y ;; go xs' ys'
    | _, _ => ret tt
    end.

(** ** Helpers *)

(** [this.currentFunction.returnType], when [this.currentFunction] is
    not null. *)
Definition currentReturnType (st : Analyzer) : option TypeExpression :=
  option_map fd_returnType (currentFunction st).

Definition error (location : SourceLocation) (message : jsstring) : M unit :=
  modify (fun st =>
    set_errors (errors st ++ [mkSemanticError message location Serror]) st).

Definition warning (location : SourceLocation) (message : jsstring) : M unit :=
  modify (fun st =>
    set_warnings (warnings st ++ [mkSemanticError message location Swarning]) st).

Definition withTable (f : SymbolTable -> SymbolTable) : M unit :=
  modify (fun st => set_symbolTable (f (symbolTable st)) st).

Definition st_define (name : jsstring) (type : Type_) (kind : SymbolKind)
    (location : SourceLocation) (isMutable isExported : option bool)
    (module : option jsstring) : M unit :=
  withTable (fun t =>
    fst (define name type kind location isMutable isExported module t)).

Definition st_defineType (name : jsstring) (type : Type_) : M unit :=
  withTable (fun t => fst (defineType name type t)).

(** [createTypeVariable(name, bounds)] of [types.ts] *)
Definition createTypeVariable (name : jsstring) (bounds : list Type_)
    : M TypeVariable := fun st =>
  Ok (mkTypeVariable name bounds (typeVarCounter st),
      set_typeVarCounter (S (typeVarCounter st)) st).

Definition is_effect (t : Type_) : option EffectType :=
  match t with effect e => Some e | _ => None end.

(** ** Type resolution *)

Fixpoint resolveType (typeExpr : TypeExpression) : M Type_ :=
  match typeExpr with
  | PrimitiveType _ name =>
      ret (match name with Prim p => PRIMITIVES p | Void => VOID_TYPE end)
  | NamedType location name _ =>
      type <- gets (fun st => lookupType (id_name name) (symbolTable st)) ;;
      match type with
      | None =>
          error location (js "Unknown type: " ++ id_name name) ;;
          ret UNKNOWN_TYPE
      | Some type => ret type
      end
  | GenericType _ base arguments =>
      baseType <- resolveType base ;;
      args <- mapM resolveType arguments ;;
      ret (generic baseType args)
  | ArrayType _ elementType size =>
      elementType <- resolveType elementType ;;
      ret (array elementType size)
  | TupleType _ elements =>
      elements <- mapM resolveType elements ;;
      ret (tuple elements)
  | AST.FunctionType _ parameters returnType effects =>
      effTypes <- mapM resolveType effects ;;
      let effects :=
        flat_map (fun t => match is_effect t with Some e => [e] | None => [] end)
          effTypes in
      paramTypes <- mapM resolveType parameters ;;
      let parameters :=
        map (fun '(i, t) => mkParameterType (js "_" ++ of_nat i) t false)
          (combine (seq 0 (List.length paramTypes)) paramTypes) in
      returnType <- resolveType returnType ;;
      ret (function
             (mkFunctionType parameters returnType effects [] []
                (match effects with [] => true | _ => false end)))
  | ReferenceType _ inner isMutable =>
      inner <- resolveType inner ;;
      ret (reference inner isMutable)
  | OptionalType _ inner =>
      inner <- resolveType inner ;;
      ret (optional inner)
  | ResultType _ okType errType =>
      okType <- resolveType okType ;;
      errType <- resolveType errType ;;
      ret (result okType errType)
  | NeverType _ => ret NEVER_TYPE
  end.

Definition foldM {X S} (f : S -> X -> M S) : S -> list X -> M S :=
  fix go (s : S) (l : list X) : M S :=
    match l with
    | [] => ret s
    | x :: l' => s' <- f s x ;; go s' l'
    end.

Definition createFunctionType (decl : FunctionDeclaration) : M FunctionType :=
  parameters <-
    mapM (fun p =>
            t <- resolveType (param_type p) ;;
            ret (mkParameterType (id_name (param_name p)) t (param_isMutable p)))
      (fd_parameters decl) ;;
  acc <-
    foldM (fun (acc : list EffectType * list CapabilityType * list ContractRef)
               ann =>
             let '(effects, capabilities, contracts) := acc in
             match ann with
             | EffectAnnotation _ effs =>
                 effects <-
                   foldM (fun effects eff =>
                            effType <- resolveType eff ;;
                            ret (match effType with
                                 | effect e => effects ++ [e]
                                 | _ => effects
                                 end))
                     effects effs ;;
                 ret (effects, capabilities, contracts)
             | CapabilityAnnotation _ cap _ =>
                 capType <- gets (fun st =>
                              lookupType (id_name cap) (symbolTable st)) ;;
                 ret (match capType with
                      | Some (capability c) =>
                          (effects, capabilities ++ [c], contracts)
                      | _ => acc
                      end)
             | ContractAnnotation _ contract genericArgs =>
                 args <- mapM resolveType genericArgs ;;
                 ret (effects, capabilities,
                      contracts ++ [mkContractRef (id_name contract) args])
             | _ => ret acc
             end)
      ([], [], []) (fd_annotations decl) ;;
  let '(effects, capabilities, contracts) := acc in
  returnType <- resolveType (fd_returnType decl) ;;
  ret (mkFunctionType parameters returnType effects capabilities contracts
         (fd_isPure decl)).

Fixpoint expressionToString (expr : Expression) : jsstring :=
  match expr with
  | IdentifierExpr id => id_name id
  | LiteralExpr lit => String_of_value (lit_value lit)
  | BinaryExpression _ operator lhs rhs =>
      js "(" ++ expressionToString lhs ++ js " "
      ++ BinaryOperator_text operator ++ js " "
      ++ expressionToString rhs ++ js ")"
  | UnaryExpression _ operator operand _ =>
      UnaryOperator_text operator ++ expressionToString operand
  | CallExpression _ callee arguments _ =>
      let args := join (js ", ") (map expressionToString arguments) in
      expressionToString callee ++ js "(" ++ args ++ js ")"
  | MemberExpression _ object property _ =>
      expressionToString object ++ js "." ++ id_name property
  | _ => js "<expr>"
  end.

(** ** Collection pass *)

Definition genericTypeVariables (ps : list GenericParameter)
    : M (list TypeVariable) :=
  mapM (fun p =>
          bounds <- mapM resolveType (gp_bounds p) ;;
          createTypeVariable (id_name (gp_name p)) bounds) ps.

Definition collectFunctionDeclaration (decl : FunctionDeclaration) : M unit :=
  funcType <- createFunctionType decl ;;
  m <- gets currentModule ;;
  st_define (id_name (fd_name decl)) (function funcType) Kfunction
    (fd_location decl) None (Some (fd_isExported decl)) (Some m).

Definition collectStructDeclaration (location : SourceLocation)
    (name : Identifier) (genericParams : list GenericParameter)
    (fields : list StructField) (isExported : bool) : M unit :=
  genericParams <- genericTypeVariables genericParams ;;
  m <- gets currentModule ;;
  fieldMap <-
    foldM (fun fm field =>
             t <- resolveType (sf_type field) ;;
             ret (Map_set fm (id_name (sf_name field)) t)) [] fields ;;
  let structType :=
    struct (mkStructType (id_name name) fieldMap genericParams [] m) in
  st_defineType (id_name name) structType ;;
  st_define (id_name name) structType Kstruct location None (Some isExported)
    (Some m).

Definition collectEnumDeclaration (location : SourceLocation)
    (name : Identifier) (genericParams : list GenericParameter)
    (variants : list EnumVariant) (isExported : bool) : M unit :=
  genericParams <- genericTypeVariables genericParams ;;
  m <- gets currentModule ;;
  variantMap <-
    foldM (fun vm variant =>
             fields <-
               match ev_fields variant with
               | Some fs => ts <- mapM resolveType fs ;; ret (Some ts)
               | None => ret None
               end ;;
             ret (Map_set vm (id_name (ev_name variant)) fields)) [] variants ;;
  let enumType := enum (mkEnumType (id_name name) variantMap genericParams m) in
  st_defineType (id_name name) enumType ;;
  st_define (id_name name) enumType Kenum location None (Some isExported)
    (Some m).

Definition collectTraitDeclaration (location : SourceLocation)
    (name : Identifier) (genericParams : list GenericParameter)
    (isExported : bool) : M unit :=
  genericParams <- genericTypeVariables genericParams ;;
  m <- gets currentModule ;;
  let traitType := trait (mkTraitType (id_name name) [] [] genericParams m) in
  st_defineType (id_name name) traitType ;;
  st_define (id_name name) traitType Ktrait location None (Some isExported)
    (Some m).

Definition collectContractDeclaration (name : Identifier)
    (genericParams : list GenericParameter) (annotations : list Annotation)
    : M unit :=
  genericParams <- genericTypeVariables genericParams ;;
  m <- gets currentModule ;;
  let conds (sel : Annotation -> option Expression) :=
    flat_map (fun ann =>
                match sel ann with
                | Some c => [expressionToString c]
                | None => []
                end) annotations in
  let contract :=
    {| cs_name := id_name name; cs_genericParams := genericParams;
       cs_requires :=
         conds (fun a => match a with RequiresAnnotation _ c => Some c
                                    | _ => None end);
       cs_ensures :=
         conds (fun a => match a with EnsuresAnnotation _ c => Some c
                                    | _ => None end);
       cs_invariants :=
         conds (fun a => match a with InvariantAnnotation _ c => Some c
                                    | _ => None end);
       cs_module := m |} in
  withTable (fun t => fst (defineContract contract t)).

Definition collectIntentDeclaration (name : Identifier)
    (genericParams : list GenericParameter) (annotations : list Annotation)
    : M unit :=
  genericParams <- genericTypeVariables genericParams ;;
  m <- gets currentModule ;;
  let intent :=
    {| is_name := id_name name; is_genericParams := genericParams;
       is_ensures :=
         flat_map (fun ann =>
                     match ann with
                     | EnsuresAnnotation _ c => [expressionToString c]
                     | _ => []
                     end) annotations;
       is_module := m |} in
  withTable (fun t => fst (defineIntent intent t)).

Definition collectEffectDeclaration (location : SourceLocation)
    (name : Identifier) (genericParams : list GenericParameter)
    (methods : list FunctionDeclaration) (isExported : bool) : M unit :=
  genericParams <- genericTypeVariables genericParams ;;
  m <- gets currentModule ;;
  methodMap <-
    foldM (fun mm method =>
             ft <- createFunctionType method ;;
             ret (Map_set mm (id_name (fd_name method)) ft)) [] methods ;;
  let effectType :=
    effect (mkEffectType (id_name name) methodMap genericParams m) in
  st_defineType (id_name name) effectType ;;
  st_define (id_name name) effectType Keffect location None (Some isExported)
    (Some m).

Definition collectCapabilityDeclaration (location : SourceLocation)
    (name : Identifier) (fields : list CapabilityField) (isExported : bool)
    : M unit :=
  m <- gets currentModule ;;
  permissions <-
    foldM (fun pm field =>
             t <- resolveType (cf_type field) ;;
             ret (Map_set pm (id_name (cf_name field)) t)) [] fields ;;
  let capType := capability (mkCapabilityType (id_name name) permissions m) in
  st_defineType (id_name name) capType ;;
  st_define (id_name name) capType Kcapability location None (Some isExported)
    (Some m).

Fixpoint collectDeclaration (stmt : Statement) : M unit :=
  match stmt with
  | FunctionDeclarationStmt d => collectFunctionDeclaration d
  | StructDeclaration l n g f _ e => collectStructDeclaration l n g f e
  | EnumDeclaration l n g v e => collectEnumDeclaration l n g v e
  | TraitDeclaration l n g _ _ e => collectTraitDeclaration l n g e
  | ContractDeclaration _ n g a _ => collectContractDeclaration n g a
  | IntentDeclaration _ n g a _ => collectIntentDeclaration n g a
  | EffectDeclaration l n g m e => collectEffectDeclaration l n g m e
  | CapabilityDeclaration l n f e => collectCapabilityDeclaration l n f e
  | ExportDeclaration _ declaration => collectDeclaration declaration
  | _ => ret tt
  end.

Definition collectDeclarations (program : Program) : M unit :=
  forEach collectDeclaration (prog_statements program).

(** ** Analysis pass

    The methods of the analysis pass are mutually recursive through the
    syntax tree.  Each method is first written with the recursive calls
    on sub-trees as parameters; the fixpoint after the section closes the
    recursion. *)

Definition analyzeLiteral (expr : Literal) : Type_ :=
  match lit_literalKind expr with
  | LKinteger => PRIMITIVES Int
  | LKfloat => PRIMITIVES Float64
  | LKstring => PRIMITIVES String_
  | LKchar => PRIMITIVES Char
  | LKboolean => PRIMITIVES Bool
  | LKnil => VOID_TYPE
  end.

Fixpoint analyzePattern (pattern : Pattern) (expectedType : Type_) : M unit :=
  match pattern with
  | WildcardPattern _ => ret tt
  | LiteralPattern location value =>
      let litType := analyzeLiteral value in
      when (negb (isAssignableTo litType expectedType))
        (error location
           (js "Pattern type mismatch: expected " ++ typeToString expectedType
            ++ js ", got " ++ typeToString litType))
  | IdentifierPattern location name isMutable =>
      st_define (id_name name) expectedType Kvariable location
        (Some isMutable) None None
  | TuplePattern location elements =>
      match expectedType with
      | tuple expected =>
          if negb (Nat.eqb (List.length elements) (List.length expected)) then
            error location
              (js "Tuple pattern has " ++ of_nat (List.length elements)
               ++ js " elements, expected " ++ of_nat (List.length expected))
          else forEach2 analyzePattern elements expected
      | _ => error location (js "Expected tuple type for tuple pattern")
      end
  | EnumPattern location _ variant fields =>
      match expectedType with
      | enum e =>
          match Map_get (en_variants e) (id_name variant) with
          | None =>
              error location
                (js "Unknown variant " ++ id_name variant ++ js " in enum "
                 ++ en_name e)
          | Some variantFields =>
              match fields, variantFields with
              | Some fields, Some variantFields =>
                  if negb (Nat.eqb (List.length fields)
                             (List.length variantFields)) then
                    error location
                      (js "Variant " ++ id_name variant ++ js " has "
                       ++ of_nat (List.length variantFields)
                       ++ js " fields, got " ++ of_nat (List.length fields))
                  else forEach2 analyzePattern fields variantFields
              | _, _ => ret tt
              end
          end
      | _ => error location (js "Expected enum type for enum pattern")
      end
  | StructPattern location _ fields _ =>
      match expectedType with
      | struct s =>
          forEach (fun field =>
                     match field with
                     | mkStructPatternField flocation fname fpattern =>
                         match Map_get (st_fields s) (id_name fname) with
                         | None =>
                             error flocation
                               (js "Unknown field " ++ id_name fname
                                ++ js " in struct " ++ st_name s)
                         | Some fieldType => analyzePattern fpattern fieldType
                         end
                     end) fields
      | _ => error location (js "Expected struct type for struct pattern")
      end
  | RangePattern _ _ _ _ => ret tt
  end.

(** The declared effect names of a function: the names of the
    [NamedType] entries of its [@effect[...]] annotations. *)
Definition declaredEffects (annotations : list Annotation) : list jsstring :=
  flat_map (fun ann =>
              match ann with
              | EffectAnnotation _ effects =>
                  flat_map (fun eff =>
                              match eff with
                              | NamedType _ name _ => [id_name name]
                              | _ => []
                              end) effects
              | _ => []
              end) annotations.

(** [parseInt(name.replace(/\D/g, '') || '64')] *)
Definition nameDigits (p : PrimitiveName) : N :=
  match p with
  | Int8 => 8 | Int16 => 16 | Int32 | Float32 => 32
  | _ => 64
  end%N.

Definition startsWithFloat (p : PrimitiveName) : bool :=
  match p with Float32 | Float64 => true | _ => false end.

Definition widenNumericTypes (a b : Type_) : Type_ :=
  match a, b with
  | primitive na, primitive nb =>
      if startsWithFloat na || startsWithFloat nb then
        if PrimitiveName_eqb na Float64 || PrimitiveName_eqb nb Float64
        then PRIMITIVES Float64 else PRIMITIVES Float32
      else if (nameDigits nb <=? nameDigits na)%N then a else b
  | _, _ => UNKNOWN_TYPE
  end.

Definition analyzeIdentifier (expr : Identifier) : M Type_ :=
  inContract <- gets inContractContext ;;
  returnType <- gets currentReturnType ;;
  (* Special case for 'result' in ensures clauses *)
  match (if Js.eqb (id_name expr) (js "result") && inContract
         then returnType else None) with
  | Some returnType => resolveType returnType
  | None =>
      symbol <- gets (fun st => lookup (id_name expr) (symbolTable st)) ;;
      match symbol with
      | None =>
          error (id_location expr)
            (js "Undefined identifier: " ++ id_name expr) ;;
          ret UNKNOWN_TYPE
      | Some symbol => ret (sym_type symbol)
      end
  end.

Section Methods.

Variable analyzeExpression : Expression -> M Type_.
Variable analyzeIfExpression : IfExpression -> M Type_.
Variable analyzeBlockExpression : BlockExpression -> M Type_.
Variable analyzeMatchArm : MatchArm -> Type_ -> M Type_.
Variable analyzeStatement : Statement -> M Type_.
Variable analyzeIfStatement : IfStatement -> M Type_.
Variable analyzeBlockStatement : BlockStatement -> M Type_.
Variable analyzeFunctionDeclaration : FunctionDeclaration -> M Type_.
Variable analyzeAnnotation : Annotation -> M unit.

Definition analyzeReturnStatement (location : SourceLocation)
    (value : option Expression) : M Type_ :=
  returnType <- gets currentReturnType ;;
  match returnType with
  | None =>
      error location (js "Return statement outside of function") ;;
      ret NEVER_TYPE
  | Some returnType =>
      expectedType <- resolveType returnType ;;
      match value with
      | Some value =>
          actualType <- analyzeExpression value ;;
          when (negb (isAssignableTo actualType expectedType))
            (error location
               (js "Return type mismatch: expected "
                ++ typeToString expectedType ++ js ", got "
                ++ typeToString actualType)) ;;
          ret actualType
      | None =>
          when (negb (isVoid expectedType))
            (error location
               (js "Missing return value: expected "
                ++ typeToString expectedType)) ;;
          ret VOID_TYPE
      end
  end.

Definition analyzeIfStatement_body (condition : Expression)
    (thenBranch : BlockStatement) (elseBranch : ElseStatement) : M Type_ :=
  condType <- analyzeExpression condition ;;
  when (negb (isBoolean condType))
    (error (expr_location condition)
       (js "Condition must be Bool, got " ++ typeToString condType)) ;;
  analyzeBlockStatement thenBranch ;;
  match elseBranch with
  | ElseIf s => analyzeIfStatement s ;; ret tt
  | ElseBlock b => analyzeBlockStatement b ;; ret tt
  | NoElse => ret tt
  end ;;
  ret VOID_TYPE.

(** The loop over the invariants of a [while] or [for] statement. *)
Definition analyzeLoopInvariants (invariants : list Annotation) : M unit :=
  modify (set_inContractContext true) ;;
  forEach (fun inv =>
             match inv with
             | InvariantAnnotation location condition =>
                 invType <- analyzeExpression condition ;;
                 when (negb (isBoolean invType))
                   (error location
                      (js "Loop invariant must be Bool, got "
                       ++ typeToString invType))
             | _ => ret tt
             end) invariants ;;
  modify (set_inContractContext false).

Definition analyzeWhileStatement (condition : Expression)
    (body : BlockStatement) (invariants : list Annotation) : M Type_ :=
  condType <- analyzeExpression condition ;;
  when (negb (isBoolean condType))
    (error (expr_location condition)
       (js "Condition must be Bool, got " ++ typeToString condType)) ;;
  analyzeLoopInvariants invariants ;;
  withTable (enterScope (js "while") Sloop) ;;
  analyzeBlockStatement body ;;
  withTable exitScope ;;
  ret VOID_TYPE.

Definition analyzeForStatement (variable : Identifier) (iterable : Expression)
    (body : BlockStatement) (invariants : list Annotation) : M Type_ :=
  iterType <- analyzeExpression iterable ;;
  let elementType :=
    match iterType with
    | array elementType _ => elementType
    | generic (struct _) arguments =>
        match arguments with t :: _ => t | [] => UNKNOWN_TYPE end
    | _ => UNKNOWN_TYPE
    end in
  withTable (enterScope (js "for") Sloop) ;;
  st_define (id_name variable) elementType Kvariable (id_location variable)
    (Some false) None None ;;
  analyzeLoopInvariants invariants ;;
  analyzeBlockStatement body ;;
  withTable exitScope ;;
  ret VOID_TYPE.

Definition analyzeMatchStatement (subject : Expression) (arms : list MatchArm)
    : M Type_ :=
  subjectType <- analyzeExpression subject ;;
  forEach (fun arm => analyzeMatchArm arm subjectType ;; ret tt) arms ;;
  ret VOID_TYPE.

Definition analyzeMatchArm_body (pattern : Pattern) (guard : option Expression)
    (body : Expression) (subjectType : Type_) : M Type_ :=
  withTable (enterScope (js "match-arm") Sblock) ;;
  analyzePattern pattern subjectType ;;
  match guard with
  | Some guard =>
      guardType <- analyzeExpression guard ;;
      when (negb (isBoolean guardType))
        (error (expr_location guard)
           (js "Match guard must be Bool, got " ++ typeToString guardType))
  | None => ret tt
  end ;;
  bodyType <- analyzeExpression body ;;
  withTable exitScope ;;
  ret bodyType.

Definition analyzeBlockStatement_body (statements : list Statement)
    : M Type_ :=
  withTable (enterScope (js "block") Sblock) ;;
  lastType <- foldM (fun _ stmt => analyzeStatement stmt) VOID_TYPE statements ;;
  withTable exitScope ;;
  ret lastType.

Definition analyzeFunctionDeclaration_body (decl : FunctionDeclaration)
    (annotations : list Annotation) (body : option BlockStatement)
    : M Type_ :=
  symbol <- gets (fun st => lookup (id_name (fd_name decl)) (symbolTable st)) ;;
  match option_map sym_type symbol with
  | Some (function funcType) =>
      modify (set_currentFunction (Some decl)) ;;
      withTable (enterScope (id_name (fd_name decl)) Sfunction) ;;
      (* Define generic type parameters *)
      forEach (fun param =>
                 bounds <- mapM resolveType (gp_bounds param) ;;
                 typeVar <- createTypeVariable (id_name (gp_name param)) bounds ;;
                 st_defineType (id_name (gp_name param)) (typevar typeVar))
        (fd_genericParams decl) ;;
      (* Define parameters *)
      forEach (fun param =>
                 paramType <- resolveType (param_type param) ;;
                 st_define (id_name (param_name param)) paramType Kparameter
                   (param_location param) (Some (param_isMutable param))
                   None None)
        (fd_parameters decl) ;;
      (* Check effect annotations *)
      withTable (setEffects (declaredEffects annotations)) ;;
      (* Check contract annotations *)
      modify (set_inContractContext true) ;;
      forEach analyzeAnnotation annotations ;;
      modify (set_inContractContext false) ;;
      (* Analyze function body *)
      match body with
      | Some body => analyzeBlockStatement body ;; ret tt
      | None => ret tt
      end ;;
      withTable exitScope ;;
      withTable clearEffects ;;
      modify (set_currentFunction None) ;;
      ret (function funcType)
  | _ => ret VOID_TYPE
  end.

Definition analyzeVariableDeclaration (location : SourceLocation)
    (name : Identifier) (type : option TypeExpression)
    (initializer : option Expression) (isMutable isExported : bool)
    : M Type_ :=
  varType <- match type with
             | Some type => resolveType type
             | None => ret UNKNOWN_TYPE
             end ;;
  varType <-
    match initializer with
    | Some initializer =>
        initType <- analyzeExpression initializer ;;
        match varType with
        | unknown => ret initType
        | _ =>
            when (negb (isAssignableTo initType varType))
              (error location
                 (js "Cannot assign " ++ typeToString initType ++ js " to "
                  ++ typeToString varType)) ;;
            ret varType
        end
    | None =>
        match varType with
        | unknown =>
            error location (js "Cannot infer type without initializer") ;;
            ret varType
        | _ => ret varType
        end
    end ;;
  st_define (id_name name) varType Kvariable location (Some isMutable)
    (Some isExported) None ;;
  ret varType.

Definition analyzeStructDeclaration (name : Identifier)
    (invariants : list Annotation) : M Type_ :=
  structType <- gets (fun st => lookupType (id_name name) (symbolTable st)) ;;
  match structType with
  | Some (struct s) =>
      modify (set_inContractContext true) ;;
      forEach (fun inv =>
                 match inv with
                 | InvariantAnnotation location condition =>
                     invType <- analyzeExpression condition ;;
                     when (negb (isBoolean invType))
                       (error location
                          (js "Invariant must be Bool, got "
                           ++ typeToString invType))
                 | _ => ret tt
                 end) invariants ;;
      modify (set_inContractContext false) ;;
      ret (struct s)
  | _ => ret VOID_TYPE
  end.

Definition analyzeEnumDeclaration (name : Identifier) : M Type_ :=
  enumType <- gets (fun st => lookupType (id_name name) (symbolTable st)) ;;
  ret (match enumType with Some t => t | None => VOID_TYPE end).

Definition analyzeTraitDeclaration (name : Identifier)
    (methods : list FunctionDeclaration) : M Type_ :=
  traitType <- gets (fun st => lookupType (id_name name) (symbolTable st)) ;;
  match traitType with
  | Some (trait t) =>
      forEach (fun method => analyzeFunctionDeclaration method ;; ret tt)
        methods ;;
      ret (trait t)
  | _ => ret VOID_TYPE
  end.

Definition analyzeImplDeclaration (location : SourceLocation)
    (trait_ : option TypeExpression) (forType : TypeExpression)
    (methods : list FunctionDeclaration) : M Type_ :=
  forType <- resolveType forType ;;
  match trait_ with
  | Some t =>
      traitType <- resolveType t ;;
      match traitType with
      | trait _ => ret tt
      | _ => error location (js "Expected trait type")
      end
  | None => ret tt
  end ;;
  forEach (fun method =>
             match method with
             | mkFunctionDeclaration mlocation mname _ parameters _ _ body _ _ =>
                 modify (set_currentFunction (Some method)) ;;
                 withTable (enterScope (js "impl_" ++ id_name mname) Sfunction) ;;
                 (* Add self parameter *)
                 st_define (js "self") forType Kparameter mlocation
                   (Some false) None None ;;
                 (* Define parameters *)
                 forEach (fun param =>
                            paramType <- resolveType (param_type param) ;;
                            st_define (id_name (param_name param)) paramType
                              Kparameter (param_location param)
                              (Some (param_isMutable param)) None None)
                   parameters ;;
                 match body with
                 | Some body => analyzeBlockStatement body ;; ret tt
                 | None => ret tt
                 end ;;
                 withTable exitScope ;;
                 modify (set_currentFunction None)
             end) methods ;;
  ret VOID_TYPE.

Definition analyzeImportDeclaration (imports : list ImportSpecifier)
    : M Type_ :=
  forEach (fun spec =>
             let name :=
               match AST.is_alias spec with
               | Some a =>
                   match id_name a with
                   | [] => id_name (AST.is_name spec)
                   | n => n
                   end
               | None => id_name (AST.is_name spec)
               end in
             st_define name UNKNOWN_TYPE Kmodule (AST.is_location spec) None
               (Some false) None) imports ;;
  ret VOID_TYPE.

Definition analyzeAnnotation_body (ann : Annotation) : M unit :=
  match ann with
  | RequiresAnnotation location condition =>
      reqType <- analyzeExpression condition ;;
      when (negb (isBoolean reqType))
        (error location
           (js "Requires condition must be Bool, got " ++ typeToString reqType))
  | EnsuresAnnotation location condition =>
      ensType <- analyzeExpression condition ;;
      when (negb (isBoolean ensType))
        (error location
           (js "Ensures condition must be Bool, got " ++ typeToString ensType))
  | InvariantAnnotation location condition =>
      invType <- analyzeExpression condition ;;
      when (negb (isBoolean invType))
        (error location
           (js "Invariant must be Bool, got " ++ typeToString invType))
  | ContractAnnotation location contract _ =>
      c <- gets (fun st => lookupContract (id_name contract) (symbolTable st)) ;;
      match c with
      | None => error location (js "Unknown contract: " ++ id_name contract)
      | Some _ => ret tt
      end
  | IntentAnnotation location intent _ =>
      i <- gets (fun st => lookupIntent (id_name intent) (symbolTable st)) ;;
      match i with
      | None => error location (js "Unknown intent: " ++ id_name intent)
      | Some _ => ret tt
      end
  | EffectAnnotation location effects =>
      forEach (fun eff =>
                 effType <- resolveType eff ;;
                 match effType with
                 | effect _ => ret tt
                 | _ =>
                     warning location
                       (typeToString effType ++ js " is not an effect type")
                 end) effects
  | CapabilityAnnotation location cap _ =>
      capType <- gets (fun st => lookupType (id_name cap) (symbolTable st)) ;;
      match capType with
      | Some (capability _) => ret tt
      | _ => error location (js "Unknown capability: " ++ id_name cap)
      end
  | VerifyAnnotation _ _ => ret tt
  end.

Definition analyzeBinaryExpression (location : SourceLocation)
    (operator : BinaryOperator) (lhs rhs : Expression) : M Type_ :=
  leftType <- analyzeExpression lhs ;;
  rightType <- analyzeExpression rhs ;;
  match operator with
  | OpAdd | OpSub | OpMul | OpDiv | OpMod | OpPow =>
      if negb (isNumeric leftType) || negb (isNumeric rightType) then
        error location
          (js "Arithmetic operators require numeric types, got "
           ++ typeToString leftType ++ js " and " ++ typeToString rightType) ;;
        ret UNKNOWN_TYPE
      else
        (* Return the wider type *)
        ret (widenNumericTypes leftType rightType)
  | OpEq | OpNeq =>
      when (negb (isAssignableTo leftType rightType)
            && negb (isAssignableTo rightType leftType))
        (error location
           (js "Cannot compare " ++ typeToString leftType ++ js " with "
            ++ typeToString rightType)) ;;
      ret (PRIMITIVES Bool)
  | OpLt | OpGt | OpLte | OpGte =>
      when (negb (isNumeric leftType) || negb (isNumeric rightType))
        (error location
           (js "Comparison operators require numeric types, got "
            ++ typeToString leftType ++ js " and " ++ typeToString rightType)) ;;
      ret (PRIMITIVES Bool)
  | OpAnd | OpOr =>
      when (negb (isBoolean leftType) || negb (isBoolean rightType))
        (error location
           (js "Logical operators require Bool types, got "
            ++ typeToString leftType ++ js " and " ++ typeToString rightType)) ;;
      ret (PRIMITIVES Bool)
  | OpBitAnd | OpBitOr | OpBitXor | OpShl | OpShr =>
      when (negb (isInteger leftType) || negb (isInteger rightType))
        (error location
           (js "Bitwise operators require integer types, got "
            ++ typeToString leftType ++ js " and " ++ typeToString rightType)) ;;
      ret leftType
  end.

Definition analyzeUnaryExpression (location : SourceLocation)
    (operator : UnaryOperator) (operand : Expression) : M Type_ :=
  operandType <- analyzeExpression operand ;;
  match operator with
  | OpNeg =>
      when (negb (isNumeric operandType))
        (error location
           (js "Unary minus requires numeric type, got "
            ++ typeToString operandType)) ;;
      ret operandType
  | OpNot =>
      when (negb (isBoolean operandType))
        (error location
           (js "Logical not requires Bool, got " ++ typeToString operandType)) ;;
      ret (PRIMITIVES Bool)
  | OpBitNot =>
      when (negb (isInteger operandType))
        (error location
           (js "Bitwise not requires integer type, got "
            ++ typeToString operandType)) ;;
      ret operandType
  | OpRef => ret (reference operandType false)
  | OpDeref =>
      match operandType with
      | reference inner _ => ret inner
      | _ =>
          error location
            (js "Cannot dereference non-reference type "
             ++ typeToString operandType) ;;
          ret UNKNOWN_TYPE
      end
  end.

(** The message of the effect check of a call. *)
Definition effect_message (effectName : jsstring) : jsstring :=
  js "Function requires effect " ++ effectName
  ++ js " which is not declared in current context".

(** [// Check effect requirements] *)
Definition checkEffectRequirements (location : SourceLocation)
    (calleeEffects : list EffectType) : M unit :=
  match calleeEffects with
  | [] => ret tt
  | _ =>
      activeEffects <- gets (fun st => getActiveEffects (symbolTable st)) ;;
      forEach (fun eff =>
                 when (negb (Set_has activeEffects (eff_name eff)))
                   (error location (effect_message (eff_name eff))))
        calleeEffects
  end.

(** [// Check argument types] *)
Definition checkArgumentTypes (arguments : list Expression)
    (parameters : list ParameterType) : M unit :=
  forEach2 (fun arg param =>
              argType <- analyzeExpression arg ;;
              let paramType := pt_type param in
              when (negb (isAssignableTo argType paramType))
                (error (expr_location arg)
                   (js "Argument type mismatch: expected "
                    ++ typeToString paramType ++ js ", got "
                    ++ typeToString argType)))
    arguments parameters.

Definition analyzeCallExpression (location : SourceLocation)
    (callee : Expression) (arguments : list Expression) : M Type_ :=
  calleeType <- analyzeExpression callee ;;
  match calleeType with
  | function calleeType =>
      (* Check argument count *)
      when (negb (Nat.eqb (List.length arguments)
                    (List.length (ft_parameters calleeType))))
        (error location
           (js "Expected " ++ of_nat (List.length (ft_parameters calleeType))
            ++ js " arguments, got " ++ of_nat (List.length arguments))) ;;
      (* Check argument types *)
      checkArgumentTypes arguments (ft_parameters calleeType) ;;
      (* Check effect requirements *)
      checkEffectRequirements location (ft_effects calleeType) ;;
      ret (ft_returnType calleeType)
  | struct _ | enum _ =>
      (* Could be a struct constructor *)
      ret calleeType
  | _ =>
      error location
        (js "Cannot call non-function type " ++ typeToString calleeType) ;;
      ret UNKNOWN_TYPE
  end.

Definition analyzeMemberExpression (location : SourceLocation)
    (object : Expression) (property : Identifier) : M Type_ :=
  objectType <- analyzeExpression object ;;
  let noMember :=
    error location
      (js "Cannot access member " ++ id_name property ++ js " on "
       ++ typeToString objectType) ;;
    ret UNKNOWN_TYPE in
  let structField (s : StructType) :=
    match Map_get (st_fields s) (id_name property) with
    | None =>
        error location
          (js "Struct " ++ st_name s ++ js " has no field " ++ id_name property) ;;
        ret UNKNOWN_TYPE
    | Some fieldType => ret fieldType
    end in
  match objectType with
  | effect e =>
      (* Handle effect method calls (e.g., IO.write) *)
      match Map_get (eff_methods e) (id_name property) with
      | None =>
          error location
            (js "Effect " ++ eff_name e ++ js " has no method "
             ++ id_name property) ;;
          ret UNKNOWN_TYPE
      | Some method => ret (function method)
      end
  | struct s => structField s
  | reference (struct s) _ => structField s
  | _ => noMember
  end.

Definition analyzeIndexExpression (location : SourceLocation)
    (object index : Expression) : M Type_ :=
  objectType <- analyzeExpression object ;;
  indexType <- analyzeExpression index ;;
  let cannotIndex :=
    error location (js "Cannot index " ++ typeToString objectType) ;;
    ret UNKNOWN_TYPE in
  match objectType with
  | array elementType _ =>
      when (negb (isInteger indexType))
        (error (expr_location index)
           (js "Array index must be integer, got " ++ typeToString indexType)) ;;
      ret elementType
  | tuple elements =>
      match indexType, index with
      | primitive _, LiteralExpr lit =>
          match lit_value lit with
          | LVInt i =>
              if (i <? 0)%Z || (Z.of_nat (List.length elements) <=? i)%Z then
                error location
                  (js "Tuple index " ++ of_Z i ++ js " out of bounds (length "
                   ++ of_nat (List.length elements) ++ js ")") ;;
                ret UNKNOWN_TYPE
              else
                match nth_error elements (Z.to_nat i) with
                | Some t => ret t
                | None => untyped
                end
          | _ =>
              (* an index that is not an integer: [elements[index]] may be
                 [undefined] *)
              untyped
          end
      | _, _ => cannotIndex
      end
  | _ => cannotIndex
  end.

Definition analyzeIfExpression_body (location : SourceLocation)
    (condition : Expression) (thenBranch : BlockExpression)
    (elseBranch : ElseExpression) : M Type_ :=
  condType <- analyzeExpression condition ;;
  when (negb (isBoolean condType))
    (error (expr_location condition)
       (js "Condition must be Bool, got " ++ typeToString condType)) ;;
  thenType <- analyzeBlockExpression thenBranch ;;
  let compare (elseType : Type_) : M Type_ :=
    (* Both branches must have compatible types *)
    when (negb (typeEquals thenType elseType))
      (warning location
         (js "If-else branches have different types: "
          ++ typeToString thenType ++ js " vs " ++ typeToString elseType)) ;;
    ret thenType in
  match elseBranch with
  | ElseIfExpression e => elseType <- analyzeIfExpression e ;; compare elseType
  | ElseBlockExpression b =>
      elseType <- analyzeBlockExpression b ;; compare elseType
  | NoElseExpression => ret VOID_TYPE
  end.

Definition analyzeMatchExpression (subject : Expression)
    (arms : list MatchArm) : M Type_ :=
  subjectType <- analyzeExpression subject ;;
  resultType <-
    foldM (fun (resultType : option Type_) arm =>
             armType <- analyzeMatchArm arm subjectType ;;
             match resultType with
             | None => ret (Some armType)
             | Some resultType =>
                 when (negb (typeEquals resultType armType))
                   (warning (let 'mkMatchArm l _ _ _ := arm in l)
                      (js "Match arm has different type: expected "
                       ++ typeToString resultType ++ js ", got "
                       ++ typeToString armType)) ;;
                 ret (Some resultType)
             end) None arms ;;
  ret (match resultType with Some t => t | None => VOID_TYPE end).

Definition analyzeBlockExpression_body (statements : list Statement)
    (expression : option Expression) : M Type_ :=
  withTable (enterScope (js "block") Sblock) ;;
  forEach (fun stmt => analyzeStatement stmt ;; ret tt) statements ;;
  resultType <- match expression with
                | Some e => analyzeExpression e
                | None => ret VOID_TYPE
                end ;;
  withTable exitScope ;;
  ret resultType.

Definition analyzeLambdaExpression (parameters : list FunctionParameter)
    (returnType : option TypeExpression) (body : Expression) : M Type_ :=
  withTable (enterScope (js "lambda") Sfunction) ;;
  parameters <-
    mapM (fun param =>
            paramType <- resolveType (param_type param) ;;
            st_define (id_name (param_name param)) paramType Kparameter
              (param_location param) (Some (param_isMutable param)) None None ;;
            ret (mkParameterType (id_name (param_name param)) paramType
                   (param_isMutable param)))
      parameters ;;
  bodyType <- analyzeExpression body ;;
  withTable exitScope ;;
  returnType <- match returnType with
                | Some t => resolveType t
                | None => ret bodyType
                end ;;
  ret (function (mkFunctionType parameters returnType [] [] [] true)).

Definition analyzeArrayExpression (elements : list Expression) : M Type_ :=
  match elements with
  | [] => ret (array UNKNOWN_TYPE (Some 0%Z))
  | first :: rest =>
      elementType <- analyzeExpression first ;;
      forEach (fun element =>
                 elemType <- analyzeExpression element ;;
                 when (negb (isAssignableTo elemType elementType))
                   (error (expr_location element)
                      (js "Array element type mismatch: expected "
                       ++ typeToString elementType ++ js ", got "
                       ++ typeToString elemType))) rest ;;
      ret (array elementType None)
  end.

Definition analyzeTupleExpression (elements : list Expression) : M Type_ :=
  elements <- mapM analyzeExpression elements ;;
  ret (tuple elements).

Definition analyzeStructExpression (location : SourceLocation)
    (type : Identifier) (fields : list StructExpressionField)
    (spread : option Expression) : M Type_ :=
  structType <- gets (fun st => lookupType (id_name type) (symbolTable st)) ;;
  match structType with
  | Some (struct s) =>
      providedFields <-
        foldM (fun (providedFields : list jsstring) field =>
                 match field with
                 | mkStructExpressionField flocation fname fvalue =>
                     let providedFields :=
                       if Set_has providedFields (id_name fname)
                       then providedFields
                       else providedFields ++ [id_name fname] in
                     match Map_get (st_fields s) (id_name fname) with
                     | None =>
                         error flocation
                           (js "Unknown field " ++ id_name fname
                            ++ js " in struct " ++ id_name type) ;;
                         ret providedFields
                     | Some expectedType =>
                         actualType <- analyzeExpression fvalue ;;
                         when (negb (isAssignableTo actualType expectedType))
                           (error flocation
                              (js "Field " ++ id_name fname ++ js " expects "
                               ++ typeToString expectedType ++ js ", got "
                               ++ typeToString actualType)) ;;
                         ret providedFields
                     end
                 end) [] fields ;;
      (* Check for missing required fields *)
      match spread with
      | None =>
          forEach (fun '(fieldName, _) =>
                     when (negb (Set_has providedFields fieldName))
                       (error location
                          (js "Missing field " ++ fieldName ++ js " in struct "
                           ++ id_name type)))
            (st_fields s)
      | Some _ => ret tt
      end ;;
      ret (struct s)
  | _ =>
      error location (js "Unknown struct type: " ++ id_name type) ;;
      ret UNKNOWN_TYPE
  end.

Definition analyzeOldExpression (location : SourceLocation)
    (expression : Expression) : M Type_ :=
  inContract <- gets inContractContext ;;
  if negb inContract then
    error location (js "old() can only be used in contract annotations") ;;
    ret UNKNOWN_TYPE
  else analyzeExpression expression.

(** [analyzeForallExpression] and [analyzeExistsExpression] differ in the
    word of their messages and the name of their scope. *)
Definition analyzeQuantifier (word : jsstring) (location : SourceLocation)
    (bindings : list ForallBinding) (condition : Expression) : M Type_ :=
  inContract <- gets inContractContext ;;
  when (negb inContract)
    (error location (word ++ js " can only be used in contract annotations")) ;;
  withTable (enterScope word Sblock) ;;
  forEach (fun binding =>
             match binding with
             | mkForallBinding blocation bname range =>
                 bindingType <-
                   match range with
                   | Some range =>
                       rangeType <- analyzeExpression range ;;
                       ret (match rangeType with
                            | array elementType _ => elementType
                            | _ => PRIMITIVES Int
                            end)
                   | None => ret (PRIMITIVES Int)
                   end ;;
                 st_define (id_name bname) bindingType Kvariable blocation
                   None None None
             end) bindings ;;
  condType <- analyzeExpression condition ;;
  when (negb (isBoolean condType))
    (error (expr_location condition)
       (word ++ js " condition must be Bool, got " ++ typeToString condType)) ;;
  withTable exitScope ;;
  ret (PRIMITIVES Bool).

Definition analyzeForallExpression := analyzeQuantifier (js "forall").
Definition analyzeExistsExpression := analyzeQuantifier (js "exists").

Definition analyzeTryExpression (location : SourceLocation)
    (expression : Expression) : M Type_ :=
  innerType <- analyzeExpression expression ;;
  match innerType with
  | result okType _ =>
      (* Check that we're in a function that returns Result *)
      returnType <- gets currentReturnType ;;
      match returnType with
      | Some returnType =>
          returnType <- resolveType returnType ;;
          match returnType with
          | result _ _ => ret tt
          | _ =>
              error location
                (js "Cannot use ? in function that doesn't return Result")
          end
      | None => ret tt
      end ;;
      ret okType
  | _ =>
      error location
        (js "? operator can only be used on Result types, got "
         ++ typeToString innerType) ;;
      ret UNKNOWN_TYPE
  end.

Definition analyzeAssignmentExpression (location : SourceLocation)
    (operator : AssignmentOperator) (lhs rhs : Expression) : M Type_ :=
  leftType <- analyzeExpression lhs ;;
  rightType <- analyzeExpression rhs ;;
  (* Check if target is assignable *)
  match lhs with
  | IdentifierExpr id =>
      symbol <- gets (fun st => lookup (id_name id) (symbolTable st)) ;;
      match symbol with
      | Some symbol =>
          when (negb (sym_isMutable symbol))
            (error location
               (js "Cannot assign to immutable variable " ++ id_name id))
      | None => ret tt
      end
  | _ => ret tt
  end ;;
  match operator with
  | AssignEq =>
      when (negb (isAssignableTo rightType leftType))
        (error location
           (js "Cannot assign " ++ typeToString rightType ++ js " to "
            ++ typeToString leftType))
  | _ =>
      (* Compound assignment: check both sides are compatible *)
      when (negb (isNumeric leftType) || negb (isNumeric rightType))
        (error location (js "Compound assignment requires numeric types"))
  end ;;
  ret leftType.

(** [analyzeExpression], before the result is stored in [typeMap]. *)
Definition analyzeExpression_switch (expr : Expression) : M Type_ :=
  match expr with
  | IdentifierExpr id => analyzeIdentifier id
  | LiteralExpr lit => ret (analyzeLiteral lit)
  | BinaryExpression l op a b => analyzeBinaryExpression l op a b
  | UnaryExpression l op a _ => analyzeUnaryExpression l op a
  | CallExpression l callee args _ => analyzeCallExpression l callee args
  | MemberExpression l object property _ =>
      analyzeMemberExpression l object property
  | IndexExpression l object index => analyzeIndexExpression l object index
  | IfExpressionExpr e => analyzeIfExpression e
  | MatchExpression _ subject arms => analyzeMatchExpression subject arms
  | BlockExpressionExpr b => analyzeBlockExpression b
  | LambdaExpression _ parameters returnType body =>
      analyzeLambdaExpression parameters returnType body
  | ArrayExpression _ elements => analyzeArrayExpression elements
  | TupleExpression _ elements => analyzeTupleExpression elements
  | StructExpression l type fields spread =>
      analyzeStructExpression l type fields spread
  | OldExpression l e => analyzeOldExpression l e
  | ForallExpression l bindings condition =>
      analyzeForallExpression l bindings condition
  | ExistsExpression l bindings condition =>
      analyzeExistsExpression l bindings condition
  | TryExpression l e => analyzeTryExpression l e
  | AssignmentExpression l op a b => analyzeAssignmentExpression l op a b
  | RangeExpression _ _ _ _ | CastExpression _ _ _ => ret UNKNOWN_TYPE
  end.

Definition analyzeExpression_body (expr : Expression) : M Type_ :=
  type <- analyzeExpression_switch expr ;;
  modify (fun st => set_typeMap (typeMap st ++ [(expr, type)]) st) ;;
  ret type.

Definition analyzeStatement_body (stmt : Statement) : M Type_ :=
  match stmt with
  | ExpressionStatement _ expression => analyzeExpression expression
  | ReturnStatement l value => analyzeReturnStatement l value
  | IfStatementStmt s => analyzeIfStatement s
  | WhileStatement _ condition body invariants =>
      analyzeWhileStatement condition body invariants
  | ForStatement _ variable iterable body invariants =>
      analyzeForStatement variable iterable body invariants
  | MatchStatement _ subject arms => analyzeMatchStatement subject arms
  | BlockStatementStmt b => analyzeBlockStatement b
  | FunctionDeclarationStmt d => analyzeFunctionDeclaration d
  | VariableDeclaration l name type initializer isMutable isExported =>
      analyzeVariableDeclaration l name type initializer isMutable isExported
  | StructDeclaration _ name _ _ invariants _ =>
      analyzeStructDeclaration name invariants
  | EnumDeclaration _ name _ _ _ => analyzeEnumDeclaration name
  | TraitDeclaration _ name _ _ methods _ =>
      analyzeTraitDeclaration name methods
  | ImplDeclaration l _ trait_ forType methods _ =>
      analyzeImplDeclaration l trait_ forType methods
  | ContractDeclaration _ _ _ _ _ | IntentDeclaration _ _ _ _ _
  | EffectDeclaration _ _ _ _ _ | CapabilityDeclaration _ _ _ _ =>
      (* Already processed in collect phase *)
      ret VOID_TYPE
  | ImportDeclaration _ _ imports _ => analyzeImportDeclaration imports
  | ExportDeclaration _ declaration => analyzeStatement declaration
  | TypeAliasDeclaration _ _ _ _ _ => ret VOID_TYPE
  end.

End Methods.

Fixpoint analyzeExpression (expr : Expression) {struct expr} : M Type_ :=
  analyzeExpression_body analyzeExpression analyzeIfExpression
    analyzeBlockExpression analyzeMatchArm expr
with analyzeIfExpression (expr : IfExpression) {struct expr} : M Type_ :=
  match expr with
  | mkIfExpression location condition thenBranch elseBranch =>
      analyzeIfExpression_body analyzeExpression analyzeIfExpression
        analyzeBlockExpression location condition thenBranch elseBranch
  end
with analyzeBlockExpression (expr : BlockExpression) {struct expr} : M Type_ :=
  match expr with
  | mkBlockExpression _ statements expression =>
      analyzeBlockExpression_body analyzeExpression analyzeStatement
        statements expression
  end
with analyzeMatchArm (arm : MatchArm) (subjectType : Type_) {struct arm}
    : M Type_ :=
  match arm with
  | mkMatchArm _ pattern guard body =>
      analyzeMatchArm_body analyzeExpression pattern guard body subjectType
  end
with analyzeStatement (stmt : Statement) {struct stmt} : M Type_ :=
  analyzeStatement_body analyzeExpression analyzeMatchArm analyzeStatement
    analyzeIfStatement analyzeBlockStatement analyzeFunctionDeclaration stmt
with analyzeIfStatement (stmt : IfStatement) {struct stmt} : M Type_ :=
  match stmt with
  | mkIfStatement _ condition thenBranch elseBranch =>
      analyzeIfStatement_body analyzeExpression analyzeIfStatement
        analyzeBlockStatement condition thenBranch elseBranch
  end
with analyzeBlockStatement (block : BlockStatement) {struct block} : M Type_ :=
  match block with
  | mkBlockStatement _ statements =>
      analyzeBlockStatement_body analyzeStatement statements
  end
with analyzeFunctionDeclaration (decl : FunctionDeclaration) {struct decl}
    : M Type_ :=
  match decl with
  | mkFunctionDeclaration _ _ _ _ _ annotations body _ _ =>
      analyzeFunctionDeclaration_body analyzeBlockStatement analyzeAnnotation
        decl annotations body
  end
with analyzeAnnotation (ann : Annotation) {struct ann} : M unit :=
  analyzeAnnotation_body analyzeExpression ann.

Definition analyzeProgram (program : Program) : M unit :=
  forEach (fun stmt => analyzeStatement stmt ;; ret tt)
    (prog_statements program).

Record AnalysisResult := mkAnalysisResult {
  ar_errors : list SemanticError;
  ar_warnings : list SemanticError;
  ar_symbolTable : SymbolTable;
  ar_typeMap : list (Expression * Type_)
}.

(** [initBuiltinTypes] registers the primitive types, [Void] and [Never]
    in the global scope. *)
Definition initBuiltinTypes : M unit :=
  forEach (fun p => st_defineType (PrimitiveName_text p) (PRIMITIVES p))
    [Int; Int8; Int16; Int32; Int64; UInt; Float32; Float64; Bool; Char;
     String_] ;;
  st_defineType (js "Void") VOID_TYPE ;;
  st_defineType (js "Never") NEVER_TYPE.

(** The state of a new [SemanticAnalyzer], before [initBuiltinTypes].
    The counter of type variables is module-global; only the equality of
    the identifiers it issues is ever observed, so it starts at 0. *)
Definition new_SemanticAnalyzer : Analyzer :=
  mkAnalyzer [] [] new_SymbolTable [] (js "main") None false 0.

Definition SemanticAnalyzer_analyze (program : Program) : M AnalysisResult :=
  (* First pass: collect all declarations *)
  collectDeclarations program ;;
  (* Second pass: analyze all declarations fully *)
  analyzeProgram program ;;
  st <- get ;;
  ret (mkAnalysisResult (errors st) (warnings st) (symbolTable st) (typeMap st)).

(** The exported function [analyze(program)]. *)
Definition analyze (program : Program) : outcome AnalysisResult :=
  match (initBuiltinTypes ;; SemanticAnalyzer_analyze program)
          new_SemanticAnalyzer with
  | Ok (r, _) => Ok r
  | Untyped => Untyped
  end.

Close Scope analyzer_scope.

End Analyzer.

(* ================================================================== *)
(** * The lowerer ([src/codegen/javascript.ts]) *)
(* ================================================================== *)

Module Codegen.

Import AST.

Inductive Target := javascript | typescript.
Inductive ModuleSystem := esm | commonjs.

Record GeneratorOptions := mkGeneratorOptions {
  target : Target;
  moduleSystem : ModuleSystem;
  runtimeContracts : bool;
  sourceMap : bool;
  minify : bool
}.

Definition DEFAULT_OPTIONS : GeneratorOptions :=
  mkGeneratorOptions javascript esm true false false.

(** The fields of [class JavaScriptGenerator]. *)
Record Generator := mkGenerator {
  output : list jsstring;
  indentLevel : nat;
  options : GeneratorOptions;
  analysisResult : Analyzer.AnalysisResult;
  currentFunction : option FunctionDeclaration
}.

Definition set_output (x : list jsstring) (g : Generator) : Generator :=
  mkGenerator x (indentLevel g) (options g) (analysisResult g)
    (currentFunction g).
Definition set_indentLevel (x : nat) (g : Generator) : Generator :=
  mkGenerator (output g) x (options g) (analysisResult g) (currentFunction g).
Definition set_currentFunction (x : option FunctionDeclaration)
    (g : Generator) : Generator :=
  mkGenerator (output g) (indentLevel g) (options g) (analysisResult g) x.

(** ** The generator monad

    The expressions that the generator reaches through its own fields or
    through a map (the postconditions of [currentFunction] at a return
    statement, the collected [old] expressions) are not sub-trees of the
    node being generated; generating them consumes fuel. *)
Inductive outcome (A : Type) :=
  | Ok (a : A)
  | OutOfFuel.
Arguments Ok {A} a.
Arguments OutOfFuel {A}.

Definition G (A : Type) := Generator -> outcome (A * Generator).

Definition ret {A} (a : A) : G A := fun g => Ok (a, g).

Definition bind {A B} (m : G A) (k : A -> G B) : G B := fun g =>
  match m g with
  | Ok (a, g') => k a g'
  | OutOfFuel => OutOfFuel
  end.

Definition get : G Generator := fun g => Ok (g, g).
Definition gets {A} (f : Generator -> A) : G A := fun g => Ok (f g, g).
Definition modify (f : Generator -> Generator) : G unit :=
  fun g => Ok (tt, f g).
Definition outOfFuel {A} : G A := fun _ => OutOfFuel.

Declare Scope codegen_scope.
Delimit Scope codegen_scope with codegen.
Notation "x <- m ;; k" := (bind m (fun x => k))
  (at level 61, m at next level, right associativity) : codegen_scope.
Notation "m ;; k" := (bind m (fun _ => k))
  (at level 61, right associativity) : codegen_scope.
Open Scope codegen_scope.

Definition when (b : bool) (m : G unit) : G unit := if b then m else ret tt.

Definition mapM {X Y} (f : X -> G Y) : list X -> G (list Y) :=
  fix go (l : list X) : G (list Y) :=
    match l with
    | [] => ret []
    | x :: l' => y <- f x ;; ys <- go l' ;; ret (y :: ys)
    end.

Definition forEach {X} (f : X -> G unit) : list X -> G unit :=
  fix go (l : list X) : G unit :=
    match l with
    | [] => ret tt
    | x :: l' => f x ;; go l'
    end.

(** ** Output *)

Definition emit (line : jsstring) : G unit :=
  modify (fun g =>
    set_output (output g ++ [repeat_str (js "  ") (indentLevel g) ++ line]) g).

Definition indent : G unit :=
  modify (fun g => set_indentLevel (S (indentLevel g)) g).

Definition dedent : G unit :=
  modify (fun g => set_indentLevel (pred (indentLevel g)) g).

Definition q (s : string) : jsstring := [DQUOTE] ++ js s ++ [DQUOTE].

Definition emitRuntimeHelpers : G unit :=
  emit (js "// Intent Runtime Helpers") ;;
  emit (js "const __intent = {") ;;
  indent ;;
  (* Contract assertion *)
  emit (js "assert(condition, message, location) {") ;;
  indent ;;
  emit (js "if (!condition) {") ;;
  indent ;;
  emit (js "throw new Error(`Contract violation at ${location}: ${message}`);") ;;
  dedent ;;
  emit (js "}") ;;
  dedent ;;
  emit (js "},") ;;
  (* Requires (precondition) *)
  emit (js "requires(condition, message, location) {") ;;
  indent ;;
  emit (js "if (!condition) {") ;;
  indent ;;
  emit (js "throw new Error(`Precondition failed at ${location}: ${message}`);") ;;
  dedent ;;
  emit (js "}") ;;
  dedent ;;
  emit (js "},") ;;
  (* Ensures (postcondition) *)
  emit (js "ensures(condition, message, location) {") ;;
  indent ;;
  emit (js "if (!condition) {") ;;
  indent ;;
  emit (js "throw new Error(`Postcondition failed at ${location}: ${message}`);") ;;
  dedent ;;
  emit (js "}") ;;
  dedent ;;
  emit (js "},") ;;
  (* Invariant *)
  emit (js "invariant(condition, message, location) {") ;;
  indent ;;
  emit (js "if (!condition) {") ;;
  indent ;;
  emit (js "throw new Error(`Invariant violated at ${location}: ${message}`);") ;;
  dedent ;;
  emit (js "}") ;;
  dedent ;;
  emit (js "},") ;;
  (* Deep clone for old() *)
  emit (js "clone(obj) {") ;;
  indent ;;
  emit (js "if (obj === null || typeof obj !== " ++ q "object"
        ++ js ") return obj;") ;;
  emit (js "if (Array.isArray(obj)) return obj.map(x => __intent.clone(x));") ;;
  emit (js "const result = {};") ;;
  emit (js "for (const key of Object.keys(obj)) {") ;;
  indent ;;
  emit (js "result[key] = __intent.clone(obj[key]);") ;;
  dedent ;;
  emit (js "}") ;;
  emit (js "return result;") ;;
  dedent ;;
  emit (js "},") ;;
  (* Result type helpers *)
  emit (js "Ok(value) { return { ok: true, value }; },") ;;
  emit (js "Err(error) { return { ok: false, error }; },") ;;
  emit (js "isOk(result) { return result.ok === true; },") ;;
  emit (js "isErr(result) { return result.ok === false; },") ;;
  emit (js "unwrap(result) {") ;;
  indent ;;
  emit (js "if (result.ok) return result.value;") ;;
  emit (js "throw new Error(`Unwrap called on Err: ${result.error}`);") ;;
  dedent ;;
  emit (js "},") ;;
  (* Option type helpers *)
  emit (js "Some(value) { return { some: true, value }; },") ;;
  emit (js "None() { return { some: false }; },") ;;
  emit (js "isSome(opt) { return opt.some === true; },") ;;
  emit (js "isNone(opt) { return opt.some === false; },") ;;
  dedent ;;
  emit (js "};") ;;
  emit [].

(** ** Helpers *)

Definition getRequiresAnnotations (decl : FunctionDeclaration)
    : list Expression :=
  flat_map (fun a => match a with RequiresAnnotation _ c => [c] | _ => [] end)
    (fd_annotations decl).

Definition getEnsuresAnnotations (decl : FunctionDeclaration)
    : list Expression :=
  flat_map (fun a => match a with EnsuresAnnotation _ c => [c] | _ => [] end)
    (fd_annotations decl).

Fixpoint exprToString (expr : Expression) : jsstring :=
  match expr with
  | IdentifierExpr id => id_name id
  | LiteralExpr lit => String_of_value (lit_value lit)
  | MemberExpression _ object property _ =>
      exprToString object ++ js "." ++ id_name property
  | BinaryExpression _ operator lhs rhs =>
      exprToString lhs ++ js " " ++ BinaryOperator_text operator ++ js " "
      ++ exprToString rhs
  | _ => js "<expr>"
  end.

(** The name that stands for [old(expression)]. *)
Definition oldName (expression : Expression) : jsstring :=
  js "__old_" ++ replaceDotsAndBrackets (exprToString expression).

(** [traverseExpression(expr, visitor)]: the nodes on which the visitor
    is called, in order. *)
Fixpoint traverseExpression (expr : Expression) : list Expression :=
  expr ::
  match expr with
  | BinaryExpression _ _ lhs rhs =>
      traverseExpression lhs ++ traverseExpression rhs
  | UnaryExpression _ _ operand _ => traverseExpression operand
  | CallExpression _ callee arguments _ =>
      traverseExpression callee ++ flat_map traverseExpression arguments
  | MemberExpression _ object _ _ => traverseExpression object
  | IndexExpression _ object index =>
      traverseExpression object ++ traverseExpression index
  | OldExpression _ expression => traverseExpression expression
  (* ... other cases *)
  | _ => []
  end.

(** The visitor [findOld] of [collectOldExpressions]. *)
Definition findOld (oldExprs : Types.Map Expression) (expr : Expression)
    : Types.Map Expression :=
  match expr with
  | OldExpression _ expression =>
      Types.Map_set oldExprs (oldName expression) expression
  | _ => oldExprs
  end.

Definition collectOldExpressions (decl : FunctionDeclaration)
    : Types.Map Expression :=
  fold_left (fun oldExprs condition =>
               fold_left findOld (traverseExpression condition) oldExprs)
    (getEnsuresAnnotations decl) [].

Definition hasIOEffect (decl : FunctionDeclaration) : bool :=
  existsb (fun ann =>
             match ann with
             | EffectAnnotation _ effects =>
                 existsb (fun eff =>
                            match eff with
                            | NamedType _ name _ => Js.eqb (id_name name) (js "IO")
                            | _ => false
                            end) effects
             | _ => false
             end) (fd_annotations decl).

Definition typeExprToName (typeExpr : TypeExpression) : jsstring :=
  match typeExpr with
  | NamedType _ name _ => id_name name
  | GenericType _ (NamedType _ name _) _ => id_name name
  | _ => js "Object"
  end.

(** [`${location.line}:${location.column}`] *)
Definition loc_text (l : SourceLocation) : jsstring :=
  of_Z (loc_line l) ++ js ":" ++ of_Z (loc_column l).

(** ** Patterns *)

Fixpoint generatePatternCheck (pattern : Pattern) (subject : jsstring)
    : jsstring :=
  let orTrue (checks : list jsstring) :=
    match join (js " && ") checks with [] => js "true" | s => s end in
  match pattern with
  | WildcardPattern _ => js "true"
  | LiteralPattern _ value =>
      subject ++ js " === " ++ JSON_stringify_value (lit_value value)
  | IdentifierPattern _ _ _ => js "true"
  | TuplePattern _ elements =>
      orTrue
        ((fix each (ps : list Pattern) (i : nat) : list jsstring :=
            match ps with
            | p :: ps' =>
                generatePatternCheck p (subject ++ js "[" ++ of_nat i ++ js "]")
                :: each ps' (S i)
            | [] => []
            end) elements 0)
  | EnumPattern _ _ variant fields =>
      let check :=
        subject ++ js ".__variant === " ++ [DQUOTE] ++ id_name variant
        ++ [DQUOTE] in
      match fields with
      | Some fields =>
          let fieldChecks :=
            (fix each (ps : list Pattern) (i : nat) : list jsstring :=
               match ps with
               | p :: ps' =>
                   generatePatternCheck p
                     (subject ++ js ".__fields[" ++ of_nat i ++ js "]")
                   :: each ps' (S i)
               | [] => []
               end) fields 0 in
          match fieldChecks with
          | [] => check
          | _ => check ++ js " && " ++ join (js " && ") fieldChecks
          end
      | None => check
      end
  | StructPattern _ _ fields _ =>
      orTrue
        ((fix each (fs : list StructPatternField) : list jsstring :=
            match fs with
            | mkStructPatternField _ fname fpattern :: fs' =>
                generatePatternCheck fpattern
                  (subject ++ js "." ++ id_name fname)
                :: each fs'
            | [] => []
            end) fields)
  | RangePattern _ _ _ _ => js "true"
  end.

(** [bindings.filter(Boolean)] then the join, or [null]. *)
Definition joinBindings (bindings : list (option jsstring)) : option jsstring :=
  match flat_map (fun b => match b with
                           | Some (c :: s) => [c :: s]
                           | _ => []
                           end) bindings with
  | [] => None
  | bs => Some (join [LF] bs)
  end.

Fixpoint generatePatternBindings (pattern : Pattern) (subject : jsstring)
    : option jsstring :=
  match pattern with
  | IdentifierPattern _ name _ =>
      Some (js "const " ++ id_name name ++ js " = " ++ subject ++ js ";")
  | TuplePattern _ elements =>
      joinBindings
        ((fix each (ps : list Pattern) (i : nat) : list (option jsstring) :=
            match ps with
            | p :: ps' =>
                generatePatternBindings p
                  (subject ++ js "[" ++ of_nat i ++ js "]")
                :: each ps' (S i)
            | [] => []
            end) elements 0)
  | EnumPattern _ _ _ (Some fields) =>
      joinBindings
        ((fix each (ps : list Pattern) (i : nat) : list (option jsstring) :=
            match ps with
            | p :: ps' =>
                generatePatternBindings p
                  (subject ++ js ".__fields[" ++ of_nat i ++ js "]")
                :: each ps' (S i)
            | [] => []
            end) fields 0)
  | StructPattern _ _ fields _ =>
      joinBindings
        ((fix each (fs : list StructPatternField) : list (option jsstring) :=
            match fs with
            | mkStructPatternField _ fname fpattern :: fs' =>
                generatePatternBindings fpattern
                  (subject ++ js "." ++ id_name fname)
                :: each fs'
            | [] => []
            end) fields)
  | _ => None
  end.

Definition generateLiteral (expr : Literal) : jsstring :=
  match lit_literalKind expr with
  | LKstring | LKchar => JSON_stringify_value (lit_value expr)
  | LKboolean => String_of_value (lit_value expr)
  | LKnil => js "null"
  | LKinteger | LKfloat => String_of_value (lit_value expr)
  end.

Definition generateOldExpression (expression : Expression) : jsstring :=
  (* References a saved value from before the function executed *)
  oldName expression.

(** [if (bindings) this.emit(bindings)] *)
Definition emitBindings (bindings : option jsstring) : G unit :=
  match bindings with
  | Some (c :: s) => emit (c :: s)
  | _ => ret tt
  end.

Definition bindingsText (bindings : option jsstring) : jsstring :=
  match bindings with
  | Some (c :: s) => c :: s
  | _ => []
  end.

(** ** Statements and expressions *)

Section Detached.

(** The generation of an expression that is not a sub-tree of the node at
    hand (see the generator monad above). *)
Variable generateDetached : Expression -> G jsstring.

Section Methods.

Variable generateExpression : Expression -> G jsstring.
Variable generateIfExpression : IfExpression -> G jsstring.
Variable generateBlockExpression : BlockExpression -> G jsstring.
Variable generateStatement : Statement -> G unit.
Variable generateIfStatement : IfStatement -> G unit.
Variable generateFunctionDeclaration : FunctionDeclaration -> G unit.

Definition generateReturnStatement (location : SourceLocation)
    (value : option Expression) : G unit :=
  g <- get ;;
  let plain : G unit :=
    match value with
    | Some value =>
        code <- generateExpression value ;;
        emit (js "return " ++ code ++ js ";")
    | None => emit (js "return;")
    end in
  match currentFunction g, runtimeContracts (options g) with
  | Some f, true =>
      (* Check postconditions before returning *)
      let ensures := getEnsuresAnnotations f in
      match ensures, value with
      | _ :: _, Some value =>
          let resultVar := js "__result" in
          code <- generateExpression value ;;
          emit (js "const " ++ resultVar ++ js " = " ++ code ++ js ";") ;;
          forEach (fun condition =>
                     code <- generateDetached condition ;;
                     let condCode := replaceWord (js "result") resultVar code in
                     let loc := loc_text location in
                     emit (js "__intent.ensures(" ++ condCode ++ js ", "
                           ++ JSON_stringify (exprToString condition)
                           ++ js ", " ++ [DQUOTE] ++ loc ++ [DQUOTE] ++ js ");"))
            ensures ;;
          emit (js "return " ++ resultVar ++ js ";")
      | _, _ => plain
      end
  | _, _ => plain
  end.

Definition generateIfStatement_body (condition : Expression)
    (thenBranch : BlockStatement) (elseBranch : ElseStatement) : G unit :=
  code <- generateExpression condition ;;
  emit (js "if (" ++ code ++ js ") {") ;;
  indent ;;
  forEach generateStatement (block_statements thenBranch) ;;
  dedent ;;
  match elseBranch with
  | ElseIf s =>
      modify (fun g =>
        match rev (output g) with
        | last :: before => set_output (rev before ++ [last ++ js " else"]) g
        | [] => g
        end) ;;
      generateIfStatement s
  | ElseBlock b =>
      emit (js "} else {") ;;
      indent ;;
      forEach generateStatement (block_statements b) ;;
      dedent ;;
      emit (js "}")
  | NoElse => emit (js "}")
  end.

(** The invariant checks at the start of a loop body. *)
Definition generateLoopInvariants (invariants : list Annotation) : G unit :=
  g <- get ;;
  when (runtimeContracts (options g))
    (forEach (fun inv =>
                match inv with
                | InvariantAnnotation location condition =>
                    condCode <- generateExpression condition ;;
                    emit (js "__intent.invariant(" ++ condCode ++ js ", "
                          ++ q "loop invariant" ++ js ", " ++ [DQUOTE]
                          ++ loc_text location ++ [DQUOTE] ++ js ");")
                | _ => ret tt
                end) invariants).

Definition generateWhileStatement (condition : Expression)
    (body : BlockStatement) (invariants : list Annotation) : G unit :=
  code <- generateExpression condition ;;
  emit (js "while (" ++ code ++ js ") {") ;;
  indent ;;
  (* Check loop invariants at start of each iteration *)
  generateLoopInvariants invariants ;;
  forEach generateStatement (block_statements body) ;;
  dedent ;;
  emit (js "}").

Definition generateForStatement (variable : Identifier)
    (iterable : Expression) (body : BlockStatement)
    (invariants : list Annotation) : G unit :=
  code <- generateExpression iterable ;;
  emit (js "for (const " ++ id_name variable ++ js " of " ++ code ++ js ") {") ;;
  indent ;;
  (* Check loop invariants *)
  generateLoopInvariants invariants ;;
  forEach generateStatement (block_statements body) ;;
  dedent ;;
  emit (js "}").

Definition generateMatchStatement (subject : Expression)
    (arms : list MatchArm) : G unit :=
  subject <- generateExpression subject ;;
  let subjectVar := js "__match_subject" in
  emit (js "const " ++ subjectVar ++ js " = " ++ subject ++ js ";") ;;
  emit (js "(() => {") ;;
  indent ;;
  (fix each (arms : list MatchArm) : G unit :=
     match arms with
     | mkMatchArm _ pattern guard body :: rest =>
         let isLast := match rest with [] => true | _ => false end in
         let patternCheck := generatePatternCheck pattern subjectVar in
         let bindings := generatePatternBindings pattern subjectVar in
         (if isLast && match pattern with WildcardPattern _ => true
                                        | _ => false end
          then
            (* Default case *)
            emitBindings bindings ;;
            code <- generateExpression body ;;
            emit (js "return " ++ code ++ js ";")
          else
            condition <-
              match guard with
              | Some guard =>
                  code <- generateExpression guard ;;
                  ret (patternCheck ++ js " && (" ++ code ++ js ")")
              | None => ret patternCheck
              end ;;
            emit (js "if (" ++ condition ++ js ") {") ;;
            indent ;;
            emitBindings bindings ;;
            code <- generateExpression body ;;
            emit (js "return " ++ code ++ js ";") ;;
            dedent ;;
            emit (js "}")) ;;
         each rest
     | [] => ret tt
     end) arms ;;
  emit (js "throw new Error(" ++ q "Match not exhaustive" ++ js ");") ;;
  dedent ;;
  emit (js "})();").

Definition generateBlockStatement (block : BlockStatement) : G unit :=
  emit (js "{") ;;
  indent ;;
  forEach generateStatement (block_statements block) ;;
  dedent ;;
  emit (js "}").

Definition generateFunctionDeclaration_body (decl : FunctionDeclaration)
    (annotations : list Annotation) (body : option BlockStatement) : G unit :=
  modify (set_currentFunction (Some decl)) ;;
  let params :=
    join (js ", ") (map (fun p => id_name (param_name p)) (fd_parameters decl)) in
  let prefix := if fd_isExported decl then js "export " else [] in
  let asyncPrefix := if hasIOEffect decl then js "async " else [] in
  emit (prefix ++ asyncPrefix ++ js "function " ++ id_name (fd_name decl)
        ++ js "(" ++ params ++ js ") {") ;;
  indent ;;
  (* Generate precondition checks *)
  g <- get ;;
  when (runtimeContracts (options g))
    (forEach (fun ann =>
                match ann with
                | RequiresAnnotation _ condition =>
                    condCode <- generateExpression condition ;;
                    emit (js "__intent.requires(" ++ condCode ++ js ", "
                          ++ JSON_stringify (exprToString condition)
                          ++ js ", " ++ [DQUOTE]
                          ++ loc_text (fd_location decl) ++ [DQUOTE]
                          ++ js ");")
                | _ => ret tt
                end) annotations ;;
     (* Save old values for postconditions *)
     forEach (fun '(name, expr) =>
                code <- generateDetached expr ;;
                emit (js "const " ++ name ++ js " = __intent.clone(" ++ code
                      ++ js ");"))
       (collectOldExpressions decl)) ;;
  (* Generate body *)
  match body with
  | Some body => forEach generateStatement (block_statements body)
  | None => ret tt
  end ;;
  dedent ;;
  emit (js "}") ;;
  modify (set_currentFunction None).

Definition generateVariableDeclaration (name : Identifier)
    (initializer : option Expression) (isMutable isExported : bool) : G unit :=
  let keyword := if isMutable then js "let" else js "const" in
  let prefix := if isExported then js "export " else [] in
  match initializer with
  | Some initializer =>
      code <- generateExpression initializer ;;
      emit (prefix ++ keyword ++ js " " ++ id_name name ++ js " = " ++ code
            ++ js ";")
  | None => emit (prefix ++ keyword ++ js " " ++ id_name name ++ js ";")
  end.

Definition generateStructDeclaration (name : Identifier)
    (fields : list StructField) (invariants : list Annotation)
    (isExported : bool) : G unit :=
  let prefix := if isExported then js "export " else [] in
  let className := id_name name in
  emit (prefix ++ js "class " ++ className ++ js " {") ;;
  indent ;;
  (* Constructor *)
  let params := join (js ", ") (map (fun f => id_name (sf_name f)) fields) in
  emit (js "constructor(" ++ params ++ js ") {") ;;
  indent ;;
  forEach (fun field =>
             emit (js "this." ++ id_name (sf_name field) ++ js " = "
                   ++ id_name (sf_name field) ++ js ";")) fields ;;
  (* Check invariants in constructor *)
  g <- get ;;
  when (runtimeContracts (options g)
        && match invariants with [] => false | _ => true end)
    (emit [] ;;
     forEach (fun inv =>
                match inv with
                | InvariantAnnotation location condition =>
                    code <- generateExpression condition ;;
                    let condCode :=
                      replaceWords
                        (fun word =>
                           if existsb (fun f => Js.eqb (id_name (sf_name f)) word)
                                fields
                           then js "this." ++ word else word) code in
                    emit (js "__intent.invariant(" ++ condCode ++ js ", "
                          ++ q "struct invariant" ++ js ", " ++ [DQUOTE]
                          ++ loc_text location ++ [DQUOTE] ++ js ");")
                | _ => ret tt
                end) invariants) ;;
  dedent ;;
  emit (js "}") ;;
  dedent ;;
  emit (js "}").

Definition generateEnumDeclaration (name : Identifier)
    (variants : list EnumVariant) (isExported : bool) : G unit :=
  let prefix := if isExported then js "export " else [] in
  let enumName := id_name name in
  emit (prefix ++ js "const " ++ enumName ++ js " = {") ;;
  indent ;;
  forEach (fun variant =>
             let vname := id_name (ev_name variant) in
             match ev_fields variant with
             | Some (f :: fs) =>
                 (* Variant with fields *)
                 let params :=
                   join (js ", ")
                     (map (fun i => js "_" ++ of_nat i)
                        (seq 0 (List.length (f :: fs)))) in
                 emit (vname ++ js "(" ++ params ++ js ") {") ;;
                 indent ;;
                 emit (js "return { __variant: " ++ [DQUOTE] ++ vname
                       ++ [DQUOTE] ++ js ", __fields: [" ++ params ++ js "] };") ;;
                 dedent ;;
                 emit (js "},")
             | _ =>
                 (* Unit variant *)
                 emit (vname ++ js ": { __variant: " ++ [DQUOTE] ++ vname
                       ++ [DQUOTE] ++ js " },")
             end) variants ;;
  dedent ;;
  emit (js "};").

Definition generateTraitDeclaration (name : Identifier) (isExported : bool)
    : G unit :=
  (* TypeScript interface generation *)
  let prefix := if isExported then js "export " else [] in
  emit (prefix ++ js "// interface " ++ id_name name).

Definition generateImplDeclaration (forType : TypeExpression)
    (methods : list FunctionDeclaration) : G unit :=
  (* Add methods to prototype or as static methods *)
  let typeName := typeExprToName forType in
  forEach (fun method =>
             match method with
             | mkFunctionDeclaration _ mname _ parameters _ _ body _ _ =>
                 let params :=
                   join (js ", ")
                     (map (fun p => id_name (param_name p)) parameters) in
                 emit (typeName ++ js ".prototype." ++ id_name mname
                       ++ js " = function(" ++ params ++ js ") {") ;;
                 indent ;;
                 match body with
                 | Some body =>
                     forEach generateStatement (block_statements body)
                 | None => ret tt
                 end ;;
                 dedent ;;
                 emit (js "};")
             end) methods.

Definition generateEffectDeclaration (name : Identifier)
    (methods : list FunctionDeclaration) (isExported : bool) : G unit :=
  let prefix := if isExported then js "export " else [] in
  let effectName := id_name name in
  emit (prefix ++ js "const " ++ effectName ++ js " = {") ;;
  indent ;;
  forEach (fun method =>
             let params :=
               join (js ", ")
                 (map (fun p => id_name (param_name p)) (fd_parameters method)) in
             let mname := id_name (fd_name method) in
             let handler :=
               emit (mname ++ js "(" ++ params ++ js ") { /* Effect handler */ },") in
             if Js.eqb effectName (js "IO") then
               (* Special handling for IO effect *)
               if Js.eqb mname (js "read") then
                 emit (js "async read() { return await require('readline').question(''); },")
               else if Js.eqb mname (js "write") then
                 emit (js "write(s) { console.log(s); },")
               else handler
             else handler) methods ;;
  dedent ;;
  emit (js "};").

(** [decl.path[decl.path.length - 1]] in a template: the text
    undefined when the path is empty. *)
Definition lastSegment (path : list jsstring) : jsstring :=
  match rev path with
  | s :: _ => s
  | [] => js "undefined"
  end.

Definition generateImportDeclaration (path : list jsstring)
    (imports : list ImportSpecifier) (isWildcard : bool) : G unit :=
  let pathText := join (js "/") path in
  g <- get ;;
  match moduleSystem (options g) with
  | esm =>
      if isWildcard then
        emit (js "import * as " ++ lastSegment path ++ js " from './"
              ++ pathText ++ js ".js';")
      else
        let imports :=
          join (js ", ")
            (map (fun i =>
                    match AST.is_alias i with
                    | Some a =>
                        id_name (AST.is_name i) ++ js " as " ++ id_name a
                    | None => id_name (AST.is_name i)
                    end) imports) in
        emit (js "import { " ++ imports ++ js " } from './" ++ pathText
              ++ js ".js';")
  | commonjs =>
      if isWildcard then
        emit (js "const " ++ lastSegment path ++ js " = require('./"
              ++ pathText ++ js "');")
      else
        let imports :=
          join (js ", ")
            (map (fun i =>
                    match AST.is_alias i with
                    | Some a =>
                        id_name (AST.is_name i) ++ js ": " ++ id_name a
                    | None => id_name (AST.is_name i)
                    end) imports) in
        emit (js "const { " ++ imports ++ js " } = require('./" ++ pathText
              ++ js "');")
  end.

Definition generateStatement_body (stmt : Statement) : G unit :=
  match stmt with
  | ExpressionStatement _ expression =>
      code <- generateExpression expression ;;
      emit (code ++ js ";")
  | ReturnStatement l value => generateReturnStatement l value
  | IfStatementStmt s => generateIfStatement s
  | WhileStatement _ condition body invariants =>
      generateWhileStatement condition body invariants
  | ForStatement _ variable iterable body invariants =>
      generateForStatement variable iterable body invariants
  | MatchStatement _ subject arms => generateMatchStatement subject arms
  | BlockStatementStmt b => generateBlockStatement b
  | FunctionDeclarationStmt d => generateFunctionDeclaration d
  | VariableDeclaration _ name _ initializer isMutable isExported =>
      generateVariableDeclaration name initializer isMutable isExported
  | StructDeclaration _ name _ fields invariants isExported =>
      generateStructDeclaration name fields invariants isExported
  | EnumDeclaration _ name _ variants isExported =>
      generateEnumDeclaration name variants isExported
  | TraitDeclaration _ name _ _ _ isExported =>
      (* Traits become interfaces in TypeScript, or are omitted in JS *)
      g <- get ;;
      match target (options g) with
      | typescript => generateTraitDeclaration name isExported
      | javascript => ret tt
      end
  | ImplDeclaration _ _ _ forType methods _ =>
      generateImplDeclaration forType methods
  | EffectDeclaration _ name _ methods isExported =>
      generateEffectDeclaration name methods isExported
  | ImportDeclaration _ path imports isWildcard =>
      generateImportDeclaration path imports isWildcard
  | ExportDeclaration _ declaration =>
      (* The export keyword is added by the individual declaration
         generators *)
      generateStatement declaration
  | ContractDeclaration _ _ _ _ _ | IntentDeclaration _ _ _ _ _
  | CapabilityDeclaration _ _ _ _ =>
      (* These are compile-time constructs, no runtime code needed *)
      ret tt
  | TypeAliasDeclaration _ _ _ _ _ => ret tt
  end.

Definition generateBinaryExpression (operator : BinaryOperator)
    (lhs rhs : Expression) : G jsstring :=
  l <- generateExpression lhs ;;
  r <- generateExpression rhs ;;
  match operator with
  | OpPow => ret (js "Math.pow(" ++ l ++ js ", " ++ r ++ js ")")
  | _ =>
      ret (js "(" ++ l ++ js " " ++ BinaryOperator_text operator ++ js " " ++ r
           ++ js ")")
  end.

Definition generateUnaryExpression (operator : UnaryOperator)
    (operand : Expression) : G jsstring :=
  operand <- generateExpression operand ;;
  match operator with
  | OpRef | OpDeref =>
      (* Reference/dereference - in JS, just return the value *)
      ret operand
  | _ => ret (UnaryOperator_text operator ++ operand)
  end.

Definition generateCallExpression (callee : Expression)
    (arguments : list Expression) : G jsstring :=
  callee <- generateExpression callee ;;
  args <- mapM generateExpression arguments ;;
  ret (callee ++ js "(" ++ join (js ", ") args ++ js ")").

Definition generateMemberExpression (object : Expression)
    (property : Identifier) : G jsstring :=
  object <- generateExpression object ;;
  ret (object ++ js "." ++ id_name property).

Definition generateIfExpression_body (condition : Expression)
    (thenBranch : BlockExpression) (elseBranch : ElseExpression)
    : G jsstring :=
  cond <- generateExpression condition ;;
  then_ <- generateBlockExpression thenBranch ;;
  match elseBranch with
  | ElseIfExpression e =>
      els <- generateIfExpression e ;;
      ret (js "(" ++ cond ++ js " ? " ++ then_ ++ js " : " ++ els ++ js ")")
  | ElseBlockExpression b =>
      els <- generateBlockExpression b ;;
      ret (js "(" ++ cond ++ js " ? " ++ then_ ++ js " : " ++ els ++ js ")")
  | NoElseExpression =>
      ret (js "(" ++ cond ++ js " ? " ++ then_ ++ js " : undefined)")
  end.

Definition generateMatchExpression (subject : Expression)
    (arms : list MatchArm) : G jsstring :=
  (* Generate as IIFE with switch-like logic *)
  subject <- generateExpression subject ;;
  let subjectVar := js "__m" in
  arms <-
    mapM (fun arm =>
            match arm with
            | mkMatchArm _ pattern guard body =>
                let pattern_ := generatePatternCheck pattern subjectVar in
                let bindings := generatePatternBindings pattern subjectVar in
                body <- generateExpression body ;;
                match guard with
                | Some guard =>
                    guard <- generateExpression guard ;;
                    ret (js "if (" ++ pattern_ ++ js " && " ++ guard ++ js ") { "
                         ++ bindingsText bindings ++ js " return " ++ body
                         ++ js "; }")
                | None =>
                    ret (js "if (" ++ pattern_ ++ js ") { "
                         ++ bindingsText bindings ++ js " return " ++ body
                         ++ js "; }")
                end
            end) arms ;;
  ret (js "((__m) => { " ++ join (js " ") arms ++ js " throw new Error("
       ++ q "Match not exhaustive" ++ js "); })(" ++ subject ++ js ")").

Definition generateBlockExpression_body (statements : list Statement)
    (expression : option Expression) : G jsstring :=
  match statements, expression with
  | [], Some expression => generateExpression expression
  | _, _ =>
      (* Generate as IIFE *)
      stmts <-
        mapM (fun s =>
                (* Capture output temporarily *)
                savedOutput <- gets output ;;
                modify (set_output []) ;;
                generateStatement s ;;
                captured <- gets output ;;
                modify (set_output savedOutput) ;;
                ret (join [LF] captured)) statements ;;
      let stmts := join (js " ") stmts in
      match expression with
      | Some expression =>
          result <- generateExpression expression ;;
          ret (js "(() => { " ++ stmts ++ js " return " ++ result ++ js "; })()")
      | None => ret (js "(() => { " ++ stmts ++ js " })()")
      end
  end.

Definition generateLambdaExpression (parameters : list FunctionParameter)
    (body : Expression) : G jsstring :=
  let params :=
    join (js ", ") (map (fun p => id_name (param_name p)) parameters) in
  body <- generateExpression body ;;
  ret (js "(" ++ params ++ js ") => " ++ body).

Definition generateStructExpression (type : Identifier)
    (fields : list StructExpressionField) (spread : option Expression)
    : G jsstring :=
  named <-
    mapM (fun f =>
            match f with
            | mkStructExpressionField _ fname fvalue =>
                code <- generateExpression fvalue ;;
                ret (id_name fname ++ js ": " ++ code)
            end) fields ;;
  match spread with
  | Some spread =>
      code <- generateExpression spread ;;
      ret (js "{ ..." ++ code ++ js ", " ++ join (js ", ") named ++ js " }")
  | None =>
      values <-
        mapM (fun f =>
                match f with
                | mkStructExpressionField _ _ fvalue => generateExpression fvalue
                end) fields ;;
      ret (js "new " ++ id_name type ++ js "(" ++ join (js ", ") values
           ++ js ")")
  end.

(** [generateForallExpression] and [generateExistsExpression] differ in
    the array method and in the text of the fallback. *)
Definition generateQuantifier (method fallback : jsstring)
    (bindings : list ForallBinding) (condition : Expression) : G jsstring :=
  condition <- generateExpression condition ;;
  match bindings with
  | [mkForallBinding _ bname (Some range)] =>
      range <- generateExpression range ;;
      ret (range ++ js "." ++ method ++ js "(" ++ id_name bname ++ js " => "
           ++ condition ++ js ")")
  | _ => ret fallback
  end.

Definition generateForallExpression :=
  generateQuantifier (js "every") (js "/* forall */ true").
Definition generateExistsExpression :=
  generateQuantifier (js "some") (js "/* exists */ false").

Definition generateTryExpression (expression : Expression) : G jsstring :=
  inner <- generateExpression expression ;;
  ret (js "__intent.unwrap(" ++ inner ++ js ")").

Definition generateRangeExpression (start end_ : option Expression)
    (isInclusive : bool) : G jsstring :=
  (* Generate array for range *)
  match start, end_ with
  | Some start, Some end_ =>
      start <- generateExpression start ;;
      end_ <- generateExpression end_ ;;
      if isInclusive then
        ret (js "Array.from({ length: " ++ end_ ++ js " - " ++ start
             ++ js " + 1 }, (_, i) => " ++ start ++ js " + i)")
      else
        ret (js "Array.from({ length: " ++ end_ ++ js " - " ++ start
             ++ js " }, (_, i) => " ++ start ++ js " + i)")
  | _, _ => ret (js "[]")
  end.

Definition generateExpression_body (expr : Expression) : G jsstring :=
  match expr with
  | IdentifierExpr id => ret (id_name id)
  | LiteralExpr lit => ret (generateLiteral lit)
  | BinaryExpression _ op a b => generateBinaryExpression op a b
  | UnaryExpression _ op a _ => generateUnaryExpression op a
  | CallExpression _ callee args _ => generateCallExpression callee args
  | MemberExpression _ object property _ =>
      generateMemberExpression object property
  | IndexExpression _ object index =>
      object <- generateExpression object ;;
      index <- generateExpression index ;;
      ret (object ++ js "[" ++ index ++ js "]")
  | IfExpressionExpr e => generateIfExpression e
  | MatchExpression _ subject arms => generateMatchExpression subject arms
  | BlockExpressionExpr b => generateBlockExpression b
  | LambdaExpression _ parameters _ body =>
      generateLambdaExpression parameters body
  | ArrayExpression _ elements | TupleExpression _ elements =>
      codes <- mapM generateExpression elements ;;
      ret (js "[" ++ join (js ", ") codes ++ js "]")
  | StructExpression _ type fields spread =>
      generateStructExpression type fields spread
  | OldExpression _ expression => ret (generateOldExpression expression)
  | ForallExpression _ bindings condition =>
      generateForallExpression bindings condition
  | ExistsExpression _ bindings condition =>
      generateExistsExpression bindings condition
  | TryExpression _ expression => generateTryExpression expression
  | AssignmentExpression _ op a b =>
      l <- generateExpression a ;;
      r <- generateExpression b ;;
      ret (l ++ js " " ++ AssignmentOperator_text op ++ js " " ++ r)
  | RangeExpression _ start end_ isInclusive =>
      generateRangeExpression start end_ isInclusive
  | CastExpression _ _ _ => ret (js "/* unsupported expression */")
  end.

End Methods.

Fixpoint generateExpression (expr : Expression) {struct expr} : G jsstring :=
  generateExpression_body generateExpression generateIfExpression
    generateBlockExpression expr
with generateIfExpression (expr : IfExpression) {struct expr} : G jsstring :=
  match expr with
  | mkIfExpression _ condition thenBranch elseBranch =>
      generateIfExpression_body generateExpression generateIfExpression
        generateBlockExpression condition thenBranch elseBranch
  end
with generateBlockExpression (expr : BlockExpression) {struct expr}
    : G jsstring :=
  match expr with
  | mkBlockExpression _ statements expression =>
      generateBlockExpression_body generateExpression generateStatement
        statements expression
  end
with generateStatement (stmt : Statement) {struct stmt} : G unit :=
  generateStatement_body generateExpression generateStatement
    generateIfStatement generateFunctionDeclaration stmt
with generateIfStatement (stmt : IfStatement) {struct stmt} : G unit :=
  match stmt with
  | mkIfStatement _ condition thenBranch elseBranch =>
      generateIfStatement_body generateExpression generateStatement
        generateIfStatement condition thenBranch elseBranch
  end
with generateFunctionDeclaration (decl : FunctionDeclaration) {struct decl}
    : G unit :=
  match decl with
  | mkFunctionDeclaration _ _ _ _ _ annotations body _ _ =>
      generateFunctionDeclaration_body generateExpression generateStatement
        decl annotations body
  end.

End Detached.

(** [fuel] bounds how deep the generation of detached expressions
    nests. *)
Fixpoint generateDetached (fuel : nat) (expr : Expression) : G jsstring :=
  match fuel with
  | O => outOfFuel
  | S fuel' => generateExpression (generateDetached fuel') expr
  end.

Definition JavaScriptGenerator_generate (fuel : nat) (program : Program)
    : G jsstring :=
  modify (set_output []) ;;
  (* Add runtime helpers if contracts are enabled *)
  g <- get ;;
  when (runtimeContracts (options g)) emitRuntimeHelpers ;;
  (* Generate code for each statement *)
  forEach (fun stmt =>
             generateStatement (generateDetached fuel) stmt ;;
             emit []) (prog_statements program) ;;
  lines <- gets output ;;
  ret (join [LF] lines).

Definition new_JavaScriptGenerator (analysisResult : Analyzer.AnalysisResult)
    (options : GeneratorOptions) : Generator :=
  mkGenerator [] 0 options analysisResult None.

(** The exported function [generateJavaScript]. *)
Definition generateJavaScript (fuel : nat) (program : Program)
    (analysisResult : Analyzer.AnalysisResult) (options : GeneratorOptions)
    : outcome jsstring :=
  match JavaScriptGenerator_generate fuel program
          (new_JavaScriptGenerator analysisResult options) with
  | Ok (text, _) => Ok text
  | OutOfFuel => OutOfFuel
  end.

Close Scope codegen_scope.

End Codegen.

(* ================================================================== *)
(** * The entry points of the parser ([src/parser/parser.ts]) *)
(* ================================================================== *)

(** How a call ends: it returns, it raises an exception, or the model
    does not determine it (a loop ran out of fuel, or the execution left
    the statically typed fragment). *)
Inductive run (A : Type) :=
  | Returns (a : A)
  | Throws (message : jsstring)
  | Undetermined.
Arguments Returns {A} a.
Arguments Throws {A} message.
Arguments Undetermined {A}.

Module Parser.

Import AST.

Record ParseError := mkParseError {
  pe_message : jsstring;
  pe_location : SourceLocation;
  pe_token : Token
}.

(** The fields of [class Parser]. *)
Record Parser := mkParser {
  tokens : list Token;
  current : nat;
  errors : list ParseError
}.

(** The constructor filters out invalid tokens. *)
Definition new_Parser (tokens : list Token) : Parser :=
  mkParser
    (filter (fun t => negb (TokenType_eqb (tok_type t) INVALID)) tokens) 0 [].

(** [this.peek()]; [None] when the index is out of range, where the
    access to [.type] raises a TypeError. *)
Definition peek (p : Parser) : option Token := nth_error (tokens p) (current p).

Definition isAtEnd (p : Parser) : option bool :=
  option_map (fun t => TokenType_eqb (tok_type t) EOF) (peek p).

Definition previous (p : Parser) : option Token :=
  match current p with
  | O => None
  | S n => nth_error (tokens p) n
  end.

Definition advance (p : Parser) : option Parser :=
  match isAtEnd p with
  | Some false => Some (mkParser (tokens p) (S (current p)) (errors p))
  | Some true => Some p
  | None => None
  end.

Definition startsDeclaration (t : TokenType) : bool :=
  match t with
  | FN | LET | STRUCT | ENUM | TRAIT | IMPL | CONTRACT | INTENT | EFFECT
  | IMPORT | EXPORT | IF | WHILE | FOR | RETURN => true
  | _ => false
  end.

(** The loop of [synchronize]; [None] for a TypeError.  Every iteration
    moves the cursor, so the tokens that remain bound the iterations and
    the fuel does not run out. *)
Fixpoint synchronize_loop (fuel : nat) (p : Parser) : option Parser :=
  match isAtEnd p with
  | None => None
  | Some true => Some p
  | Some false =>
      match previous p, peek p with
      | Some prev, Some next =>
          if TokenType_eqb (tok_type prev) SEMICOLON then Some p
          else if startsDeclaration (tok_type next) then Some p
          else
            match fuel, advance p with
            | S fuel', Some p' => synchronize_loop fuel' p'
            | _, _ => None
            end
      | _, _ => None
      end
  end.

Definition synchronize (p : Parser) : option Parser :=
  match advance p with
  | Some p' => synchronize_loop (List.length (tokens p') - current p') p'
  | None => None
  end.

(** How a call of a grammar production ends. *)
Inductive production (A : Type) :=
  | Parsed (a : A) (p : Parser)
  | Failed (p : Parser)            (* an exception, caught by [parse] *)
  | Diverges.
Arguments Parsed {A} a p.
Arguments Failed {A} p.
Arguments Diverges {A}.

Section Grammar.

(** The grammar productions below [declaration] are not part of the
    model: [declaration] is a parameter. *)
Variable declaration : Parser -> production (option Statement).

Fixpoint parse_loop (fuel : nat) (statements : list Statement) (p : Parser)
    : run (list Statement * Parser) :=
  match isAtEnd p with
  | None => Throws (js "Cannot read properties of undefined (reading 'type')")
  | Some true => Returns (statements, p)
  | Some false =>
      match fuel with
      | O => Undetermined
      | S fuel' =>
          match declaration p with
          | Parsed (Some stmt) p' => parse_loop fuel' (statements ++ [stmt]) p'
          | Parsed None p' => parse_loop fuel' statements p'
          | Failed p' =>
              match synchronize p' with
              | Some p'' => parse_loop fuel' statements p''
              | None =>
                  Throws (js "Cannot read properties of undefined (reading 'type')")
              end
          | Diverges => Undetermined
          end
      end
  end.

Definition stmt_location (s : Statement) : SourceLocation :=
  match s with
  | ExpressionStatement l _ | ReturnStatement l _
  | WhileStatement l _ _ _ | ForStatement l _ _ _ _ | MatchStatement l _ _
  | VariableDeclaration l _ _ _ _ _ | TypeAliasDeclaration l _ _ _ _
  | StructDeclaration l _ _ _ _ _ | EnumDeclaration l _ _ _ _
  | TraitDeclaration l _ _ _ _ _ | ImplDeclaration l _ _ _ _ _
  | ContractDeclaration l _ _ _ _ | IntentDeclaration l _ _ _ _
  | EffectDeclaration l _ _ _ _ | CapabilityDeclaration l _ _ _
  | ImportDeclaration l _ _ _ | ExportDeclaration l _ => l
  | IfStatementStmt (mkIfStatement l _ _ _) => l
  | BlockStatementStmt (mkBlockStatement l _) => l
  | FunctionDeclarationStmt d => fd_location d
  end.

Definition Parser_parse (fuel : nat) (p : Parser)
    : run (Program * list ParseError) :=
  match parse_loop fuel [] p with
  | Returns (statements, p') =>
      Returns
        ({| prog_statements := statements;
            prog_location :=
              match statements with
              | s :: _ => stmt_location s
              | [] => mkLocation 1 1 0 0 None
              end |},
         errors p')
  | Throws m => Throws m
  | Undetermined => Undetermined
  end.

(** The exported function [parse(tokens)]. *)
Definition parse (fuel : nat) (tokens : list Token)
    : run (Program * list ParseError) :=
  Parser_parse fuel (new_Parser tokens).

End Grammar.

End Parser.

(* ================================================================== *)
(** * The compiler entry point ([src/index.ts]) *)
(* ================================================================== *)

Module Compiler.

Import AST.

Record CompilerOptions := mkCompilerOptions {
  target : Codegen.Target;
  moduleSystem : Codegen.ModuleSystem;
  runtimeContracts : bool;
  verifyLevel : VerifyLevel;
  sourceMap : bool;
  minify : bool;
  stopOnFirstError : bool
}.

Definition DEFAULT_OPTIONS : CompilerOptions :=
  mkCompilerOptions Codegen.javascript Codegen.esm true runtime false false
    false.

Inductive Phase := lexer | parser | analyzer | codegen.

Record CompilerError := mkCompilerError {
  phase : Phase;
  message : jsstring;
  file : option jsstring;
  line : Z;
  column : Z;
  severity : Analyzer.Severity
}.

Record CompilationResult := mkCompilationResult {
  success : bool;
  output : option jsstring;
  errors : list CompilerError;
  warnings : list CompilerError;
  ast : option Program;
  tokens : option (list Token);
  analysisResult : option Analyzer.AnalysisResult
}.

Definition lexerError (err : Lexer.LexerError) : CompilerError :=
  {| phase := lexer; message := Lexer.err_message err;
     file := loc_file (Lexer.err_location err);
     line := loc_line (Lexer.err_location err);
     column := loc_column (Lexer.err_location err);
     severity := Analyzer.Serror |}.

Definition parserError (err : Parser.ParseError) : CompilerError :=
  {| phase := parser; message := Parser.pe_message err;
     file := loc_file (Parser.pe_location err);
     line := loc_line (Parser.pe_location err);
     column := loc_column (Parser.pe_location err);
     severity := Analyzer.Serror |}.

Definition analyzerError (err : Analyzer.SemanticError) : CompilerError :=
  {| phase := analyzer; message := Analyzer.se_message err;
     file := loc_file (Analyzer.se_location err);
     line := loc_line (Analyzer.se_location err);
     column := loc_column (Analyzer.se_location err);
     severity := Analyzer.se_severity err |}.

Definition analyzerWarning (warn : Analyzer.SemanticError) : CompilerError :=
  {| phase := analyzer; message := Analyzer.se_message warn;
     file := loc_file (Analyzer.se_location warn);
     line := loc_line (Analyzer.se_location warn);
     column := loc_column (Analyzer.se_location warn);
     severity := Analyzer.Swarning |}.

Definition codegenError (message : jsstring) : CompilerError :=
  {| phase := codegen; message := message; file := None; line := 0;
     column := 0; severity := Analyzer.Serror |}.

(** The options that [compile] hands to the generator. *)
Definition generatorOptions (options : CompilerOptions)
    : Codegen.GeneratorOptions :=
  {| Codegen.target := target options;
     Codegen.moduleSystem := moduleSystem options;
     Codegen.runtimeContracts := runtimeContracts options;
     Codegen.sourceMap := sourceMap options;
     Codegen.minify := minify options |}.

Definition nonEmpty {A} (l : list A) : bool :=
  match l with [] => false | _ => true end.

Definition isEmpty {A} (l : list A) : bool :=
  match l with [] => true | _ => false end.

Section Pipeline.

(** The four phases that [compile] composes. *)
Variable tokenize :
  jsstring -> option jsstring -> run (list Token * list Lexer.LexerError).
Variable parse : list Token -> run (Program * list Parser.ParseError).
Variable analyze : Program -> run Analyzer.AnalysisResult.
Variable generateJavaScript :
  Program -> Analyzer.AnalysisResult -> Codegen.GeneratorOptions -> run jsstring.

(** [Compiler.compile(source, filename)] *)
Definition compile_with (options : CompilerOptions) (source : jsstring)
    (filename : option jsstring) : run CompilationResult :=
  (* Phase 1: Lexical Analysis *)
  match tokenize source filename with
  | Throws m => Throws m
  | Undetermined => Undetermined
  | Returns (tokens, lexerErrors) =>
  let errors := map lexerError lexerErrors in
  let warnings := [] in
  if stopOnFirstError options && nonEmpty errors then
    Returns (mkCompilationResult false None errors warnings None (Some tokens)
               None)
  else
  (* Phase 2: Parsing *)
  match parse tokens with
  | Throws m => Throws m
  | Undetermined => Undetermined
  | Returns (ast, parseErrors) =>
  let errors := errors ++ map parserError parseErrors in
  if stopOnFirstError options && nonEmpty errors then
    Returns (mkCompilationResult false None errors warnings (Some ast)
               (Some tokens) None)
  else
  (* Phase 3: Semantic Analysis *)
  match analyze ast with
  | Throws m => Throws m
  | Undetermined => Undetermined
  | Returns analysisResult =>
  let errors :=
    errors ++ map analyzerError (Analyzer.ar_errors analysisResult) in
  let warnings :=
    warnings ++ map analyzerWarning (Analyzer.ar_warnings analysisResult) in
  if stopOnFirstError options && nonEmpty errors then
    Returns (mkCompilationResult false None errors warnings (Some ast)
               (Some tokens) (Some analysisResult))
  else
  (* Phase 4: Code Generation *)
  match generateJavaScript ast analysisResult (generatorOptions options) with
  | Returns output =>
      Returns (mkCompilationResult (isEmpty errors) (Some output) errors
                 warnings (Some ast) (Some tokens) (Some analysisResult))
  | Throws m =>
      Returns (mkCompilationResult false None (errors ++ [codegenError m])
                 warnings (Some ast) (Some tokens) (Some analysisResult))
  | Undetermined => Undetermined
  end end end end.

(** [Compiler.parseOnly(source, filename)]: the tree and the errors of
    the first two phases. *)
Definition parseOnly_with (source : jsstring) (filename : option jsstring)
    : run (Program * list CompilerError) :=
  match tokenize source filename with
  | Throws m => Throws m
  | Undetermined => Undetermined
  | Returns (tokens, lexerErrors) =>
  let errors := map lexerError lexerErrors in
  match parse tokens with
  | Throws m => Throws m
  | Undetermined => Undetermined
  | Returns (ast, parseErrors) =>
  let errors := errors ++ map parserError parseErrors in
  Returns (ast, errors)
  end end.


End Pipeline.

(** The phases of the model. *)
Definition tokenize (source : jsstring) (file : option jsstring)
    : run (list Token * list Lexer.LexerError) :=
  match Lexer.tokenize source file with
  | Lexer.Ok r => Returns r
  | Lexer.Throw (Lexer.RangeError x) =>
      Throws (js "Invalid code point "
              ++ match x with Some z => of_Z z | None => js "NaN" end)
  | Lexer.OutOfFuel => Undetermined
  end.

Definition analyze (program : Program) : run Analyzer.AnalysisResult :=
  match Analyzer.analyze program with
  | Analyzer.Ok r => Returns r
  | Analyzer.Untyped => Undetermined
  end.

Definition generateJavaScript (fuel : nat) (program : Program)
    (analysisResult : Analyzer.AnalysisResult)
    (options : Codegen.GeneratorOptions) : run jsstring :=
  match Codegen.generateJavaScript fuel program analysisResult options with
  | Codegen.Ok text => Returns text
  | Codegen.OutOfFuel => Undetermined
  end.

(** [compile] of the model; [declaration] stands for the grammar
    productions of the parser and [fuel] bounds the loop of [parse] and
    the nesting of detached generation. *)
Definition compile
    (declaration : Parser.Parser -> Parser.production (option Statement))
    (fuel : nat) (options : CompilerOptions) (source : jsstring)
    (filename : option jsstring) : run CompilationResult :=
  compile_with tokenize (Parser.parse declaration fuel) analyze
    (generateJavaScript fuel) options source filename.

Definition parseOnly
    (declaration : Parser.Parser -> Parser.production (option Statement))
    (fuel : nat) (source : jsstring) (filename : option jsstring)
    : run (Program * list CompilerError) :=
  parseOnly_with tokenize (Parser.parse declaration fuel) source filename.


End Compiler.

(* ================================================================== *)
(** * Example programs

    Syntax trees of small Intent programs, as the parser builds them.
    Offsets and lengths of locations are left at 0: no phase after the
    parser reads them. *)
(* ================================================================== *)

Module Examples.

Import AST.

Definition L (line column : Z) : SourceLocation :=
  mkLocation line column 0 0 None.
Definition I (line column : Z) (name : string) : Identifier :=
  mkIdentifier (L line column) (js name).
Definition V (line column : Z) (name : string) : Expression :=
  IdentifierExpr (I line column name).
Definition TName (line column : Z) (name : string) : TypeExpression :=
  NamedType (L line column) (I line column name) [].
Definition TPrim (line column : Z) (p : PrimitiveName) : TypeExpression :=
  PrimitiveType (L line column) (Prim p).
Definition TVoid (line column : Z) : TypeExpression :=
  PrimitiveType (L line column) Void.
Definition Str (line column : Z) (s : string) : Expression :=
  LiteralExpr (mkLiteral (L line column) (LVString (js s)) LKstring).
Definition Num (line column : Z) (n : Z) : Expression :=
  LiteralExpr (mkLiteral (L line column) (LVInt n) LKinteger).

Definition program (statements : list Statement) : Program :=
  mkProgram (L 1 1) statements.

(** [effect IO { fn write(s: String) -> Void }] *)
Definition effIO : Statement :=
  EffectDeclaration (L 1 1) (I 1 8 "IO") []
    [mkFunctionDeclaration (L 1 13) (I 1 16 "write") []
       [mkParameter (L 1 22) (I 1 22 "s") (TPrim 1 25 String_) false None]
       (TVoid 1 36) [] None false false] false.

(** [fn log(s: String) -> Void @effect[IO] { IO.write(s) }] *)
Definition fnLog : Statement :=
  FunctionDeclarationStmt
    (mkFunctionDeclaration (L 2 1) (I 2 4 "log") []
       [mkParameter (L 2 8) (I 2 8 "s") (TPrim 2 11 String_) false None]
       (TVoid 2 22) [EffectAnnotation (L 2 27) [TName 2 35 "IO"]]
       (Some (mkBlockStatement (L 2 39)
          [ExpressionStatement (L 2 41)
             (CallExpression (L 2 41)
                (MemberExpression (L 2 41) (V 2 41 "IO") (I 2 44 "write")
                   false)
                [V 2 50 "s"] [])]))
       false false).

(** The statement [log("x")] *)
Definition callLog (line column : Z) : Statement :=
  ExpressionStatement (L line column)
    (CallExpression (L line column) (V line column "log")
       [Str line (column + 4) "x"] []).

(** [@effect[IO]] *)
Definition effectIO (line column : Z) : Annotation :=
  EffectAnnotation (L line column) [TName line (column + 8) "IO"].

(** [fn main() -> Void <annotations> { log("x") }] *)
Definition mainDeclaration (annotations : list Annotation)
    : FunctionDeclaration :=
  mkFunctionDeclaration (L 3 1) (I 3 4 "main") [] [] (TVoid 3 14)
    annotations (Some (mkBlockStatement (L 3 19) [callLog 3 21]))
    false false.

Definition fnMain (annotations : list Annotation) : Statement :=
  FunctionDeclarationStmt (mainDeclaration annotations).

(** [struct Logger { }] *)
Definition structLogger : Statement :=
  StructDeclaration (L 3 1) (I 3 8 "Logger") [] [] [] false.

(** [fn run() -> Void @effect[IO] { log("x") }] *)
Definition runDeclaration : FunctionDeclaration :=
  mkFunctionDeclaration (L 4 15) (I 4 18 "run") [] [] (TVoid 4 27)
    [effectIO 4 32] (Some (mkBlockStatement (L 4 44) [callLog 4 46]))
    false false.

(** [impl Logger { fn run() -> Void @effect[IO] { log("x") } }] *)
Definition implLogger : Statement :=
  ImplDeclaration (L 4 1) [] None (TName 4 6 "Logger") [runDeclaration] None.


(** [let y: Int = nope] *)
Definition letNope : Statement :=
  VariableDeclaration (L 1 1) (I 1 5 "y") (Some (TPrim 1 8 Int))
    (Some (V 1 14 "nope")) false false.



(** [fn inc(x: mut Int) -> Void @ensures x == old(x) + 1 { x += k }] *)
Definition incDeclaration (k : Z) : FunctionDeclaration :=
  mkFunctionDeclaration (L 1 1) (I 1 4 "inc") []
    [mkParameter (L 1 8) (I 1 8 "x") (TPrim 1 15 Int) true None]
    (TVoid 1 23)
    [EnsuresAnnotation (L 1 28)
       (BinaryExpression (L 1 37) OpEq (V 1 37 "x")
          (BinaryExpression (L 1 42) OpAdd
             (OldExpression (L 1 42) (V 1 46 "x")) (Num 1 51 1)))]
    (Some (mkBlockStatement (L 1 53)
       [ExpressionStatement (L 1 55)
          (AssignmentExpression (L 1 55) AssignAdd (V 1 55 "x")
             (Num 1 60 k))]))
    false false.

Definition inc (k : Z) : Program :=
  program [FunctionDeclarationStmt (incDeclaration k)].

(** [fn divide(a: Int, b: Int) -> Int @requires b != 0
     @ensures result * b == a { return a / b }] *)
Definition divideDeclaration : FunctionDeclaration :=
  mkFunctionDeclaration (L 1 1) (I 1 4 "divide") []
    [mkParameter (L 1 11) (I 1 11 "a") (TPrim 1 14 Int) false None;
     mkParameter (L 1 19) (I 1 19 "b") (TPrim 1 22 Int) false None]
    (TPrim 1 30 Int)
    [RequiresAnnotation (L 2 1)
       (BinaryExpression (L 2 11) OpNeq (V 2 11 "b") (Num 2 16 0));
     EnsuresAnnotation (L 3 1)
       (BinaryExpression (L 3 10) OpEq
          (BinaryExpression (L 3 10) OpMul (V 3 10 "result") (V 3 19 "b"))
          (V 3 24 "a"))]
    (Some (mkBlockStatement (L 4 1)
       [ReturnStatement (L 4 3)
          (Some (BinaryExpression (L 4 10) OpDiv (V 4 10 "a") (V 4 14 "b")))]))
    false false.

Definition divide : Program :=
  program [FunctionDeclarationStmt divideDeclaration].

(** [forall i in xs: i >= old(n)] *)
Definition boundedBelow : Expression :=
  ForallExpression (L 1 42)
    [mkForallBinding (L 1 49) (I 1 49 "i") (Some (V 1 54 "xs"))]
    (BinaryExpression (L 1 58) OpGte (V 1 58 "i")
       (OldExpression (L 1 63) (V 1 67 "n"))).

(** [fn keep(n: Int, xs: [Int]) -> Int
     @ensures forall i in xs: i >= old(n) { return n }] *)
Definition keepDeclaration : FunctionDeclaration :=
  mkFunctionDeclaration (L 1 1) (I 1 4 "keep") []
    [mkParameter (L 1 9) (I 1 9 "n") (TPrim 1 12 Int) false None;
     mkParameter (L 1 17) (I 1 17 "xs")
       (ArrayType (L 1 21) (TPrim 1 22 Int) None) false None]
    (TPrim 1 31 Int)
    [EnsuresAnnotation (L 1 35) boundedBelow]
    (Some (mkBlockStatement (L 1 70) [ReturnStatement (L 1 72) (Some (V 1 79 "n"))]))
    false false.

Definition keep : Program :=
  program [FunctionDeclarationStmt keepDeclaration].

(** [&IO] *)
Definition refIO (line column : Z) : TypeExpression :=
  ReferenceType (L line column) (TName line (column + 1) "IO") false.

(** [fn g(io: &IO) -> Void { }] *)
Definition fnG : Statement :=
  FunctionDeclarationStmt
    (mkFunctionDeclaration (L 2 1) (I 2 4 "g") []
       [mkParameter (L 2 6) (I 2 6 "io") (refIO 2 10) false None]
       (TVoid 2 18) [] (Some (mkBlockStatement (L 2 23) [])) false false).

(** [fn f(io: &IO) -> Void { g(io) }] *)
Definition fnF : Statement :=
  FunctionDeclarationStmt
    (mkFunctionDeclaration (L 3 1) (I 3 4 "f") []
       [mkParameter (L 3 6) (I 3 6 "io") (refIO 3 10) false None]
       (TVoid 3 18) []
       (Some (mkBlockStatement (L 3 23)
          [ExpressionStatement (L 3 25)
             (CallExpression (L 3 25) (V 3 25 "g") [V 3 27 "io"] [])]))
       false false).
End Examples.

(* ================================================================== *)
(** * Properties of the scanner *)
(* ================================================================== *)

Module LexerFacts.

Import Lexer.
Open Scope lexer_scope.

(** The text slice of the source that a token's position designates. *)
Definition token_slice (s : jsstring) (t : Token) : jsstring :=
  substring s (loc_offset (tok_location t))
    (loc_offset (tok_location t) + loc_length (tok_location t)).

Definition slice_ok (s : jsstring) (t : Token) : Prop :=
  token_slice s t = tok_value t.

Lemma substring_length (s : jsstring) (a b : nat) :
  a <= b ->
  List.length (substring s a b)
  = Nat.min b (List.length s) - Nat.min a (List.length s).
Proof.
  intros Hab. unfold substring.
  rewrite length_firstn, length_skipn. lia.
Qed.

Lemma substring_slice (s : jsstring) (a b : nat) :
  a <= b ->
  substring s a (a + List.length (substring s a b)) = substring s a b.
Proof.
  intros Hab. rewrite (substring_length s Hab).
  unfold substring.
  destruct (Nat.le_gt_cases a (List.length s)) as [Ha | Ha].
  - replace (Nat.min (a + (Nat.min b (List.length s) - Nat.min a (List.length s)))
               (List.length s)) with (Nat.min b (List.length s)) by lia.
    reflexivity.
  - replace (Nat.min b (List.length s)) with (List.length s) by lia.
    replace (Nat.min a (List.length s)) with (List.length s) by lia.
    replace (Nat.min (a + (List.length s - List.length s)) (List.length s))
      with (List.length s) by lia.
    reflexivity.
Qed.

Lemma substring_empty (s : jsstring) (a : nat) : substring s a (a + 0) = [].
Proof.
  unfold substring. rewrite Nat.add_0_r.
  replace (Nat.max _ _ - Nat.min _ _) with 0 by lia. reflexivity.
Qed.

(** ** The scanner invariant *)

Record Inv (st : Lexer) : Prop := {
  inv_start : start st <= current st;
  inv_tokens : Forall (slice_ok (source st)) (tokens st)
}.

(** [sound m]: from a state satisfying the invariant, [m] does not run
    out of loop fuel, and if it returns, the invariant holds again, the
    source text is unchanged and the cursor has not moved back. *)
Definition sound {A} (m : M A) : Prop :=
  forall st, Inv st ->
    match m st with
    | Ok (_, st') =>
        Inv st' /\ source st' = source st /\ current st <= current st'
    | Throw _ => True
    | OutOfFuel => False
    end.

(** [advancing m]: as [sound], and the cursor moves forward. *)
Definition advancing {A} (m : M A) : Prop :=
  forall st, Inv st ->
    match m st with
    | Ok (_, st') =>
        Inv st' /\ source st' = source st /\ current st < current st'
    | Throw _ => True
    | OutOfFuel => False
    end.

Lemma advancing_sound {A} (m : M A) : advancing m -> sound m.
Proof.
  intros H st Hst. specialize (H st Hst).
  destruct (m st) as [[a st']| |]; auto.
  destruct H as (? & ? & ?). split; [assumption | split; [assumption | lia]].
Qed.

Lemma sound_ret {A} (a : A) : sound (ret a).
Proof. intros st Hst. cbn. auto. Qed.

Lemma sound_get : sound get.
Proof. intros st Hst. cbn. auto. Qed.

Lemma sound_throw {A} e : sound (@throw A e).
Proof. intros st Hst. exact I. Qed.

Lemma sound_bind {A B} (m : M A) (k : A -> M B) :
  sound m -> (forall a, sound (k a)) -> sound (bind m k).
Proof.
  intros Hm Hk st Hst. unfold bind. specialize (Hm st Hst).
  destruct (m st) as [[a st']| |]; auto.
  destruct Hm as (Hi & Hs & Hc). specialize (Hk a st' Hi).
  destruct (k a st') as [[b st'']| |]; auto.
  destruct Hk as (Hi' & Hs' & Hc'). split; [assumption | split; [congruence | lia]].
Qed.

Lemma advancing_bind_l {A B} (m : M A) (k : A -> M B) :
  advancing m -> (forall a, sound (k a)) -> advancing (bind m k).
Proof.
  intros Hm Hk st Hst. unfold bind. specialize (Hm st Hst).
  destruct (m st) as [[a st']| |]; auto.
  destruct Hm as (Hi & Hs & Hc). specialize (Hk a st' Hi).
  destruct (k a st') as [[b st'']| |]; auto.
  destruct Hk as (Hi' & Hs' & Hc'). split; [assumption | split; [congruence | lia]].
Qed.

Lemma advancing_bind_r {A B} (m : M A) (k : A -> M B) :
  sound m -> (forall a, advancing (k a)) -> advancing (bind m k).
Proof.
  intros Hm Hk st Hst. unfold bind. specialize (Hm st Hst).
  destruct (m st) as [[a st']| |]; auto.
  destruct Hm as (Hi & Hs & Hc). specialize (Hk a st' Hi).
  destruct (k a st') as [[b st'']| |]; auto.
  destruct Hk as (Hi' & Hs' & Hc'). split; [assumption | split; [congruence | lia]].
Qed.

Lemma sound_when (b : bool) (m : M unit) : sound m -> sound (when b m).
Proof. destruct b; cbn; auto using sound_ret. Qed.

Lemma advancing_advance : advancing advance.
Proof.
  intros st [Hs Ht]. cbn. repeat split; cbn; auto; lia.
Qed.

Lemma sound_match_ (c : N) : sound (match_ c).
Proof.
  intros st [Hs Ht]. unfold match_.
  destruct (isAtEnd st); [cbn; repeat split; auto|].
  destruct (nth_error (source st) (current st)); [|cbn; repeat split; auto].
  destruct (N.eqb n c); cbn; repeat split; cbn; auto; lia.
Qed.

Lemma sound_newline_inside : sound newline_inside.
Proof. intros st [Hs Ht]. cbn. repeat split; cbn; auto. Qed.

Lemma sound_addToken (ty : TokenType) : sound (addToken ty).
Proof.
  intros st [Hs Ht]. cbn. repeat split; cbn; auto.
  apply Forall_app. split; auto. constructor; [|constructor].
  unfold slice_ok, token_slice. cbn. apply substring_slice. exact Hs.
Qed.

Lemma sound_addTokenWithLiteral ty lit l c :
  sound (addTokenWithLiteral ty lit l c).
Proof.
  intros st [Hs Ht]. unfold addTokenWithLiteral.
  cbn. repeat split; cbn; auto.
  apply Forall_app. split; auto. constructor; [|constructor].
  unfold slice_ok, token_slice.
  destruct (file st) as [[|x f]|]; cbn; apply substring_slice; exact Hs.
Qed.

Lemma sound_error (msg : jsstring) : sound (error msg).
Proof.
  unfold error. apply sound_bind; [|intros; apply sound_addToken].
  intros st [Hs Ht]. cbn. repeat split; cbn; auto.
Qed.

(** Loops: the body advances and the condition fails at the end of the
    input, so the remaining input bounds the number of iterations. *)
Lemma sound_loop {A} (cond : A -> Lexer -> bool) (body : A -> M A) :
  (forall a st, cond a st = true -> current st < List.length (source st)) ->
  (forall a, advancing (body a)) ->
  forall fuel a st,
    Inv st -> List.length (source st) - current st <= fuel ->
    match loop fuel cond body a st with
    | Ok (_, st') =>
        Inv st' /\ source st' = source st /\ current st <= current st'
    | Throw _ => True
    | OutOfFuel => False
    end.
Proof.
  intros Hcond Hbody fuel. induction fuel as [|fuel IH]; intros a st Hst Hf.
  - cbn. destruct (cond a st) eqn:E; [apply Hcond in E; lia | auto].
  - cbn. destruct (cond a st) eqn:E; [|auto].
    specialize (Hbody a st Hst).
    destruct (body a st) as [[a' st']| |]; auto.
    destruct Hbody as (Hi & Hs & Hc).
    specialize (IH a' st' Hi).
    destruct (loop fuel cond body a' st') as [[a'' st'']| |].
    + destruct IH as (? & ? & ?); [rewrite Hs; lia|].
      split; [assumption | split; [congruence | lia]].
    + exact I.
    + apply IH. rewrite Hs. lia.
Qed.

Lemma sound_while {A} (cond : A -> Lexer -> bool) (body : A -> M A) (a : A) :
  (forall a st, cond a st = true -> current st < List.length (source st)) ->
  (forall a, advancing (body a)) ->
  sound (while cond body a).
Proof.
  intros Hcond Hbody st Hst. unfold while.
  apply sound_loop; auto.
Qed.

Lemma isAtEnd_false (st : Lexer) :
  isAtEnd st = false -> current st < List.length (source st).
Proof. unfold isAtEnd. intros H. apply Nat.leb_gt in H. exact H. Qed.

Lemma peek_not_NUL (st : Lexer) :
  peek st <> NUL -> current st < List.length (source st).
Proof.
  unfold peek. destruct (isAtEnd st) eqn:E; [congruence|].
  intros _. apply isAtEnd_false. exact E.
Qed.

Lemma peek_pred (p : N -> bool) (st : Lexer) :
  p NUL = false -> p (peek st) = true ->
  current st < List.length (source st).
Proof.
  intros H0 Hp. apply peek_not_NUL. intros E. rewrite E in Hp. congruence.
Qed.

Lemma sound_advanceWhile (p : N -> bool) :
  p NUL = false -> sound (advanceWhile p).
Proof.
  intros H0. apply sound_while.
  - intros _ st Hp. eapply peek_pred; eauto.
  - intros _. apply advancing_bind_l; [apply advancing_advance|].
    intros; apply sound_ret.
Qed.

Ltac cond_not_at_end :=
  let a := fresh in let st := fresh in let H := fresh in
  intros a st H;
  repeat match goal with
         | H : _ && _ = true |- _ => apply andb_prop in H; destruct H
         end;
  first
    [ apply isAtEnd_false;
      match goal with H : negb (isAtEnd _) = true |- _ =>
        apply negb_true_iff in H; exact H end
    | match goal with H : N.eqb (peek _) _ = true |- _ =>
        apply N.eqb_eq in H; apply peek_not_NUL; rewrite H; discriminate end ].

(** A tactic that walks through the monadic code. *)
Ltac step :=
  match goal with
  | |- sound (ret _) => apply sound_ret
  | |- sound get => apply sound_get
  | |- sound (throw _) => apply sound_throw
  | |- sound advance => apply advancing_sound, advancing_advance
  | |- sound (match_ _) => apply sound_match_
  | |- sound newline_inside => apply sound_newline_inside
  | |- sound (addToken _) => apply sound_addToken
  | |- sound (addTokenWithLiteral _ _ _ _) => apply sound_addTokenWithLiteral
  | |- sound (error _) => apply sound_error
  | |- sound (when _ _) => apply sound_when
  | |- sound (advanceWhile _) => apply sound_advanceWhile; reflexivity
  | |- sound (bind _ _) => apply sound_bind; [|intros]
  | |- sound (while _ _ _) => apply sound_while; [cond_not_at_end | intros]
  | |- sound (if ?b then _ else _) => destruct b
  | |- sound (match ?x with _ => _ end) => destruct x
  | |- advancing advance => apply advancing_advance
  | |- advancing (bind advance _) =>
      apply advancing_bind_l; [apply advancing_advance | intros]
  | |- advancing (bind _ _) => apply advancing_bind_r; [|intros]
  | |- advancing (if ?b then _ else _) => destruct b
  end.

Lemma sound_escapeSequence : sound escapeSequence.
Proof. unfold escapeSequence. repeat step. Qed.

Lemma sound_blockComment : sound blockComment.
Proof. unfold blockComment. repeat step. Qed.

Lemma sound_string_ : sound string_.
Proof.
  unfold string_. repeat step; try apply sound_escapeSequence.
Qed.

Lemma sound_char_ : sound char_.
Proof. unfold char_. repeat step; try apply sound_escapeSequence. Qed.

Lemma sound_number : sound number.
Proof. unfold number. repeat step. Qed.

Lemma sound_identifier : sound identifier.
Proof. unfold identifier. repeat step. Qed.

Lemma advancing_scanToken : advancing scanToken.
Proof.
  unfold scanToken. apply advancing_bind_l; [apply advancing_advance|].
  intros c.
  repeat first
    [ apply sound_blockComment | apply sound_string_ | apply sound_char_
    | apply sound_number | apply sound_identifier | step ].
  intros st [Hs Ht]. cbn. repeat split; cbn; auto.
Qed.

Lemma sound_Lexer_tokenize : sound Lexer_tokenize.
Proof.
  unfold Lexer_tokenize. apply sound_bind.
  - apply sound_while; [cond_not_at_end|]. intros _.
    apply advancing_bind_r; [|intros; apply advancing_scanToken].
    intros st [Hs Ht]. cbn. repeat split; cbn; auto.
  - intros _. repeat step.
    intros st [Hs Ht]. cbn. repeat split; cbn; auto.
    apply Forall_app. split; auto. constructor; [|constructor].
    unfold slice_ok, token_slice. cbn. apply substring_empty.
Qed.

Lemma Inv_new_Lexer (s : jsstring) (f : option jsstring) : Inv (new_Lexer s f).
Proof. split; cbn; auto. Qed.

Lemma Lexer_tokenize_result (st : Lexer) r st' :
  Lexer_tokenize st = Ok (r, st') -> r = (tokens st', errors st').
Proof.
  unfold Lexer_tokenize, bind.
  destruct (while _ _ _ st) as [[[] st1]| |]; try discriminate.
  cbn. intros H. inversion H. reflexivity.
Qed.

(** The scanner never runs out of loop fuel: on every source text
    [tokenize] either returns or raises an exception. *)
Lemma tokenize_terminates (s : jsstring) (f : option jsstring) :
  tokenize s f <> OutOfFuel.
Proof.
  unfold tokenize.
  pose proof (sound_Lexer_tokenize (Inv_new_Lexer s f)) as H.
  destruct (Lexer_tokenize (new_Lexer s f)) as [[r st']| |];
    [discriminate | discriminate | contradiction].
Qed.

(** C9. For every token in the list that [tokenize] returns on a source
    text [s], end-of-input and invalid tokens included, the text slice of
    [s] that starts at the token's offset and has the token's length is
    the token's value. *)
Theorem tokenize_token_slices (s : jsstring) (f : option jsstring)
    (toks : list Token) (errs : list LexerError) :
  tokenize s f = Ok (toks, errs) ->
  Forall (fun t =>
            substring s (loc_offset (tok_location t))
              (loc_offset (tok_location t) + loc_length (tok_location t))
            = tok_value t) toks.
Proof.
  unfold tokenize. intros H.
  pose proof (sound_Lexer_tokenize (Inv_new_Lexer s f)) as Hs.
  destruct (Lexer_tokenize (new_Lexer s f)) as [[r st']| |] eqn:E;
    try discriminate.
  pose proof (Lexer_tokenize_result _ E) as Er.
  destruct Hs as ([_ Ht] & Hsrc & _).
  rewrite Er in H. inversion H; subst toks errs.
  rewrite Hsrc in Ht. exact Ht.
Qed.

(** A source with an unknown character and an unterminated string whose
    last character is a backslash: the cursor ends beyond the text. *)
Definition slices_example : jsstring :=
  js "let x = $ 0x1F + 'a' " ++ [DQUOTE; BACKSLASH].

Lemma tokenize_token_slices_witness :
  exists toks errs,
    tokenize slices_example None = Ok (toks, errs)
    /\ Forall (fun t =>
                 substring slices_example (loc_offset (tok_location t))
                   (loc_offset (tok_location t) + loc_length (tok_location t))
                 = tok_value t) toks.
Proof.
  eexists. eexists. split; [vm_compute; reflexivity|].
  eapply (@tokenize_token_slices slices_example None).
  vm_compute. reflexivity.
Defined.

(** C6 (failing input).  On the six characters ["\u{}"] the scanner
    raises a RangeError: [parseInt] of the empty digit string is NaN,
    which [String.fromCodePoint] rejects.  No diagnostic is recorded. *)
Definition unicode_escape_example : jsstring :=
  [DQUOTE] ++ js "\u{}" ++ [DQUOTE].

Theorem tokenize_unicode_escape_throws :
  tokenize unicode_escape_example None = Throw (RangeError None).
Proof. vm_compute. reflexivity. Qed.

(** The same holds for a code point beyond 0x10FFFF. *)
Lemma tokenize_unicode_escape_out_of_range :
  tokenize ([DQUOTE] ++ js "\u{110000}" ++ [DQUOTE]) None
  = Throw (RangeError (Some 1114112%Z)).
Proof. vm_compute. reflexivity. Qed.

End LexerFacts.

(* ================================================================== *)
(** * Properties of assignability *)
(* ================================================================== *)

Module TypesFacts.

Import AST Types.

(** ** The rules of assignability that hold for all types *)

Lemma never_assignable (T : Type_) : isAssignableTo never T = true.
Proof. destruct T; reflexivity. Qed.



Lemma assignable_to_optional (S T : Type_) :
  isAssignableTo S T = true -> isAssignableTo S (optional T) = true.
Proof.
  intros H. cbn -[typeEquals].
  destruct (isNever S); [reflexivity|].
  destruct (is_error S || false); [reflexivity|].
  destruct (typeEquals S (optional T)); [reflexivity|].
  exact H.
Qed.

(** [&T] is never assignable to [&mut T'], whatever [T] and [T'] are. *)
Lemma reference_not_to_mutable (S T : Type_) :
  isAssignableTo (reference S false) (reference T true) = false.
Proof. reflexivity. Qed.


Definition integerNames : list PrimitiveName :=
  [Int; Int8; Int16; Int32; Int64; UInt].
Definition floatNames : list PrimitiveName := [Float32; Float64].

(** Numeric widening: integer to integer and float to float exactly when
    the source is not wider than the target; integer to float always. *)
Lemma numeric_widening :
  (forall s t, In s integerNames -> In t integerNames ->
     isAssignableTo (primitive s) (primitive t)
     = (getNumericSize (primitive s) <=? getNumericSize (primitive t))%N)
  /\ (forall s t, In s floatNames -> In t floatNames ->
        isAssignableTo (primitive s) (primitive t)
        = (getNumericSize (primitive s) <=? getNumericSize (primitive t))%N)
  /\ (forall s t, In s integerNames -> In t floatNames ->
        isAssignableTo (primitive s) (primitive t) = true)
  /\ getNumericSize (primitive Int) = 64%N
  /\ getNumericSize (primitive UInt) = 64%N.
Proof.
  repeat split; intros s t Hs Ht; cbn in Hs, Ht;
    repeat match goal with
           | H : _ \/ _ |- _ => destruct H
           | H : False |- _ => destruct H
           end; subst; reflexivity.
Qed.

Lemma assignability_not_symmetric :
  isAssignableTo (primitive Int8) (primitive Int16) = true
  /\ isAssignableTo (primitive Int16) (primitive Int8) = false.
Proof. split; reflexivity. Qed.

(** ** The effect type of the examples *)

Definition IO : EffectType :=
  mkEffectType (js "IO")
    [(js "write",
      mkFunctionType [mkParameterType (js "s") (primitive String_) false] void
        [] [] [] false)]
    [] (js "main").

(** C4 (failing input).  [typeEquals] has no case for the kinds
    ['effect'] and ['capability'], so an effect type is not equal to
    itself, is not assignable to itself, and [&IO] is not assignable to
    [&IO], nor [&mut IO] to [&IO]. *)
Theorem effect_reference_not_assignable :
  typeEquals (effect IO) (effect IO) = false
  /\ isAssignableTo (effect IO) (effect IO) = false
  /\ isAssignableTo (reference (effect IO) false) (reference (effect IO) false)
     = false
  /\ isAssignableTo (reference (effect IO) true) (reference (effect IO) false)
     = false.
Proof. repeat split; reflexivity. Qed.

(** ** [Unknown] as a source *)



End TypesFacts.

(* ================================================================== *)
(** * Facts about the checker *)
(* ================================================================== *)

Module AnalyzerFacts.

Import AST Types Symbols Analyzer.
Open Scope analyzer_scope.

Scheme Pattern_mind := Induction for Pattern Sort Prop
  with StructPatternField_mind := Induction for StructPatternField Sort Prop.

Scheme Expression_mind := Induction for Expression Sort Prop
  with IfExpression_mind := Induction for IfExpression Sort Prop
  with ElseExpression_mind := Induction for ElseExpression Sort Prop
  with BlockExpression_mind := Induction for BlockExpression Sort Prop
  with MatchArm_mind := Induction for MatchArm Sort Prop
  with FunctionParameter_mind := Induction for FunctionParameter Sort Prop
  with StructExpressionField_mind :=
    Induction for StructExpressionField Sort Prop
  with ForallBinding_mind := Induction for ForallBinding Sort Prop
  with Annotation_mind := Induction for Annotation Sort Prop
  with Statement_mind := Induction for Statement Sort Prop
  with IfStatement_mind := Induction for IfStatement Sort Prop
  with ElseStatement_mind := Induction for ElseStatement Sort Prop
  with BlockStatement_mind := Induction for BlockStatement Sort Prop
  with FunctionDeclaration_mind := Induction for FunctionDeclaration Sort Prop
  with StructField_mind := Induction for StructField Sort Prop.

Combined Scheme AST_mutind from Expression_mind, IfExpression_mind,
  ElseExpression_mind, BlockExpression_mind, MatchArm_mind,
  FunctionParameter_mind, StructExpressionField_mind, ForallBinding_mind,
  Annotation_mind, Statement_mind, IfStatement_mind, ElseStatement_mind,
  BlockStatement_mind, FunctionDeclaration_mind, StructField_mind.

(** ** What the checker reads of the enclosing function

    The field [currentFunction] is read in three places
    ([analyzeReturnStatement], [analyzeIdentifier], [analyzeTryExpression]),
    each time for its [returnType] only.  Two states are similar when they
    agree on every other field and on that return type. *)

Record sim (s s' : Analyzer) : Prop := mkSim {
  sim_errors : errors s = errors s';
  sim_warnings : warnings s = warnings s';
  sim_symbolTable : symbolTable s = symbolTable s';
  sim_typeMap : typeMap s = typeMap s';
  sim_currentModule : currentModule s = currentModule s';
  sim_inContractContext : inContractContext s = inContractContext s';
  sim_typeVarCounter : typeVarCounter s = typeVarCounter s';
  sim_returnType : currentReturnType s = currentReturnType s'
}.

Definition rel {A} (o o' : outcome (A * Analyzer)) : Prop :=
  match o, o' with
  | Ok (a, s), Ok (a', s') => a = a' /\ sim s s'
  | Untyped, Untyped => True
  | _, _ => False
  end.

(** A computation respects the similarity when similar states lead to
    equal results and similar states. *)
Definition respects {A} (m : M A) : Prop :=
  forall s s', sim s s' -> rel (m s) (m s').

Lemma sim_refl s : sim s s.
Proof. constructor; reflexivity. Qed.


Ltac sim_tac :=
  let H := fresh in
  intros ? ? H; destruct H; try constructor;
  unfold currentReturnType in *; simpl in *; congruence.

Lemma respects_ret A (a : A) : respects (ret a).
Proof. intros s s' H. simpl. auto. Qed.

Lemma respects_bind A B (m : M A) (k : A -> M B) :
  respects m -> (forall a, respects (k a)) -> respects (bind m k).
Proof.
  intros Hm Hk s s' H. unfold bind. specialize (Hm s s' H).
  destruct (m s) as [[a t]|], (m s') as [[a' t']|]; simpl in Hm;
    try contradiction; [|exact I].
  destruct Hm as [-> Ht]. apply Hk. exact Ht.
Qed.

Lemma respects_gets A (f : Analyzer -> A) :
  (forall s s', sim s s' -> f s = f s') -> respects (gets f).
Proof. intros Hf s s' H. simpl. auto. Qed.

Lemma respects_modify (f : Analyzer -> Analyzer) :
  (forall s s', sim s s' -> sim (f s) (f s')) -> respects (modify f).
Proof. intros Hf s s' H. simpl. auto. Qed.

Lemma respects_untyped A : respects (@untyped A).
Proof. intros s s' H. exact I. Qed.

Lemma respects_when b m : respects m -> respects (when b m).
Proof. intros H. destruct b; [exact H | apply respects_ret]. Qed.

Lemma respects_error l m : respects (error l m).
Proof. apply respects_modify. sim_tac. Qed.

Lemma respects_warning l m : respects (warning l m).
Proof. apply respects_modify. sim_tac. Qed.

Lemma respects_withTable f : respects (withTable f).
Proof. apply respects_modify. sim_tac. Qed.

Lemma respects_createTypeVariable n b : respects (createTypeVariable n b).
Proof.
  intros s s' H. unfold createTypeVariable. simpl. split.
  - destruct H. congruence.
  - revert s s' H. sim_tac.
Qed.

Lemma respects_mapM X Y (f : X -> M Y) l :
  (forall x, In x l -> respects (f x)) -> respects (mapM f l).
Proof.
  induction l as [|x l IH]; intros H; simpl.
  - apply respects_ret.
  - apply respects_bind; [apply H; left; reflexivity|]. intros y.
    apply respects_bind; [apply IH; intros; apply H; right; assumption|].
    intros ys. apply respects_ret.
Qed.

Lemma respects_forEach X (f : X -> M unit) l :
  (forall x, In x l -> respects (f x)) -> respects (forEach f l).
Proof.
  induction l as [|x l IH]; intros H; simpl.
  - apply respects_ret.
  - apply respects_bind; [apply H; left; reflexivity|]. intros _.
    apply IH; intros; apply H; right; assumption.
Qed.

Lemma respects_forEach2 X Y (f : X -> Y -> M unit) xs ys :
  (forall x y, In x xs -> respects (f x y)) -> respects (forEach2 f xs ys).
Proof.
  revert ys. induction xs as [|x xs IH]; intros ys H; simpl.
  - apply respects_ret.
  - destruct ys as [|y ys]; [apply respects_ret|].
    apply respects_bind; [apply H; left; reflexivity|]. intros _.
    apply IH; intros; apply H; right; assumption.
Qed.

Lemma respects_foldM X S (f : S -> X -> M S) l :
  (forall a x, In x l -> respects (f a x)) -> forall a, respects (foldM f a l).
Proof.
  induction l as [|x l IH]; intros H a; simpl.
  - apply respects_ret.
  - apply respects_bind; [apply H; left; reflexivity|]. intros a'.
    apply IH; intros; apply H; right; assumption.
Qed.

(** The nested induction principles speak of [list_all] and [option_all]. *)
Lemma list_all_In (X : Set) (P : X -> Prop) l : list_all P l -> forall x, In x l -> P x.
Proof.
  induction 1 as [|a Ha l Hl IH]; intros x Hx; [destruct Hx|].
  destruct Hx as [<-|Hx]; [exact Ha | apply IH; exact Hx].
Qed.

Lemma option_all_Some (X : Set) (P : X -> Prop) x : option_all P (Some x) -> P x.
Proof. inversion 1; assumption. Qed.

Lemma option_list_all_In (X : Set) (P : X -> Prop) l :
  option_all (list_all P) (Some l) -> forall x, In x l -> P x.
Proof. inversion 1; apply list_all_In; assumption. Qed.


(** ** Every method of the checker respects the similarity *)

Ltac resp_step :=
  match goal with
  | H : respects ?m |- respects ?m => exact H
  | H : forall t, respects (?f t) |- respects (?f _) => apply H
  | |- respects (bind _ _) => apply respects_bind; [| intros ?]
  | |- respects (ret _) => apply respects_ret
  | |- respects untyped => apply respects_untyped
  | |- respects (when _ _) => apply respects_when
  | |- respects (error _ _) => apply respects_error
  | |- respects (warning _ _) => apply respects_warning
  | |- respects (withTable _) => apply respects_withTable
  | |- respects (st_define _ _ _ _ _ _ _) => apply respects_withTable
  | |- respects (st_defineType _ _) => apply respects_withTable
  | |- respects (createTypeVariable _ _) => apply respects_createTypeVariable
  | |- respects (gets _) => apply respects_gets; sim_tac
  | |- respects (modify _) => apply respects_modify; sim_tac
  | |- respects (match ?x with _ => _ end) => destruct x
  end.

Ltac resp := cbv beta zeta; repeat (resp_step; cbv beta zeta).

(** Brings the induction hypothesis of an element of a list into the
    context. *)
Ltac all_in :=
  repeat match goal with
  | H : option_all _ (Some _) |- _ => apply option_all_Some in H
  end;
  match goal with
  | H : list_all _ ?l, Hx : In ?x ?l |- _ =>
      let Hall := fresh "Hall" in
      pose proof (list_all_In H x Hx) as Hall; cbv beta in Hall
  | H : option_all (list_all _) (Some ?l), Hx : In ?x ?l |- _ =>
      let Hall := fresh "Hall" in
      pose proof (option_list_all_In H x Hx) as Hall; cbv beta in Hall
  end.

Ltac resp_list :=
  match goal with
  | |- respects (mapM _ _) => apply respects_mapM; intros ? ?
  | |- respects (forEach _ _) => apply respects_forEach; intros ? ?
  | |- respects (forEach2 _ _ _) => apply respects_forEach2; intros ? ? ?
  | |- respects (foldM _ _ _) => apply respects_foldM; intros ? ? ?
  end.

Lemma respects_resolveType t : respects (resolveType t).
Proof.
  induction t; simpl; resp; resp_list; all_in; assumption.
Qed.

Lemma respects_analyzePattern p : forall t, respects (analyzePattern p t).
Proof.
  induction p using Pattern_mind
    with (P0 := fun f =>
            match f with
            | mkStructPatternField _ _ p =>
                forall t, respects (analyzePattern p t)
            end); intros; simpl; resp; try resp_list; try all_in; resp.
Qed.

Lemma respects_analyzeIdentifier i : respects (analyzeIdentifier i).
Proof.
  unfold analyzeIdentifier. resp; apply respects_resolveType.
Qed.

Lemma respects_checkEffectRequirements l effs :
  respects (checkEffectRequirements l effs).
Proof.
  unfold checkEffectRequirements. resp.
  apply respects_forEach. intros; resp.
Qed.

(** The methods, one unfolding at a time. *)
Lemma analyzeExpression_eq e :
  analyzeExpression e =
  analyzeExpression_body analyzeExpression analyzeIfExpression
    analyzeBlockExpression analyzeMatchArm e.
Proof. destruct e; reflexivity. Qed.

Lemma analyzeStatement_eq s :
  analyzeStatement s =
  analyzeStatement_body analyzeExpression analyzeMatchArm analyzeStatement
    analyzeIfStatement analyzeBlockStatement analyzeFunctionDeclaration s.
Proof. destruct s; reflexivity. Qed.

Lemma analyzeAnnotation_eq a :
  analyzeAnnotation a = analyzeAnnotation_body analyzeExpression a.
Proof. destruct a; reflexivity. Qed.

Lemma analyzeFunctionDeclaration_eq d :
  analyzeFunctionDeclaration d =
  analyzeFunctionDeclaration_body analyzeBlockStatement analyzeAnnotation d
    (fd_annotations d) (fd_body d).
Proof. destruct d; reflexivity. Qed.

Lemma analyzeIfExpression_eq l c t e :
  analyzeIfExpression (mkIfExpression l c t e) =
  analyzeIfExpression_body analyzeExpression analyzeIfExpression
    analyzeBlockExpression l c t e.
Proof. reflexivity. Qed.

Lemma analyzeBlockExpression_eq l statements expression :
  analyzeBlockExpression (mkBlockExpression l statements expression) =
  analyzeBlockExpression_body analyzeExpression analyzeStatement statements
    expression.
Proof. reflexivity. Qed.

Lemma analyzeMatchArm_eq l pattern guard body t :
  analyzeMatchArm (mkMatchArm l pattern guard body) t =
  analyzeMatchArm_body analyzeExpression pattern guard body t.
Proof. reflexivity. Qed.

Lemma analyzeIfStatement_eq l c t e :
  analyzeIfStatement (mkIfStatement l c t e) =
  analyzeIfStatement_body analyzeExpression analyzeIfStatement
    analyzeBlockStatement c t e.
Proof. reflexivity. Qed.

Lemma analyzeBlockStatement_eq l statements :
  analyzeBlockStatement (mkBlockStatement l statements) =
  analyzeBlockStatement_body analyzeStatement statements.
Proof. reflexivity. Qed.

Ltac open_head :=
  match goal with
  | |- respects (analyzeExpression _) => rewrite analyzeExpression_eq
  | |- respects (analyzeStatement _) => rewrite analyzeStatement_eq
  | |- respects (analyzeAnnotation _) => rewrite analyzeAnnotation_eq
  | |- respects (analyzeFunctionDeclaration _) =>
      rewrite analyzeFunctionDeclaration_eq
  | |- respects (analyzeIfExpression _) => rewrite analyzeIfExpression_eq
  | |- respects (analyzeBlockExpression _) =>
      rewrite analyzeBlockExpression_eq
  | |- respects (analyzeMatchArm _ _) => rewrite analyzeMatchArm_eq
  | |- respects (analyzeIfStatement _) => rewrite analyzeIfStatement_eq
  | |- respects (analyzeBlockStatement _) => rewrite analyzeBlockStatement_eq
  end.

Ltac open_methods :=
  cbv beta iota zeta delta
    [analyzeExpression_body analyzeExpression_switch analyzeStatement_body
     analyzeAnnotation_body analyzeFunctionDeclaration_body
     analyzeReturnStatement analyzeIfStatement_body analyzeLoopInvariants
     analyzeWhileStatement analyzeForStatement analyzeMatchStatement
     analyzeMatchArm_body analyzeBlockStatement_body
     analyzeVariableDeclaration analyzeStructDeclaration
     analyzeEnumDeclaration analyzeTraitDeclaration analyzeImplDeclaration
     analyzeImportDeclaration analyzeBinaryExpression analyzeUnaryExpression
     checkArgumentTypes analyzeCallExpression analyzeMemberExpression
     analyzeIndexExpression analyzeIfExpression_body analyzeMatchExpression
     analyzeBlockExpression_body analyzeLambdaExpression
     analyzeArrayExpression analyzeTupleExpression analyzeStructExpression
     analyzeOldExpression analyzeQuantifier analyzeForallExpression
     analyzeExistsExpression analyzeTryExpression
     analyzeAssignmentExpression fd_annotations fd_body fd_name
     fd_genericParams fd_parameters].

Ltac resp_known :=
  match goal with
  | |- respects (resolveType _) => apply respects_resolveType
  | |- respects (analyzePattern _ _) => apply respects_analyzePattern
  | |- respects (analyzeIdentifier _) => apply respects_analyzeIdentifier
  | |- respects (checkEffectRequirements _ _) =>
      apply respects_checkEffectRequirements
  | H : _ /\ _ |- _ => destruct H
  | H : True |- _ => clear H
  | H : list_all _ (_ :: _) |- _ => inversion H; clear H; subst
  | H : option_all _ (Some _) |- _ => apply option_all_Some in H
  end.

Ltac go :=
  repeat (cbv beta iota zeta in *;
          first [ resp_step | resp_known | resp_list; try all_in ]).

Definition respectsElseExpression (e : ElseExpression) : Prop :=
  match e with
  | ElseBlockExpression b => respects (analyzeBlockExpression b)
  | ElseIfExpression e => respects (analyzeIfExpression e)
  | NoElseExpression => True
  end.

Definition respectsElseStatement (e : ElseStatement) : Prop :=
  match e with
  | ElseBlock b => respects (analyzeBlockStatement b)
  | ElseIf s => respects (analyzeIfStatement s)
  | NoElse => True
  end.

Definition respectsField (f : StructExpressionField) : Prop :=
  match f with
  | mkStructExpressionField _ _ value => respects (analyzeExpression value)
  end.

Definition respectsBinding (b : ForallBinding) : Prop :=
  match b with
  | mkForallBinding _ _ (Some range) => respects (analyzeExpression range)
  | mkForallBinding _ _ None => True
  end.

Definition respectsAnnotation (a : Annotation) : Prop :=
  respects (analyzeAnnotation a) /\
  match a with
  | InvariantAnnotation _ condition => respects (analyzeExpression condition)
  | _ => True
  end.

Definition respectsFunctionDeclaration (d : FunctionDeclaration) : Prop :=
  respects (analyzeFunctionDeclaration d) /\
  match d with
  | mkFunctionDeclaration _ _ _ _ _ _ (Some body) _ _ =>
      respects (analyzeBlockStatement body)
  | _ => True
  end.

Lemma respects_methods :
  (forall e, respects (analyzeExpression e)) /\
  (forall e, respects (analyzeIfExpression e)) /\
  (forall e, respectsElseExpression e) /\
  (forall b, respects (analyzeBlockExpression b)) /\
  (forall a t, respects (analyzeMatchArm a t)) /\
  (forall p : FunctionParameter, True) /\
  (forall f, respectsField f) /\
  (forall b, respectsBinding b) /\
  (forall a, respectsAnnotation a) /\
  (forall s, respects (analyzeStatement s)) /\
  (forall s, respects (analyzeIfStatement s)) /\
  (forall e, respectsElseStatement e) /\
  (forall b, respects (analyzeBlockStatement b)) /\
  (forall d, respectsFunctionDeclaration d) /\
  (forall f : StructField, True).
Proof.
  apply AST_mutind;
    unfold respectsElseExpression, respectsElseStatement, respectsField,
      respectsBinding, respectsAnnotation, respectsFunctionDeclaration in *;
    intros; try exact I;
    try match goal with |- _ /\ _ => split end;
    try exact I; try assumption.
  all: try open_head; open_methods.
  all: try solve [go].
  all: match goal with
       | H : option_all _ ?o |- _ => destruct H; [assumption | exact I]
       end.
Qed.



Lemma respects_analyzeFunctionDeclaration d :
  respects (analyzeFunctionDeclaration d).
Proof. apply respects_methods. Qed.


(** ** The [pure] marker *)





Lemma bind_gets A B (f : Analyzer -> A) (k : A -> M B) st :
  bind (gets f) k st = k (f st) st.
Proof. reflexivity. Qed.




(** ** The effect check of a call *)

(** The diagnostics of a call at [location] to a function with the effects
    [calleeEffects], when [active] is the active effect set: one for each
    effect of the callee that is not active, in order. *)
Definition effectErrors (location : SourceLocation) (active : list jsstring)
    (calleeEffects : list EffectType) : list SemanticError :=
  map (fun eff => mkSemanticError (effect_message (eff_name eff)) location
                    Serror)
    (filter (fun eff => negb (Set_has active (eff_name eff))) calleeEffects).

Lemma set_errors_same st : set_errors (errors st ++ []) st = st.
Proof. destruct st; unfold set_errors; simpl. rewrite app_nil_r. reflexivity. Qed.

Lemma forEach_effect_check location active effs st :
  forEach (fun eff =>
             when (negb (Set_has active (eff_name eff)))
               (error location (effect_message (eff_name eff)))) effs st =
  Ok (tt, set_errors (errors st ++ effectErrors location active effs) st).
Proof.
  unfold effectErrors. revert st.
  induction effs as [|eff effs IH]; intros st; simpl.
  - unfold ret. rewrite set_errors_same. reflexivity.
  - unfold bind. destruct (negb (Set_has active (eff_name eff))); simpl.
    + rewrite IH. unfold set_errors; simpl. rewrite <- app_assoc. reflexivity.
    + apply IH.
Qed.

Lemma checkEffectRequirements_errors location effs st :
  checkEffectRequirements location effs st =
  Ok (tt, set_errors
            (errors st
             ++ effectErrors location (getActiveEffects (symbolTable st)) effs)
            st).
Proof.
  unfold checkEffectRequirements. destruct effs as [|eff effs].
  - unfold ret, effectErrors. simpl. rewrite set_errors_same. reflexivity.
  - rewrite bind_gets. apply forEach_effect_check.
Qed.

(** No diagnostic when every effect of the callee is active. *)
Lemma effectErrors_none location active effs :
  (forall eff, In eff effs -> Set_has active (eff_name eff) = true) ->
  effectErrors location active effs = [].
Proof.
  intros H. unfold effectErrors. induction effs as [|eff effs IH]; simpl.
  - reflexivity.
  - rewrite (H eff (or_introl eq_refl)). simpl.
    apply IH. intros e He. apply H. right. exact He.
Qed.

(** A call of a function: after the callee and the arguments are checked
    (state [st2]), one diagnostic is appended for each effect of the callee
    that is not in the active effect set of [st2]. *)
Lemma analyzeCallExpression_effects location callee arguments genericArgs
    calleeType st st1 st2 :
  analyzeExpression callee st = Ok (function calleeType, st1) ->
  (when (negb (Nat.eqb (List.length arguments)
                 (List.length (ft_parameters calleeType))))
     (error location
        (js "Expected " ++ of_nat (List.length (ft_parameters calleeType))
         ++ js " arguments, got " ++ of_nat (List.length arguments))) ;;
   checkArgumentTypes analyzeExpression arguments
     (ft_parameters calleeType)) st1 = Ok (tt, st2) ->
  exists st3,
    analyzeExpression (CallExpression location callee arguments genericArgs) st
    = Ok (ft_returnType calleeType, st3) /\
    errors st3 =
    errors st2
    ++ effectErrors location (getActiveEffects (symbolTable st2))
         (ft_effects calleeType) /\
    warnings st3 = warnings st2 /\
    symbolTable st3 = symbolTable st2.
Proof.
  intros Hcallee Hargs. rewrite analyzeExpression_eq.
  unfold analyzeExpression_body, analyzeExpression_switch,
    analyzeCallExpression.
  unfold bind in *. rewrite Hcallee.
  destruct (when _ _ st1) as [[[] u]|]; [|discriminate].
  rewrite Hargs. rewrite checkEffectRequirements_errors.
  eexists. split; [reflexivity|]. simpl. auto.
Qed.

Lemma eqb_eq (a b : jsstring) : Js.eqb a b = true <-> a = b.
Proof.
  revert b. induction a as [|x a IH]; intros [|y b]; simpl;
    try (split; [discriminate | discriminate]); [tauto|].
  rewrite andb_true_iff, N.eqb_eq, IH. split.
  - intros [-> ->]. reflexivity.
  - intros H. inversion H. auto.
Qed.

Lemma Set_of_has name xs seen :
  Set_has (Set_of xs seen) name || Set_has seen name
  = Set_has xs name || Set_has seen name.
Proof.
  unfold Set_has. revert seen.
  induction xs as [|x xs IH]; intros seen; simpl; [reflexivity|].
  destruct (Js.eqb name x) eqn:Ex.
  - apply eqb_eq in Ex. subst x.
    destruct (existsb (Js.eqb name) seen) eqn:E; simpl.
    + rewrite !orb_true_r. reflexivity.
    + simpl. rewrite (proj2 (eqb_eq name name) eq_refl). reflexivity.
  - simpl. destruct (existsb (Js.eqb x) seen); simpl; [apply IH|].
    rewrite Ex. simpl. specialize (IH (seen ++ [x])).
    rewrite existsb_app in IH. simpl in IH. rewrite Ex in IH.
    simpl in IH. rewrite !orb_false_r in IH. exact IH.
Qed.

(** On entry of the body of a function declaration, the active effect set
    is the set of the names of its [@effect[...]] annotations. *)
Lemma setEffects_active annotations t name :
  Set_has (getActiveEffects (setEffects (declaredEffects annotations) t)) name
  = Set_has (declaredEffects annotations) name.
Proof.
  unfold getActiveEffects, setEffects. simpl.
  pose proof (Set_of_has name (declaredEffects annotations) []) as G.
  unfold Set_has in *. simpl in G. rewrite !orb_false_r in G. exact G.
Qed.


Import Examples.

(** The diagnostics of a program: its errors and its warnings. *)
Definition diagnostics (p : Program)
    : option (list SemanticError * list SemanticError) :=
  match analyze p with
  | Ok r => Some (ar_errors r, ar_warnings r)
  | Untyped => None
  end.

(** A caller without [@effect[IO]] that calls [log], declared with
    [@effect[IO]], fails checking with one diagnostic, which names [IO]. *)
Lemma caller_without_effect_rejected :
  diagnostics (program [effIO; fnLog; fnMain []]) =
  Some ([mkSemanticError (effect_message (js "IO")) (L 3 21) Serror], []).
Proof. vm_compute. reflexivity. Qed.

(** Adding [@effect[IO]] to the caller removes the diagnostic. *)
Lemma caller_with_effect_accepted :
  diagnostics (program [effIO; fnLog; fnMain [effectIO 3 19]]) = Some ([], []).
Proof. vm_compute. reflexivity. Qed.

(** C5, at the failing input: the method [run] of [impl Logger] declares
    [@effect[IO]] and calls [log], whose only effect is [IO]; the checker
    still reports that effect [IO] is not declared in the current context.
    [analyzeImplDeclaration] never installs the effects a method declares,
    as [analyzeFunctionDeclaration] does. *)
Theorem impl_method_declared_effect_rejected :
  declaredEffects (fd_annotations runDeclaration) = [js "IO"] /\
  diagnostics (program [effIO; fnLog; structLogger; implLogger]) =
  Some ([mkSemanticError (effect_message (js "IO")) (L 4 46) Serror], []).
Proof. split; vm_compute; reflexivity. Qed.

(** The missing case of [typeEquals] for effect types is reached by
    checked programs: with [fn g(io: &IO)], the call [g(io)] of an
    argument declared [io: &IO] is reported. *)
Lemma effect_reference_argument_rejected :
  option_map (fun d => map se_message (fst d))
    (diagnostics (program [effIO; fnG; fnF]))
  = Some [js "Argument type mismatch: expected &effect IO, got &effect IO"].
Proof. vm_compute. reflexivity. Qed.

(** ** The [Unknown] sentinel *)





(** ** Purity *)


End AnalyzerFacts.

(* ================================================================== *)
(** * Facts about the generator *)
(* ================================================================== *)

Module CodegenFacts.

Import AST Codegen Examples.
Open Scope codegen_scope.

(** The lines of [emitRuntimeHelpers], which open the generated text
    when runtime contracts are enabled. *)
Definition runtimeHelpers : list jsstring :=
  match emitRuntimeHelpers
          (new_JavaScriptGenerator
             (Analyzer.mkAnalysisResult [] [] Symbols.new_SymbolTable [])
             DEFAULT_OPTIONS) with
  | Ok (_, g) => output g
  | OutOfFuel => []
  end.

(** The generated text: the helpers, then [lines]. *)
Definition text (lines : list jsstring) : jsstring :=
  join [LF] (runtimeHelpers ++ lines).

(** ** Return statements *)

(** A [return] without a value is emitted as it is, whatever the
    postconditions of the enclosing function. *)
Lemma bare_return_not_instrumented generateDetached generateExpression
    location g :
  generateReturnStatement generateDetached generateExpression location None g
  = emit (js "return;") g.
Proof.
  unfold generateReturnStatement, bind, get.
  destruct (currentFunction g) as [f|]; [|reflexivity].
  destruct (runtimeContracts (options g)); [|reflexivity].
  destruct (getEnsuresAnnotations f); reflexivity.
Qed.

(** [return a / b] in [divide] is instrumented: the value is bound to
    [__result], the postcondition is checked on it, and it is returned. *)
Lemma divide_instrumented analysisResult :
  generateJavaScript 1 divide analysisResult DEFAULT_OPTIONS =
  Ok (text
        [js "function divide(a, b) {";
         js "  __intent.requires((b != 0), " ++ q "b != 0" ++ js ", "
         ++ q "1:1" ++ js ");";
         js "  const __result = (a / b);";
         js "  __intent.ensures(((__result * b) == a), "
         ++ q "result * b == a" ++ js ", " ++ q "4:3" ++ js ");";
         js "  return __result;";
         js "}";
         []]).
Proof. vm_compute. reflexivity. Qed.

(** C1, at the failing input: [inc] has a postcondition and its body
    [x += 2] violates it, but the body has no [return] statement with a
    value, the only place where the generator emits [__intent.ensures]:
    the generated function takes the snapshot of [x] and checks
    nothing. *)
Theorem inc_postcondition_not_checked
    (analysisResult : Analyzer.AnalysisResult) :
  List.length (getEnsuresAnnotations (incDeclaration 2)) = 1 /\
  generateJavaScript 1 (inc 2) analysisResult DEFAULT_OPTIONS =
  Ok (text
        [js "function inc(x) {";
         js "  const __old_x = __intent.clone(x);";
         js "  x += 2;";
         js "}";
         []]).
Proof. split; vm_compute; reflexivity. Qed.

(** ** Pre-state expressions *)

(** The visitor only descends into binary, unary, call, member, index
    and [old] expressions. *)
Lemma traverseExpression_stops_at_quantifier location bindings condition :
  traverseExpression (ForallExpression location bindings condition) =
  [ForallExpression location bindings condition].
Proof. reflexivity. Qed.

(** The name of a snapshot is made from [exprToString], which maps every
    call to the same text: the snapshots of [old(f(x))] and [old(g(y))]
    share one name. *)
Lemma oldName_shared location location' callee callee' arguments arguments' :
  oldName (CallExpression location callee arguments []) =
  oldName (CallExpression location' callee' arguments' []).
Proof. reflexivity. Qed.

(** C2, at the failing input: the postcondition of [keep] is
    [forall i in xs: i >= old(n)]; no pre-state expression is collected
    and no snapshot is taken at entry, while the emitted check reads
    [__old_n]. *)
Theorem old_in_quantifier_not_collected
    (analysisResult : Analyzer.AnalysisResult) :
  getEnsuresAnnotations keepDeclaration = [boundedBelow] /\
  collectOldExpressions keepDeclaration = [] /\
  generateJavaScript 1 keep analysisResult DEFAULT_OPTIONS =
  Ok (text
        [js "function keep(n, xs) {";
         js "  const __result = n;";
         js "  __intent.ensures(xs.every(i => (i >= __old_n)), "
         ++ q "<expr>" ++ js ", " ++ q "1:72" ++ js ");";
         js "  return __result;";
         js "}";
         []]).
Proof. repeat split; vm_compute; reflexivity. Qed.

End CodegenFacts.

(* ================================================================== *)
(** * Facts about the driver ([src/index.ts]) *)
(* ================================================================== *)

Module CompilerFacts.

Import AST Compiler Examples.

Section Phases.

Variable tokenize :
  jsstring -> option jsstring -> run (list Token * list Lexer.LexerError).
Variable parse : list Token -> run (Program * list Parser.ParseError).
Variable analyze : Program -> run Analyzer.AnalysisResult.
Variable generateJavaScript :
  Program -> Analyzer.AnalysisResult -> Codegen.GeneratorOptions -> run jsstring.

Let compile := compile_with tokenize parse analyze generateJavaScript.





(** No phase reads [verifyLevel]: the options handed to the generator
    leave it out. *)
Definition withVerifyLevel (level : VerifyLevel) (options : CompilerOptions)
    : CompilerOptions :=
  mkCompilerOptions (target options) (moduleSystem options)
    (runtimeContracts options) level (sourceMap options) (minify options)
    (stopOnFirstError options).

Lemma compile_verifyLevel level options source filename :
  compile (withVerifyLevel level options) source filename =
  compile options source filename.
Proof. reflexivity. Qed.

End Phases.



(** ** The verification level *)



(** ** The verdict of a run *)




End CompilerFacts.

(* ================================================================== *)
(** * Facts about the symbol table ([src/analyzer/symbols.ts]) *)
(* ================================================================== *)

Module SymbolsFacts.

Import Types Symbols.

(** ** String keys and maps *)

Lemma eqb_refl (a : jsstring) : Js.eqb a a = true.
Proof. apply AnalyzerFacts.eqb_eq. reflexivity. Qed.

Lemma eqb_neq (a b : jsstring) : a <> b -> Js.eqb a b = false.
Proof.
  intros H. destruct (Js.eqb a b) eqn:E; [|reflexivity].
  apply AnalyzerFacts.eqb_eq in E. contradiction.
Qed.

Lemma Map_get_set_same T (m : Map T) k v : Map_get (Map_set m k v) k = Some v.
Proof.
  induction m as [|[k' v'] m IH]; simpl.
  - rewrite eqb_refl. reflexivity.
  - destruct (Js.eqb k' k) eqn:E; simpl; rewrite E; auto.
Qed.

Lemma Map_get_set_other T (m : Map T) k v k' :
  k' <> k -> Map_get (Map_set m k v) k' = Map_get m k'.
Proof.
  intros H. induction m as [|[k0 v0] m IH]; simpl.
  - rewrite eqb_neq; auto.
  - destruct (Js.eqb k0 k) eqn:E; simpl.
    + apply AnalyzerFacts.eqb_eq in E. subst k0. rewrite eqb_neq; auto.
    + destruct (Js.eqb k0 k'); auto.
Qed.

Lemma Map_has_false T (m : Map T) k : Map_has m k = false -> Map_get m k = None.
Proof. unfold Map_has. destruct (Map_get m k); [discriminate | reflexivity]. Qed.

(** ** Definition and lookup *)

(** The symbol that [define] builds from its arguments. *)
Definition symbolOf (name : jsstring) (type : Type_) (kind : SymbolKind)
    (location : SourceLocation) (isMutable isExported : option bool)
    (module : option jsstring) (t : SymbolTable) : Symbol :=
  {| sym_name := name; sym_type := type; sym_kind := kind;
     sym_location := location;
     sym_isMutable := match isMutable with Some b => b | None => false end;
     sym_isExported := match isExported with Some b => b | None => false end;
     sym_module :=
       match module with
       | Some m => m
       | None => Symbols.name (currentScope t)
       end |}.

Lemma define_fresh name type kind location isMutable isExported module
    (t : SymbolTable)
    (Hfree : Map_has (symbols (currentScope t)) name = false) :
  let r := define name type kind location isMutable isExported module t in
  snd r = true /\
  lookup name (fst r)
  = Some (symbolOf name type kind location isMutable isExported module t) /\
  (forall other, other <> name -> lookup other (fst r) = lookup other t) /\
  parents (fst r) = parents t.
Proof.
  unfold define, Scope_define. cbv zeta. cbn [sym_name]. rewrite Hfree.
  cbn [fst snd].
  split; [reflexivity|]. unfold lookup, scope_chain. simpl.
  split; [|split].
  - rewrite Map_get_set_same. reflexivity.
  - intros other Hother. rewrite Map_get_set_other by assumption. reflexivity.
  - reflexivity.
Qed.

(** When [name] is free in the current scope (it may be defined in an
    outer one), [define] succeeds, [lookup] of [name] then finds the new
    symbol, and the lookup of every other name is as before. *)
Theorem define_then_lookup name type kind location isMutable isExported module
    (t : SymbolTable)
    (Hfree : Map_has (symbols (currentScope t)) name = false) :
  let r := define name type kind location isMutable isExported module t in
  snd r = true /\
  lookup name (fst r)
  = Some (symbolOf name type kind location isMutable isExported module t) /\
  (forall other, other <> name -> lookup other (fst r) = lookup other t) /\
  parents (fst r) = parents t.
Proof.
  exact (@define_fresh name type kind location isMutable isExported module t
           Hfree).
Qed.

Lemma define_then_lookup_witness :
  lookup (js "x")
    (fst (define (js "x") (primitive AST.Int) Kvariable (mkLocation 1 5 0 0 None)
            (Some true) None None new_SymbolTable))
  = Some (mkSymbol (js "x") (primitive AST.Int) true false Kvariable
            (mkLocation 1 5 0 0 None) (js "global")).
Proof.
  apply (@define_then_lookup (js "x") (primitive AST.Int) Kvariable
           (mkLocation 1 5 0 0 None) (Some true) None None new_SymbolTable).
  reflexivity.
Defined.

(** When [name] is already defined in the current scope, [define] returns
    [false] and changes nothing: the first definition stays, whatever the
    type and kind of the second. *)
Theorem define_duplicate_rejected name type kind location isMutable isExported
    module (t : SymbolTable)
    (Hdefined : Map_has (symbols (currentScope t)) name = true) :
  define name type kind location isMutable isExported module t = (t, false).
Proof.
  unfold define, Scope_define. cbv zeta. cbn [sym_name]. rewrite Hdefined.
  destruct t; reflexivity.
Qed.

Lemma define_duplicate_rejected_witness :
  let t := fst (define (js "x") (primitive AST.Int) Kvariable
                  (mkLocation 1 5 0 0 None) None None None new_SymbolTable) in
  define (js "x") (primitive AST.Bool) Kfunction (mkLocation 2 1 0 0 None)
    None None None t = (t, false).
Proof.
  cbv zeta.
  apply (@define_duplicate_rejected (js "x") (primitive AST.Bool) Kfunction
           (mkLocation 2 1 0 0 None) None None None).
  reflexivity.
Defined.

(** ** Scopes *)

(** A definition in a scope just entered always succeeds and shadows an
    outer definition of the same name; the other names still resolve to
    the outer scopes; and after [exitScope] every name resolves as before
    the scope was entered. *)
Theorem inner_scope_shadows_and_restores scopeName scopeKind name type kind
    location isMutable isExported module (t : SymbolTable) :
  let inner := enterScope scopeName scopeKind t in
  let r := define name type kind location isMutable isExported module inner in
  snd r = true /\
  lookup name (fst r)
  = Some (symbolOf name type kind location isMutable isExported module inner) /\
  (forall other, other <> name -> lookup other (fst r) = lookup other t) /\
  (forall n, lookup n (exitScope (fst r)) = lookup n t) /\
  (forall n, lookupType n (exitScope (fst r)) = lookupType n t).
Proof.
  cbv zeta.
  destruct (@define_fresh name type kind location isMutable isExported
              module (enterScope scopeName scopeKind t) eq_refl)
    as (Hok & Hnew & Hother & Hparents).
  split; [exact Hok|]. split; [exact Hnew|]. split.
  - intros other Ho. rewrite (Hother other Ho). reflexivity.
  - split; intros n; unfold exitScope; rewrite Hparents; reflexivity.
Qed.

(** [exitScope] never leaves the global scope: with no parent left it
    returns the table as it is, so the chain of scopes is never empty
    and unbalanced exits cannot fail. *)
Lemma exitScope_global (t : SymbolTable) :
  parents t = [] -> exitScope t = t.
Proof. unfold exitScope. intros ->. reflexivity. Qed.

(** ** Effects *)

Lemma Set_of_NoDup xs seen :
  NoDup (Set_of xs seen) /\
  (forall x, In x (Set_of xs seen) -> ~ In x seen).
Proof.
  revert seen. induction xs as [|x xs IH]; intros seen; simpl.
  - split; [constructor | intros ? []].
  - destruct (existsb (Js.eqb x) seen) eqn:E; [apply IH|].
    destruct (IH (seen ++ [x])) as [Hnd Hin]. split.
    + constructor; [|exact Hnd]. intros Hx. apply (Hin x Hx).
      apply in_or_app. right. left. reflexivity.
    + intros y [<-|Hy] Hs.
      * assert (existsb (Js.eqb x) seen = true) as C; [|congruence].
        apply existsb_exists. exists x. split; [exact Hs | apply eqb_refl].
      * apply (Hin y Hy). apply in_or_app. left. exact Hs.
Qed.

(** [setEffects] replaces the active set: afterwards an effect is active
    exactly when it is in the list given, whatever was active before, and
    the set holds no name twice; after [clearEffects] no effect is
    active. *)
Theorem setEffects_replaces (effects : list jsstring) (e : jsstring)
    (t : SymbolTable) :
  hasEffect e (setEffects effects t) = existsb (Js.eqb e) effects /\
  NoDup (getActiveEffects (setEffects effects t)) /\
  hasEffect e (clearEffects t) = false /\
  currentScope (setEffects effects t) = currentScope t /\
  parents (setEffects effects t) = parents t.
Proof.
  split; [|split; [|repeat split]].
  - unfold hasEffect, setEffects. simpl.
    pose proof (AnalyzerFacts.Set_of_has e effects []) as G.
    unfold Set_has in *. simpl in G. rewrite !orb_false_r in G. exact G.
  - unfold getActiveEffects, setEffects. simpl. apply Set_of_NoDup.
Qed.

End SymbolsFacts.

(* ================================================================== *)
(** * Type equality ([typeEquals] of the type system) *)
(* ================================================================== *)

Module TypeEqualityFacts.

Import AST Types.

Scheme Type_mind := Induction for Type_ Sort Prop
  with StructType_mind := Induction for StructType Sort Prop
  with EnumType_mind := Induction for EnumType Sort Prop
  with TraitType_mind := Induction for TraitType Sort Prop
  with FunctionType_mind := Induction for FunctionType Sort Prop
  with ParameterType_mind := Induction for ParameterType Sort Prop
  with TypeVariable_mind := Induction for TypeVariable Sort Prop
  with EffectType_mind := Induction for EffectType Sort Prop
  with CapabilityType_mind := Induction for CapabilityType Sort Prop
  with ContractRef_mind := Induction for ContractRef Sort Prop.

Lemma eqb_sym (a b : jsstring) : Js.eqb a b = Js.eqb b a.
Proof.
  destruct (Js.eqb a b) eqn:E.
  - apply AnalyzerFacts.eqb_eq in E. subst b. symmetry.
    apply SymbolsFacts.eqb_refl.
  - destruct (Js.eqb b a) eqn:E'; [|reflexivity].
    apply AnalyzerFacts.eqb_eq in E'. subst b.
    rewrite SymbolsFacts.eqb_refl in E. discriminate.
Qed.

Lemma PrimitiveName_eqb_sym (n m : PrimitiveName) :
  PrimitiveName_eqb n m = PrimitiveName_eqb m n.
Proof. destruct n, m; reflexivity. Qed.

Lemma option_Z_eqb_sym (a b : option Z) : option_Z_eqb a b = option_Z_eqb b a.
Proof. destruct a, b; simpl; auto using Z.eqb_sym. Qed.

Lemma bool_eqb_sym (a b : bool) : Bool.eqb a b = Bool.eqb b a.
Proof. destruct a, b; reflexivity. Qed.

Definition symmetricAt (a : Type_) : Prop :=
  forall b, typeEquals a b = typeEquals b a.

Ltac other :=
  try match goal with
      | f : FunctionType |- _ = match ?g with _ => _ end =>
          destruct g; reflexivity
      end.

Lemma typeEquals_symmetric_at (a : Type_) : symmetricAt a.
Proof.
  induction a using Type_mind
    with (P0 := fun _ => True) (P1 := fun _ => True) (P2 := fun _ => True)
         (P3 := fun f => symmetricAt (function f))
         (P4 := fun p => symmetricAt (pt_type p))
         (P5 := fun _ => True) (P6 := fun _ => True) (P7 := fun _ => True)
         (P8 := fun _ => True);
    try exact I; try assumption; unfold symmetricAt in *.
  - intros b; destruct b; simpl; other; auto using PrimitiveName_eqb_sym.
  - intros b; destruct b; simpl; other; auto. rewrite (eqb_sym (st_name s)), (eqb_sym (st_module s)).
    reflexivity.
  - intros b; destruct b; simpl; other; auto. rewrite (eqb_sym (en_name e)), (eqb_sym (en_module e)).
    reflexivity.
  - intros b; destruct b; simpl; other; auto. rewrite (eqb_sym (tr_name t)), (eqb_sym (tr_module t)).
    reflexivity.
  - intros b; destruct b; simpl; other; auto. rewrite IHa, option_Z_eqb_sym. reflexivity.
  - intros [ | | | | |eb| | | | | | | | | | | | ]; simpl; other; auto.
    rewrite Nat.eqb_sym. destruct (Nat.eqb _ _) eqn:E; [|reflexivity].
    simpl. apply Nat.eqb_eq in E. revert eb E.
    match goal with
    | H : list_all _ _ |- _ => induction H as [|x Hx xs Hxs IH]
    end; intros [|y ys] E; simpl in *;
      try discriminate; [reflexivity|].
    rewrite Hx, IH by congruence. reflexivity.
  - intros [ | | | | | | |bb ab| | | | | | | | | | ]; simpl; other; auto.
    rewrite IHa, Nat.eqb_sym. destruct (typeEquals bb a); [|reflexivity].
    destruct (Nat.eqb _ _) eqn:E; [|reflexivity].
    simpl. apply Nat.eqb_eq in E. revert ab E.
    match goal with
    | H : list_all _ _ |- _ => induction H as [|x Hx xs Hxs IH]
    end; intros [|y ys] E; simpl in *;
      try discriminate; [reflexivity|].
    rewrite Hx, IH by congruence. reflexivity.
  - intros b; destruct b; simpl; other; auto using Nat.eqb_sym.
  - intros b; destruct b; simpl; other; auto. rewrite IHa, bool_eqb_sym. reflexivity.
  - intros b; destruct b; simpl; other; auto.
  - intros b; destruct b; simpl; other; auto. rewrite IHa1, IHa2. reflexivity.
  - intros b; destruct b; simpl; other; reflexivity.
  - intros b; destruct b; simpl; other; reflexivity.
  - intros b; destruct b; simpl; other; reflexivity.
  - intros b; destruct b; simpl; other; auto using eqb_sym.
  - intros b; destruct b; simpl; other; reflexivity.
  - intros b; destruct b; simpl; other; reflexivity.
  - intros [ | | | | | |[pb rb eb cb kb purb]| | | | | | | | | | | ]; simpl; other; auto.
    rewrite Nat.eqb_sym, IHa, bool_eqb_sym.
    destruct (Nat.eqb _ _) eqn:E; [|reflexivity].
    simpl. apply Nat.eqb_eq in E.
    assert (G : forall qs, List.length qs = List.length parameters ->
              (fix every (ps qs : list ParameterType) {struct ps} : bool :=
                 match ps, qs with
                 | mkParameterType _ t _ :: ps', q :: qs' =>
                     typeEquals t (pt_type q) && every ps' qs'
                 | [], _ => true
                 | _ :: _, [] => false
                 end) parameters qs =
              (fix every (ps qs : list ParameterType) {struct ps} : bool :=
                 match ps, qs with
                 | mkParameterType _ t _ :: ps', q :: qs' =>
                     typeEquals t (pt_type q) && every ps' qs'
                 | [], _ => true
                 | _ :: _, [] => false
                 end) qs parameters).
    { clear E.
      match goal with
      | H : list_all _ parameters |- _ => induction H as [|x Hx xs Hxs IH]
      end; intros [|y ys] E; simpl in *;
        try discriminate; [reflexivity|].
      destruct x as [xn xt xm], y as [yn yt ym]. simpl in *.
      rewrite Hx, IH by congruence. reflexivity. }
    rewrite G by assumption. reflexivity.
Qed.

(** [typeEquals] is symmetric. *)
Theorem typeEquals_symmetric (a b : Type_) : typeEquals a b = typeEquals b a.
Proof. apply typeEquals_symmetric_at. Qed.


(** A type is plain when no effect or capability type stands where
    [typeEquals] compares: the type itself, the element of an array, the
    elements of a tuple, the inner type of a reference or an optional,
    both sides of a result, base and arguments of a generic type,
    parameter types and return type of a function type. *)
Fixpoint plain (t : Type_) : bool :=
  match t with
  | effect _ | capability _ => false
  | array elementType _ => plain elementType
  | tuple elements => forallb plain elements
  | function (mkFunctionType parameters returnType _ _ _ _) =>
      forallb (fun p => plain (pt_type p)) parameters && plain returnType
  | generic base arguments => plain base && forallb plain arguments
  | reference inner _ | optional inner => plain inner
  | result okType errType => plain okType && plain errType
  | _ => true
  end.




End TypeEqualityFacts.
From Stdlib Require Import Sorted.

(* ================================================================== *)
(** * The token list of the scanner *)
(* ================================================================== *)

Module TokenListFacts.

Import Lexer.
Open Scope lexer_scope.

Definition offset (t : Token) : nat := loc_offset (tok_location t).

Definition isInvalid (t : Token) : bool := TokenType_eqb (tok_type t) INVALID.

Definition ordered (ts : list Token) : Prop :=
  StronglySorted (fun a b => offset a <= offset b) ts.

Lemma ordered_snoc (ts : list Token) (t : Token) :
  ordered ts -> Forall (fun a => offset a <= offset t) ts ->
  ordered (ts ++ [t]).
Proof.
  unfold ordered. induction 1 as [|a ts Hs IH Ha]; intros Hall; simpl.
  - constructor; constructor.
  - inversion Hall; subst. constructor; [apply IH; assumption|].
    apply Forall_app. split; [assumption | constructor; [assumption|constructor]].
Qed.

Lemma TokenType_eqb_neq (a b : TokenType) : a <> b -> TokenType_eqb a b = false.
Proof.
  intros H. unfold TokenType_eqb. destruct (TokenType_eq_dec a b); congruence.
Qed.

Lemma TokenType_eqb_refl (a : TokenType) : TokenType_eqb a a = true.
Proof. unfold TokenType_eqb. destruct (TokenType_eq_dec a a); congruence. Qed.

(** The types of the keyword table. *)
Lemma assoc_js_In A (tbl : list (string * A)) k v :
  assoc_js tbl k = Some v -> In v (map snd tbl).
Proof.
  induction tbl as [|[k' v'] tbl IH]; simpl; [discriminate|].
  destruct (Js.eqb (js k') k); [intros H; inversion H; auto | auto].
Qed.

Lemma KEYWORDS_type (text : jsstring) (t : TokenType) :
  KEYWORDS text = Some t -> t <> INVALID /\ t <> EOF.
Proof.
  unfold KEYWORDS. destruct (assoc_js KEYWORDS_table text) as [t'|] eqn:E.
  - intros H. inversion H; subst t'. apply assoc_js_In in E. simpl in E.
    repeat (destruct E as [<-|E]; [split; discriminate|]). destruct E.
  - destruct (existsb _ _); [|discriminate].
    intros H. inversion H. split; discriminate.
Qed.

Section Source.

(** The text being scanned. *)
Variable src : jsstring.

Record Inv (st : Lexer) : Prop := {
  inv_source : source st = src;
  inv_start : start st <= current st;
  inv_bound : Forall (fun t => offset t <= start st) (tokens st);
  inv_ordered : ordered (tokens st);
  inv_count : List.length (filter isInvalid (tokens st))
              = List.length (errors st);
  inv_eof : Forall (fun t => tok_type t <> EOF) (tokens st)
}.

(** [keeps m]: when [m] returns, the invariant holds again; [m] only
    raises an exception when the source has a backslash. *)
Definition keeps {A} (m : M A) : Prop :=
  forall st, Inv st ->
    match m st with
    | Ok (_, st') => Inv st'
    | Throw _ => In BACKSLASH src
    | OutOfFuel => True
    end.

Lemma keeps_ret {A} (a : A) : keeps (ret a).
Proof. intros st H. exact H. Qed.

Lemma keeps_bind {A B} (m : M A) (k : A -> M B) :
  keeps m -> (forall a, keeps (k a)) -> keeps (bind m k).
Proof.
  intros Hm Hk st Hst. unfold bind. specialize (Hm st Hst).
  destruct (m st) as [[a st']| |]; auto. apply Hk. exact Hm.
Qed.

(** After [get], the rest runs from the state that was read. *)
Lemma keeps_bind_get {B} (k : Lexer -> M B) :
  (forall st0, Inv st0 -> keeps (k st0)) -> keeps (bind get k).
Proof. intros Hk st Hst. unfold bind, get. apply Hk; exact Hst. Qed.

Lemma keeps_when (b : bool) (m : M unit) : keeps m -> keeps (when b m).
Proof. destruct b; simpl; auto using keeps_ret. Qed.

Lemma keeps_throw {A} e : In BACKSLASH src -> keeps (@throw A e).
Proof. intros H st Hst. exact H. Qed.

Lemma keeps_loop {A} (cond : A -> Lexer -> bool) (body : A -> M A) :
  (forall a, keeps (body a)) -> forall fuel a, keeps (loop fuel cond body a).
Proof.
  intros Hbody fuel. induction fuel as [|fuel IH]; intros a st Hst; simpl.
  - destruct (cond a st); [exact I | exact Hst].
  - destruct (cond a st); [|exact Hst].
    specialize (Hbody a st Hst). destruct (body a st) as [[a' st']| |]; auto.
    apply IH. exact Hbody.
Qed.

Lemma keeps_while {A} (cond : A -> Lexer -> bool) (body : A -> M A) (a : A) :
  (forall a, keeps (body a)) -> keeps (while cond body a).
Proof. intros Hbody st Hst. unfold while. apply keeps_loop; assumption. Qed.

Ltac inv_simple :=
  let st := fresh "st" in
  intros st [Hsrc Hstart Hbound Hord Hcount Heof];
  repeat match goal with
         | |- context [if ?b then _ else _] => destruct b
         | |- context [match ?x with Some _ => _ | None => _ end] => destruct x
         end;
  simpl; constructor; simpl; auto; lia.

Lemma keeps_advance : keeps advance.
Proof. unfold advance. inv_simple. Qed.

Lemma keeps_match_ (c : N) : keeps (match_ c).
Proof. unfold match_. inv_simple. Qed.

Lemma keeps_newline_inside : keeps newline_inside.
Proof. unfold newline_inside, modify. inv_simple. Qed.

Lemma keeps_newline :
  keeps (modify (fun st =>
           set_lineStart (current st) (set_column 1 (set_line (line st + 1) st)))).
Proof. unfold modify. inv_simple. Qed.

Lemma Inv_push (t : Token) (st : Lexer) :
  Inv st -> offset t = start st -> tok_type t <> INVALID ->
  tok_type t <> EOF -> Inv (push_token t st).
Proof.
  intros [Hsrc Hstart Hbound Hord Hcount Heof] Ho Hi He.
  constructor; simpl; auto.
  - apply Forall_app. split; [assumption|].
    constructor; [rewrite Ho; lia | constructor].
  - apply ordered_snoc; [assumption|]. rewrite Ho. exact Hbound.
  - rewrite filter_app, length_app. simpl. unfold isInvalid at 2.
    rewrite (TokenType_eqb_neq Hi). simpl. lia.
  - apply Forall_app. split; [assumption|]. constructor; [assumption|constructor].
Qed.

Lemma keeps_addToken (ty : TokenType) :
  ty <> INVALID -> ty <> EOF -> keeps (addToken ty).
Proof.
  intros Hi He st Hst. unfold addToken. apply Inv_push; auto.
Qed.

Lemma keeps_addTokenWithLiteral ty lit l c :
  ty <> INVALID -> ty <> EOF -> keeps (addTokenWithLiteral ty lit l c).
Proof.
  intros Hi He st Hst. unfold addTokenWithLiteral.
  apply Inv_push; auto; destruct (file st) as [[|x f]|]; auto.
Qed.

Lemma keeps_error (message : jsstring) : keeps (error message).
Proof.
  intros st [Hsrc Hstart Hbound Hord Hcount Heof]. unfold error, bind, addToken.
  simpl. constructor; simpl; auto.
  - apply Forall_app. split; [assumption|]. constructor; [unfold offset; simpl; lia | constructor].
  - apply ordered_snoc; [assumption|]. exact Hbound.
  - rewrite filter_app, !length_app. simpl. lia.
  - apply Forall_app. split; [assumption|].
    constructor; [simpl; discriminate | constructor].
Qed.


Lemma peek_In (st : Lexer) (c : N) :
  peek st = c -> c <> NUL -> In c (source st).
Proof.
  unfold peek. destruct (isAtEnd st); [congruence|].
  destruct (nth_error (source st) (current st)) eqn:E; [|congruence].
  intros <- _. eapply nth_error_In. exact E.
Qed.

Lemma backslash_seen (st : Lexer) :
  Inv st -> N.eqb (peek st) BACKSLASH = true -> In BACKSLASH src.
Proof.
  intros [Hsrc _ _ _ _ _] H. apply N.eqb_eq in H. rewrite <- Hsrc.
  apply (peek_In st H). discriminate.
Qed.

Ltac type_ok :=
  try discriminate;
  match goal with
  | |- (if ?b then _ else _) <> _ => destruct b; discriminate
  end.

Ltac walk :=
  match goal with
  | H : keeps ?m |- keeps ?m => exact H
  | |- keeps (ret _) => apply keeps_ret
  | |- keeps advance => apply keeps_advance
  | |- keeps (match_ _) => apply keeps_match_
  | |- keeps newline_inside => apply keeps_newline_inside
  | |- keeps (addToken _) => apply keeps_addToken; type_ok
  | |- keeps (addTokenWithLiteral _ _ _ _) =>
      apply keeps_addTokenWithLiteral; type_ok
  | |- keeps (error _) => apply keeps_error
  | |- keeps (when _ _) => apply keeps_when
  | |- keeps (throw _) => apply keeps_throw; assumption
  | |- keeps (bind get _) => apply keeps_bind_get; intros ? ?
  | |- keeps (bind _ _) => apply keeps_bind; [|intros]
  | |- keeps (while _ _ _) => apply keeps_while; intros
  | |- keeps (advanceWhile _) => apply keeps_while; intros
  | |- keeps (if ?b then _ else _) => destruct b eqn:?
  | |- keeps (match ?x with _ => _ end) => destruct x
  end.

Lemma keeps_escapeSequence : In BACKSLASH src -> keeps escapeSequence.
Proof. intros H. unfold escapeSequence. repeat walk. Qed.

Ltac escape :=
  match goal with
  | Hi : Inv ?st, H : N.eqb (peek ?st) BACKSLASH = true
    |- keeps escapeSequence =>
      apply keeps_escapeSequence; exact (backslash_seen Hi H)
  end.

Lemma keeps_blockComment : keeps blockComment.
Proof. unfold blockComment. repeat walk. Qed.

Lemma keeps_string_ : keeps string_.
Proof. unfold string_. repeat first [escape | walk]. Qed.

Lemma keeps_char_ : keeps char_.
Proof. unfold char_. repeat first [escape | walk]. Qed.

Lemma keeps_number : keeps number.
Proof. unfold number. repeat walk. Qed.

Lemma keeps_identifier : keeps identifier.
Proof.
  unfold identifier. apply keeps_bind; [repeat walk|]. intros _.
  apply keeps_bind_get. intros st Hst. cbv zeta.
  repeat walk.
  apply keeps_addToken;
    destruct (KEYWORDS _) as [t|] eqn:E; try discriminate;
    apply (KEYWORDS_type _ E).
Qed.

Lemma keeps_scanToken : keeps scanToken.
Proof.
  unfold scanToken.
  repeat first
    [ apply keeps_blockComment | apply keeps_string_ | apply keeps_char_
    | apply keeps_number | apply keeps_identifier | apply keeps_newline
    | walk ].
Qed.

(** The loop of [tokenize]: before each token the start is moved to the
    cursor. *)
Lemma keeps_scan_loop :
  keeps (while (fun _ st => negb (isAtEnd st))
           (fun _ => modify (fun st => set_start (current st) st) ;; scanToken)
           tt).
Proof.
  apply keeps_while. intros _. apply keeps_bind; [|intros; apply keeps_scanToken].
  intros st [Hsrc Hstart Hbound Hord Hcount Heof]. simpl.
  constructor; simpl; auto.
  eapply Forall_impl; [|exact Hbound]. simpl. intros; lia.
Qed.

End Source.

Lemma loop_exit {A} (cond : A -> Lexer -> bool) (body : A -> M A) fuel a st
    a' st' :
  loop fuel cond body a st = Ok (a', st') -> cond a' st' = false.
Proof.
  revert a st. induction fuel as [|fuel IH]; intros a st; simpl.
  - destruct (cond a st) eqn:E; [discriminate|].
    intros H. inversion H; subst. exact E.
  - destruct (cond a st) eqn:E.
    + destruct (body a st) as [[a1 st1]| |]; try discriminate. apply IH.
    + intros H. inversion H; subst. exact E.
Qed.

Lemma Inv_start (s : jsstring) (f : option jsstring) :
  Inv s (new_Lexer s f).
Proof. constructor; simpl; auto; constructor. Qed.

(** What [tokenize] returns: the tokens scanned up to the end of the
    input, then the end-of-input token. *)
Lemma tokenize_returns (s : jsstring) (f : option jsstring) toks errs :
  tokenize s f = Ok (toks, errs) ->
  exists st,
    Inv s st /\ isAtEnd st = true /\
    toks = tokens st
           ++ [createToken EOF [] (line st) (column st) (current st) LitAbsent]
    /\ errs = errors st.
Proof.
  unfold tokenize, Lexer_tokenize. unfold bind at 1.
  pose proof (@keeps_scan_loop s (new_Lexer s f) (Inv_start s f)) as K.
  destruct (while _ _ _ (new_Lexer s f)) as [[[] st]| |] eqn:E;
    try discriminate.
  simpl. intros H. inversion H; subst toks errs. exists st.
  split; [exact K|]. split; [|split; reflexivity].
  unfold while in E. apply loop_exit in E.
  apply negb_false_iff in E. exact E.
Qed.

(** The token list ends with the one end-of-input token: its value is
    empty, it lies at or beyond the end of the text, and no token before
    it has the type [EOF] or a larger offset. *)
Theorem tokens_end_with_EOF (s : jsstring) (f : option jsstring)
    (toks : list Token) (errs : list LexerError)
    (Hrun : tokenize s f = Ok (toks, errs)) :
  exists init eof,
    toks = init ++ [eof] /\
    tok_type eof = EOF /\ tok_value eof = [] /\
    List.length s <= offset eof /\
    Forall (fun t => tok_type t <> EOF) init /\
    Forall (fun t => offset t <= offset eof) init.
Proof.
  destruct (tokenize_returns _ _ Hrun) as (st & Hi & Hend & -> & _).
  destruct Hi as [Hsrc Hstart Hbound Hord Hcount Heof].
  eexists. eexists. split; [reflexivity|].
  repeat split; auto.
  - unfold offset. simpl. unfold isAtEnd in Hend.
    apply Nat.leb_le in Hend. rewrite Hsrc in Hend. exact Hend.
  - eapply Forall_impl; [|exact Hbound]. unfold offset. simpl. intros; lia.
Qed.

(** The tokens are listed in the order of their offsets. *)
Theorem token_offsets_ordered (s : jsstring) (f : option jsstring)
    (toks : list Token) (errs : list LexerError)
    (Hrun : tokenize s f = Ok (toks, errs)) :
  StronglySorted (fun a b => offset a <= offset b) toks.
Proof.
  destruct (tokenize_returns _ _ Hrun) as (st & Hi & Hend & -> & _).
  destruct Hi as [Hsrc Hstart Hbound Hord Hcount Heof].
  apply ordered_snoc; [exact Hord|].
  eapply Forall_impl; [|exact Hbound]. unfold offset. simpl. intros; lia.
Qed.

Lemma no_invalid_filter (ts : list Token) :
  filter isInvalid ts = [] <-> Forall (fun t => tok_type t <> INVALID) ts.
Proof.
  induction ts as [|t ts IH]; simpl.
  - split; [constructor | reflexivity].
  - unfold isInvalid at 1. destruct (TokenType_eq_dec (tok_type t) INVALID) as [e|n].
    + rewrite e, TokenType_eqb_refl. split; [discriminate|].
      intros H. inversion H; subst. congruence.
    + rewrite (TokenType_eqb_neq n). rewrite IH. split.
      * intros H. constructor; assumption.
      * intros H. inversion H; assumption.
Qed.

(** Every diagnostic comes with one [INVALID] token and every [INVALID]
    token with one diagnostic: their numbers agree, and the list of
    diagnostics is empty exactly when no token is [INVALID]. *)
Theorem errors_counted_by_invalid_tokens (s : jsstring) (f : option jsstring)
    (toks : list Token) (errs : list LexerError)
    (Hrun : tokenize s f = Ok (toks, errs)) :
  List.length errs = List.length (filter isInvalid toks) /\
  (errs = [] <-> Forall (fun t => tok_type t <> INVALID) toks).
Proof.
  destruct (tokenize_returns _ _ Hrun) as (st & Hi & Hend & -> & ->).
  destruct Hi as [Hsrc Hstart Hbound Hord Hcount Heof].
  assert (Hlen : List.length (errors st)
                 = List.length
                     (filter isInvalid
                        (tokens st
                         ++ [createToken EOF [] (line st) (column st)
                               (current st) LitAbsent]))).
  { rewrite filter_app, length_app. simpl. lia. }
  split; [exact Hlen|]. rewrite <- no_invalid_filter.
  split.
  - intros H. rewrite H in Hlen. simpl in Hlen.
    apply length_zero_iff_nil. symmetry. exact Hlen.
  - intros H. rewrite H in Hlen. simpl in Hlen.
    apply length_zero_iff_nil. exact Hlen.
Qed.

Lemma tokenize_plain (s : jsstring) (f : option jsstring)
    (Hplain : ~ In BACKSLASH s) :
  exists toks errs, tokenize s f = Ok (toks, errs).
Proof.
  pose proof (LexerFacts.tokenize_terminates s f) as Hterm.
  pose proof (@keeps_scan_loop s (new_Lexer s f) (Inv_start s f)) as K.
  unfold tokenize, Lexer_tokenize in *. unfold bind at 1. unfold bind at 1 in Hterm.
  destruct (while _ _ _ (new_Lexer s f)) as [[[] st]| |].
  - eexists. eexists. reflexivity.
  - contradiction.
  - contradiction.
Qed.

(** A source text without a backslash is always tokenized: [tokenize]
    returns, it raises no exception. *)
Theorem no_backslash_no_exception (s : jsstring) (f : option jsstring)
    (Hplain : ~ In BACKSLASH s) :
  exists toks errs, tokenize s f = Ok (toks, errs).
Proof. exact (@tokenize_plain s f Hplain). Qed.

(** On every source text the scanner ends: [tokenize] returns its tokens
    and errors, or raises the exception of an escape sequence, and then
    the text holds a backslash. *)
Theorem tokenize_returns_or_throws (s : jsstring) (f : option jsstring) :
  (exists toks errs, tokenize s f = Ok (toks, errs)) \/
  (exists e, tokenize s f = Throw e /\ In BACKSLASH s).
Proof.
  pose proof (LexerFacts.tokenize_terminates s f) as Hterm.
  destruct (in_dec N.eq_dec BACKSLASH s) as [Hin|Hplain].
  - destruct (tokenize s f) as [[toks errs]|e|]; eauto.
    contradiction.
  - left. exact (@tokenize_plain s f Hplain).
Qed.


Lemma tokens_end_with_EOF_witness :
  exists toks errs,
    tokenize LexerFacts.slices_example None = Ok (toks, errs) /\
    exists init eof,
      toks = init ++ [eof] /\
      tok_type eof = EOF /\ tok_value eof = [] /\
      List.length LexerFacts.slices_example <= offset eof /\
      Forall (fun t => tok_type t <> EOF) init /\
      Forall (fun t => offset t <= offset eof) init.
Proof.
  eexists. eexists. split; [vm_compute; reflexivity|].
  eapply (@tokens_end_with_EOF LexerFacts.slices_example None).
  vm_compute. reflexivity.
Defined.

Lemma token_offsets_ordered_witness :
  exists toks errs,
    tokenize LexerFacts.slices_example None = Ok (toks, errs) /\
    StronglySorted (fun a b => offset a <= offset b) toks.
Proof.
  eexists. eexists. split; [vm_compute; reflexivity|].
  eapply (@token_offsets_ordered LexerFacts.slices_example None).
  vm_compute. reflexivity.
Defined.

Lemma errors_counted_by_invalid_tokens_witness :
  exists toks errs,
    tokenize LexerFacts.slices_example None = Ok (toks, errs) /\
    List.length errs = 3 /\
    List.length errs = List.length (filter isInvalid toks).
Proof.
  eexists. eexists. split; [vm_compute; reflexivity|].
  split; [reflexivity|].
  eapply (@errors_counted_by_invalid_tokens LexerFacts.slices_example None).
  vm_compute. reflexivity.
Defined.

Lemma no_backslash_no_exception_witness :
  exists toks errs, tokenize (js "let x = $ 1") None = Ok (toks, errs).
Proof.
  apply no_backslash_no_exception.
  intros H. simpl in H.
  repeat (destruct H as [H|H]; [discriminate H|]). exact H.
Defined.
End TokenListFacts.

(* ================================================================== *)
(** * Facts about the parser's cursor and its error recovery *)
(* ================================================================== *)

Module ParserFacts.

Import AST Parser.

(** The cursor is on a token and the last token is the end of input. *)
Definition wellFormed (p : Parser) : Prop :=
  current p < List.length (tokens p) /\
  exists init eof, tokens p = init ++ [eof] /\ tok_type eof = EOF.

Lemma wellFormed_peek (p : Parser) :
  wellFormed p -> exists t, peek p = Some t.
Proof.
  intros [H _]. unfold peek.
  destruct (nth_error (tokens p) (current p)) eqn:E; [eauto|].
  apply nth_error_None in E. lia.
Qed.

Lemma wellFormed_isAtEnd (p : Parser) :
  wellFormed p -> exists b, isAtEnd p = Some b.
Proof.
  intros H. destruct (wellFormed_peek H) as [t Ht].
  unfold isAtEnd. rewrite Ht. simpl. eauto.
Qed.

(** Away from the end of input there is a next token. *)
Lemma not_at_end_room (p : Parser) :
  wellFormed p -> isAtEnd p = Some false ->
  S (current p) < List.length (tokens p).
Proof.
  intros [Hc (init & eof & Ht & He)] H. unfold isAtEnd, peek in H.
  rewrite Ht in *. rewrite length_app in *. simpl in *.
  destruct (Nat.eq_dec (current p) (List.length init)) as [e|n]; [|lia].
  rewrite e, nth_error_app2, Nat.sub_diag in H by lia. simpl in H.
  rewrite He in H. discriminate.
Qed.

Lemma advance_wellFormed (p : Parser) :
  wellFormed p ->
  exists p', advance p = Some p' /\ wellFormed p' /\
    tokens p' = tokens p /\ errors p' = errors p /\
    current p <= current p' /\
    (isAtEnd p = Some false -> current p' = S (current p)).
Proof.
  intros H. destruct (wellFormed_isAtEnd H) as [b Hb]. unfold advance.
  rewrite Hb. destruct b.
  - exists p. split; [reflexivity|]. split; [exact H|].
    split; [reflexivity|]. split; [reflexivity|]. split; [lia|discriminate].
  - eexists. split; [reflexivity|]. simpl.
    pose proof (not_at_end_room H Hb). destruct H as [_ He].
    split; [split; [simpl; lia | exact He]|].
    split; [reflexivity|]. split; [reflexivity|]. split; [lia|reflexivity].
Qed.

Ltac done_here p :=
  exists p; split; [reflexivity|]; split; [assumption|];
  split; [reflexivity|]; split; [reflexivity|]; split; [lia|].

(** Where [synchronize] stops: at the end of input, after a semicolon,
    or before a token that starts a declaration or a statement. *)
Definition boundary (p : Parser) : Prop :=
  isAtEnd p = Some true \/
  (exists t, previous p = Some t /\ tok_type t = SEMICOLON) \/
  (exists t, peek p = Some t /\ startsDeclaration (tok_type t) = true).

Lemma synchronize_loop_stops fuel (p : Parser) :
  wellFormed p -> 0 < current p ->
  List.length (tokens p) - current p <= fuel + 1 ->
  exists p', synchronize_loop fuel p = Some p' /\ wellFormed p' /\
    tokens p' = tokens p /\ errors p' = errors p /\
    current p <= current p' /\ boundary p'.
Proof.
  revert p. induction fuel as [|fuel IH]; intros p Hwf Hpos Hfuel.
  - destruct (wellFormed_isAtEnd Hwf) as [[] Hb].
    + simpl. rewrite Hb. done_here p. left. exact Hb.
    + pose proof (not_at_end_room Hwf Hb). lia.
  - destruct (wellFormed_isAtEnd Hwf) as [[] Hb]; simpl; rewrite Hb.
    + done_here p. left. exact Hb.
    + destruct (wellFormed_peek Hwf) as [next Hnext]. rewrite Hnext.
      assert (exists prev, previous p = Some prev) as [prev Hprev].
      { unfold previous. destruct (current p) as [|n] eqn:E; [lia|].
        destruct (nth_error (tokens p) n) eqn:E'; [eauto|].
        apply nth_error_None in E'. destruct Hwf as [Hc _]. lia. }
      rewrite Hprev.
      destruct (TokenType_eq_dec (tok_type prev) SEMICOLON) as [e|n].
      { rewrite e, TokenListFacts.TokenType_eqb_refl.
        done_here p. right. left. eauto. }
      rewrite (TokenListFacts.TokenType_eqb_neq n).
      destruct (startsDeclaration (tok_type next)) eqn:Es.
      { done_here p. right. right. eauto. }
      destruct (advance_wellFormed Hwf) as (p1 & Ha & Hwf1 & Ht1 & He1 & Hc1 & Hs1).
      rewrite Ha. specialize (Hs1 Hb).
      destruct (IH p1 Hwf1) as (p' & Hl & Hwf' & Ht' & He' & Hc' & Hb');
        [lia | rewrite Ht1; lia |].
      exists p'. split; [exact Hl|]. split; [exact Hwf'|].
      split; [congruence|]. split; [congruence|]. split; [lia|exact Hb'].
Qed.

Lemma synchronize_wellFormed (p : Parser) (Hwf : wellFormed p) :
  exists p',
    synchronize p = Some p' /\ wellFormed p' /\
    tokens p' = tokens p /\ errors p' = errors p /\
    current p <= current p' /\
    (isAtEnd p = Some false -> current p < current p') /\
    boundary p'.
Proof.
  unfold synchronize.
  destruct (advance_wellFormed Hwf) as (p1 & Ha & Hwf1 & Ht1 & He1 & Hc1 & Hs1).
  rewrite Ha.
  destruct (wellFormed_isAtEnd Hwf) as [[] Hb].
  - (* at the end already: the loop does not run *)
    unfold advance in Ha. rewrite Hb in Ha. inversion Ha; subst p1.
    exists p.
    split; [destruct (List.length (tokens p) - current p); simpl;
            rewrite Hb; reflexivity|].
    split; [exact Hwf|]. split; [reflexivity|]. split; [reflexivity|].
    split; [lia|]. split; [rewrite Hb; discriminate|]. left. exact Hb.
  - specialize (Hs1 Hb).
    destruct (@synchronize_loop_stops (List.length (tokens p1) - current p1) p1)
      as (p' & Hl & Hwf' & Ht' & He' & Hc' & Hb'); auto; try lia.
    exists p'. split; [exact Hl|]. split; [exact Hwf'|].
    split; [congruence|]. split; [congruence|]. split; [lia|].
    split; [intros; lia | exact Hb'].
Qed.

(** [synchronize] cannot fail on a well-formed parser: it leaves the
    tokens and the diagnostics as they are, moves the cursor forward
    (by at least one token unless it already was at the end of input)
    and stops at a boundary. *)
Theorem synchronize_stops_at_boundary (p : Parser) (Hwf : wellFormed p) :
  exists p',
    synchronize p = Some p' /\ wellFormed p' /\
    tokens p' = tokens p /\ errors p' = errors p /\
    current p <= current p' /\
    (isAtEnd p = Some false -> current p < current p') /\
    boundary p'.
Proof. exact (synchronize_wellFormed Hwf). Qed.

Definition recoveryExample : Parser :=
  mkParser
    [createToken IDENTIFIER (js "a") 1 1 0 LitAbsent;
     createToken SEMICOLON (js ";") 1 2 1 LitAbsent;
     createToken IDENTIFIER (js "b") 1 3 2 LitAbsent;
     createToken EOF [] 1 4 3 LitAbsent] 0 [].

Lemma synchronize_stops_at_boundary_witness :
  exists p',
    synchronize recoveryExample = Some p' /\ current p' = 2 /\ boundary p'.
Proof.
  destruct (@synchronize_stops_at_boundary recoveryExample)
    as (p' & Hs & _ & _ & _ & _ & _ & Hb).
  - split; [simpl; lia|].
    exists (firstn 3 (tokens recoveryExample)),
           (createToken EOF [] 1 4 3 LitAbsent).
    split; reflexivity.
  - exists p'. split; [exact Hs|]. split; [|exact Hb].
    vm_compute in Hs. inversion Hs. reflexivity.
Defined.

(** ** From the scanner to the parser *)

Lemma filter_valid_last (init : list Token) (eof : Token) :
  tok_type eof = EOF ->
  filter (fun t => negb (TokenType_eqb (tok_type t) INVALID)) (init ++ [eof])
  = filter (fun t => negb (TokenType_eqb (tok_type t) INVALID)) init ++ [eof].
Proof. intros H. rewrite filter_app. simpl. rewrite H. reflexivity. Qed.

Lemma new_Parser_wellFormed (init : list Token) (eof : Token) :
  tok_type eof = EOF -> wellFormed (new_Parser (init ++ [eof])).
Proof.
  intros H. unfold new_Parser, wellFormed. simpl.
  rewrite (@filter_valid_last init eof H). split.
  - rewrite length_app. simpl. lia.
  - eauto.
Qed.


(** The parser built on the tokens of any scanned text is well formed:
    its token list ends with the end of input, holds no [INVALID] token,
    and its cursor is on a token, so that [isAtEnd] and [peek] are
    defined. *)
Theorem scanned_tokens_well_formed (s : jsstring) (f : option jsstring)
    (toks : list Token) (errs : list Lexer.LexerError)
    (Hrun : Lexer.tokenize s f = Lexer.Ok (toks, errs)) :
  wellFormed (new_Parser toks) /\
  Forall (fun t => tok_type t <> INVALID) (tokens (new_Parser toks)) /\
  (exists b, isAtEnd (new_Parser toks) = Some b).
Proof.
  destruct (TokenListFacts.tokenize_returns _ _ Hrun) as (st & _ & _ & -> & _).
  assert (W : wellFormed
                (new_Parser
                   (Lexer.tokens st
                    ++ [createToken EOF [] (Lexer.line st) (Lexer.column st)
                          (Lexer.current st) LitAbsent])))
    by (apply new_Parser_wellFormed; reflexivity).
  split; [exact W|]. split; [|apply wellFormed_isAtEnd; exact W].
  unfold new_Parser. simpl. apply Forall_forall. intros t Ht.
  apply filter_In in Ht. destruct Ht as [_ Ht]. intros E. rewrite E in Ht.
  rewrite TokenListFacts.TokenType_eqb_refl in Ht. discriminate.
Qed.

Lemma scanned_tokens_well_formed_witness :
  exists toks errs,
    Lexer.tokenize LexerFacts.slices_example None = Lexer.Ok (toks, errs) /\
    wellFormed (new_Parser toks).
Proof.
  eexists. eexists. split; [vm_compute; reflexivity|].
  eapply (@scanned_tokens_well_formed LexerFacts.slices_example None).
  vm_compute. reflexivity.
Defined.

(** ** The loop of [parse] *)

Section Grammar.

Variable declaration : Parser -> production (option Statement).

(** What is assumed of the productions: they end, they leave the parser
    well formed with the same tokens, they do not move the cursor back,
    and they consume a token when they succeed. *)
Definition productive : Prop :=
  forall p, wellFormed p ->
    match declaration p with
    | Parsed _ p' =>
        wellFormed p' /\ tokens p' = tokens p /\ current p < current p'
    | Failed p' =>
        wellFormed p' /\ tokens p' = tokens p /\ current p <= current p'
    | Diverges => False
    end.

Lemma isAtEnd_cursor (p p' : Parser) :
  tokens p' = tokens p -> current p' = current p -> isAtEnd p' = isAtEnd p.
Proof. intros Ht Hc. unfold isAtEnd, peek. rewrite Ht, Hc. reflexivity. Qed.

Lemma parse_loop_returns (Hdecl : productive) fuel statements (p : Parser) :
  wellFormed p -> List.length (tokens p) - current p <= fuel + 1 ->
  exists statements' p',
    parse_loop declaration fuel statements p = Returns (statements', p') /\
    isAtEnd p' = Some true /\ tokens p' = tokens p.
Proof.
  revert statements p.
  induction fuel as [|fuel IH]; intros statements p Hwf Hfuel.
  - destruct (wellFormed_isAtEnd Hwf) as [[] Hb]; simpl; rewrite Hb.
    + eauto.
    + pose proof (not_at_end_room Hwf Hb). lia.
  - destruct (wellFormed_isAtEnd Hwf) as [[] Hb]; simpl; rewrite Hb.
    + eauto.
    + pose proof (not_at_end_room Hwf Hb) as Hroom.
      specialize (Hdecl p Hwf).
      destruct (declaration p) as [[stmt|] p1|p1|].
      * destruct Hdecl as (Hwf1 & Ht1 & Hc1).
        destruct (IH (statements ++ [stmt]) p1 Hwf1) as (ss & p' & Hr & He & Ht);
          [rewrite Ht1; lia|].
        exists ss, p'. repeat split; congruence.
      * destruct Hdecl as (Hwf1 & Ht1 & Hc1).
        destruct (IH statements p1 Hwf1) as (ss & p' & Hr & He & Ht);
          [rewrite Ht1; lia|].
        exists ss, p'. repeat split; congruence.
      * destruct Hdecl as (Hwf1 & Ht1 & Hc1).
        destruct (synchronize_wellFormed Hwf1)
          as (p2 & Hs & Hwf2 & Ht2 & He2 & Hc2 & Hprog & _).
        rewrite Hs.
        assert (current p < current p2) as Hlt.
        { destruct (wellFormed_isAtEnd Hwf1) as [[] Hb1].
          - destruct (Nat.eq_dec (current p1) (current p)) as [e|n]; [|lia].
            rewrite (isAtEnd_cursor p p1 Ht1 e) in Hb1. congruence.
          - specialize (Hprog Hb1). lia. }
        destruct (IH statements p2 Hwf2) as (ss & p' & Hr & He & Ht);
          [rewrite Ht2, Ht1; lia|].
        exists ss, p'. repeat split; congruence.
      * contradiction.
Qed.



(** With productive productions, [parse] returns on every well-formed
    token list, within as many iterations as there are tokens: every
    exception of a production is caught and followed by [synchronize],
    which moves the cursor on, so the loop neither raises nor runs
    forever. *)
Theorem parse_recovers_and_returns (tokens : list Token)
    (Hdecl : productive) (Hwf : wellFormed (new_Parser tokens)) :
  exists program errors,
    parse declaration (List.length tokens) tokens = Returns (program, errors).
Proof.
  unfold parse, Parser_parse.
  destruct (@parse_loop_returns Hdecl (List.length tokens) [] (new_Parser tokens))
    as (ss & p' & Hr & _ & _); [exact Hwf| |].
  - unfold new_Parser. simpl.
    pose proof (filter_length_le
                  (fun t => negb (TokenType_eqb (tok_type t) INVALID)) tokens).
    lia.
  - rewrite Hr. eauto.
Qed.

End Grammar.

Lemma parse_recovers_and_returns_witness :
  exists program errors,
    parse (fun p => Failed p) 3
      [createToken IDENTIFIER (js "a") 1 1 0 LitAbsent;
       createToken INVALID (js "$") 1 2 1 LitAbsent;
       createToken EOF [] 1 3 2 LitAbsent]
    = Returns (program, errors).
Proof.
  apply (@parse_recovers_and_returns (fun p => Failed p)
           [createToken IDENTIFIER (js "a") 1 1 0 LitAbsent;
            createToken INVALID (js "$") 1 2 1 LitAbsent;
            createToken EOF [] 1 3 2 LitAbsent]).
  - intros p Hwf. split; [exact Hwf|]. split; [reflexivity|lia].
  - apply (@new_Parser_wellFormed
             [createToken IDENTIFIER (js "a") 1 1 0 LitAbsent;
              createToken INVALID (js "$") 1 2 1 LitAbsent]
             (createToken EOF [] 1 3 2 LitAbsent)).
    reflexivity.
Defined.
End ParserFacts.

(* ================================================================== *)
(** * Invariants of the checker's state *)
(* ================================================================== *)

Module AnalyzerInvariants.

Import AST Types Symbols Analyzer AnalyzerFacts.
Open Scope analyzer_scope.

(** [l'] is [l] with more elements at its end. *)
Definition prefix {X} (l l' : list X) : Prop := exists more, l' = l ++ more.

Lemma prefix_refl X (l : list X) : prefix l l.
Proof. exists []. symmetry. apply app_nil_r. Qed.

Lemma prefix_trans X (a b c : list X) : prefix a b -> prefix b c -> prefix a c.
Proof.
  intros [x ->] [y ->]. exists (x ++ y). rewrite app_assoc. reflexivity.
Qed.

Lemma prefix_snoc X (l : list X) (x : X) : prefix l (l ++ [x]).
Proof. exists [x]. reflexivity. Qed.

(** The scopes around the current one, innermost first. *)
Definition outer (st : Analyzer) : list Scope := parents (symbolTable st).

Definition current (st : Analyzer) : Scope := currentScope (symbolTable st).

(** From [st] to [st'] the diagnostics and the type map have only grown
    at their ends and no identifier of a type variable is issued twice. *)
Record grows (st st' : Analyzer) : Prop := mkGrows {
  grows_errors : prefix (errors st) (errors st');
  grows_warnings : prefix (warnings st) (warnings st');
  grows_typeMap : prefix (typeMap st) (typeMap st');
  grows_counter : typeVarCounter st <= typeVarCounter st'
}.

Lemma grows_refl st : grows st st.
Proof. constructor; auto using prefix_refl. Qed.

Lemma grows_trans a b c : grows a b -> grows b c -> grows a c.
Proof.
  intros [] []. constructor; eauto using prefix_trans. lia.
Qed.

(** [steady m]: [m] only grows the state and leaves the outer scopes as
    they are. *)
Definition steady {A} (m : M A) : Prop :=
  forall st a st', m st = Ok (a, st') -> grows st st' /\ outer st' = outer st.

(** [still m]: as [steady], and the current scope is left as it is. *)
Definition still {A} (m : M A) : Prop :=
  forall st a st', m st = Ok (a, st') ->
    grows st st' /\ outer st' = outer st /\ current st' = current st.

(** [closing m]: [m] only grows the state and, started inside a scope,
    leaves it: the innermost outer scope is the current one again. *)
Definition closing {A} (m : M A) : Prop :=
  forall st a st' p ps, m st = Ok (a, st') -> outer st = p :: ps ->
    grows st st' /\ current st' = p /\ outer st' = ps.

Lemma still_steady A (m : M A) : still m -> steady m.
Proof. intros H st a st' E. destruct (H _ _ _ E) as (? & ? & ?). auto. Qed.

Lemma steady_ret A (a : A) : steady (ret a).
Proof.
  intros st b st' H. inversion H; subst. split; [apply grows_refl|reflexivity].
Qed.

Lemma still_ret A (a : A) : still (ret a).
Proof.
  intros st b st' H. inversion H; subst.
  split; [apply grows_refl|split; reflexivity].
Qed.

Lemma steady_untyped A : steady (@untyped A).
Proof. intros st b st' H. discriminate. Qed.

Lemma steady_bind A B (m : M A) (k : A -> M B) :
  steady m -> (forall a, steady (k a)) -> steady (bind m k).
Proof.
  intros Hm Hk st b st'. unfold bind.
  destruct (m st) as [[a st1]|] eqn:E; [|discriminate].
  intros H. destruct (Hm _ _ _ E) as [G1 D1].
  destruct (Hk a _ _ _ H) as [G2 D2].
  split; [eapply grows_trans; eauto | congruence].
Qed.

Lemma still_bind A B (m : M A) (k : A -> M B) :
  still m -> (forall a, still (k a)) -> still (bind m k).
Proof.
  intros Hm Hk st b st'. unfold bind.
  destruct (m st) as [[a st1]|] eqn:E; [|discriminate].
  intros H. destruct (Hm _ _ _ E) as (G1 & D1 & C1).
  destruct (Hk a _ _ _ H) as (G2 & D2 & C2).
  split; [eapply grows_trans; eauto | split; congruence].
Qed.

Lemma closing_bind_steady A B (m : M A) (k : A -> M B) :
  steady m -> (forall a, closing (k a)) -> closing (bind m k).
Proof.
  intros Hm Hk st b st' p ps. unfold bind.
  destruct (m st) as [[a st1]|] eqn:E; [|discriminate].
  intros H Hd. destruct (Hm _ _ _ E) as [G1 D1].
  destruct (Hk a _ _ _ p ps H) as (G2 & C2 & D2); [congruence|].
  split; [eapply grows_trans; eauto | split; congruence].
Qed.

Lemma closing_bind_exit B (k : unit -> M B) :
  (forall a, still (k a)) -> closing (bind (withTable exitScope) k).
Proof.
  intros Hk st b st' p ps. unfold bind, withTable, modify. intros H Hd.
  destruct (Hk tt _ _ _ H) as (G & D & C). split.
  - eapply grows_trans; [|exact G]. constructor; simpl; auto using prefix_refl.
  - rewrite D, C. unfold outer, current in *. simpl. unfold exitScope.
    rewrite Hd. simpl. split; reflexivity.
Qed.

(** A scope that is entered and left again: the whole chain of scopes is
    as before. *)
Lemma still_bind_enter B name kind (k : unit -> M B) :
  (forall a, closing (k a)) -> still (bind (withTable (enterScope name kind)) k).
Proof.
  intros Hk st b st'. unfold bind, withTable, modify. intros H.
  destruct (Hk tt _ _ _ (current st) (outer st) H) as (G & C & D);
    [reflexivity|].
  split; [|split; assumption].
  eapply grows_trans; [|exact G]. constructor; simpl; auto using prefix_refl.
Qed.

Lemma steady_bind_enter B name kind (k : unit -> M B) :
  (forall a, closing (k a)) -> steady (bind (withTable (enterScope name kind)) k).
Proof. intros H. apply still_steady, still_bind_enter, H. Qed.

Lemma steady_gets A (f : Analyzer -> A) : steady (gets f).
Proof.
  intros st a st' H. inversion H; subst. split; [apply grows_refl|reflexivity].
Qed.

Lemma still_modify (f : Analyzer -> Analyzer) :
  (forall st, grows st (f st) /\ outer (f st) = outer st
              /\ current (f st) = current st) ->
  still (modify f).
Proof. intros Hf st a st' H. inversion H; subst. apply Hf. Qed.

Lemma steady_modify (f : Analyzer -> Analyzer) :
  (forall st, grows st (f st) /\ outer (f st) = outer st
              /\ current (f st) = current st) ->
  steady (modify f).
Proof. intros Hf. apply still_steady, still_modify, Hf. Qed.

Ltac grows_tac :=
  intros ?; split;
  [ constructor; simpl; auto using prefix_refl, prefix_snoc
  | split; reflexivity ].

Lemma still_effects f :
  (forall t, parents (f t) = parents t /\ currentScope (f t) = currentScope t) ->
  still (withTable f).
Proof.
  intros Hf. apply still_modify. intros st. split.
  - constructor; simpl; auto using prefix_refl.
  - unfold outer, current. simpl. apply Hf.
Qed.

Lemma steady_error l m : steady (error l m).
Proof. apply steady_modify. grows_tac. Qed.

Lemma steady_warning l m : steady (warning l m).
Proof. apply steady_modify. grows_tac. Qed.

Lemma steady_withTable f :
  (forall t, parents (f t) = parents t) -> steady (withTable f).
Proof.
  intros Hf st a st' H. inversion H; subst. split.
  - constructor; simpl; auto using prefix_refl.
  - unfold outer. simpl. apply Hf.
Qed.

Lemma steady_st_define n ty k l mu ex md : steady (st_define n ty k l mu ex md).
Proof.
  apply steady_withTable. intros t. unfold define.
  destruct (Scope_define _ _). reflexivity.
Qed.

Lemma steady_st_defineType n ty : steady (st_defineType n ty).
Proof.
  apply steady_withTable. intros t. unfold defineType.
  destruct (Scope_defineType _ _ _). reflexivity.
Qed.

Lemma steady_createTypeVariable n b : steady (createTypeVariable n b).
Proof.
  intros st a st' H. unfold createTypeVariable in H. inversion H; subst.
  split; [|reflexivity]. constructor; simpl; auto using prefix_refl.
Qed.

Lemma steady_when b m : steady m -> steady (when b m).
Proof. intros H. destruct b; [exact H | apply steady_ret]. Qed.

Lemma steady_mapM X Y (f : X -> M Y) l :
  (forall x, In x l -> steady (f x)) -> steady (mapM f l).
Proof.
  induction l as [|x l IH]; intros H; simpl.
  - apply steady_ret.
  - apply steady_bind; [apply H; left; reflexivity|]. intros y.
    apply steady_bind; [apply IH; intros; apply H; right; assumption|].
    intros ys. apply steady_ret.
Qed.

Lemma steady_forEach X (f : X -> M unit) l :
  (forall x, In x l -> steady (f x)) -> steady (forEach f l).
Proof.
  induction l as [|x l IH]; intros H; simpl.
  - apply steady_ret.
  - apply steady_bind; [apply H; left; reflexivity|]. intros _.
    apply IH; intros; apply H; right; assumption.
Qed.

Lemma steady_forEach2 X Y (f : X -> Y -> M unit) xs ys :
  (forall x y, In x xs -> steady (f x y)) -> steady (forEach2 f xs ys).
Proof.
  revert ys. induction xs as [|x xs IH]; intros ys H; simpl.
  - apply steady_ret.
  - destruct ys as [|y ys]; [apply steady_ret|].
    apply steady_bind; [apply H; left; reflexivity|]. intros _.
    apply IH; intros; apply H; right; assumption.
Qed.

Lemma steady_foldM X S (f : S -> X -> M S) l :
  (forall a x, In x l -> steady (f a x)) -> forall a, steady (foldM f a l).
Proof.
  induction l as [|x l IH]; intros H a; simpl.
  - apply steady_ret.
  - apply steady_bind; [apply H; left; reflexivity|]. intros a'.
    apply IH; intros; apply H; right; assumption.
Qed.


Lemma still_gets A (f : Analyzer -> A) : still (gets f).
Proof.
  intros st a st' H. inversion H; subst.
  split; [apply grows_refl|split; reflexivity].
Qed.

Lemma still_error l m : still (error l m).
Proof. apply still_modify. grows_tac. Qed.

Lemma still_mapM X Y (f : X -> M Y) l :
  (forall x, In x l -> still (f x)) -> still (mapM f l).
Proof.
  induction l as [|x l IH]; intros H; simpl.
  - apply still_ret.
  - apply still_bind; [apply H; left; reflexivity|]. intros y.
    apply still_bind; [apply IH; intros; apply H; right; assumption|].
    intros ys. apply still_ret.
Qed.

(** Resolving a type expression reads the table and may report unknown
    names; it defines nothing. *)
Lemma still_resolveType t : still (resolveType t).
Proof.
  induction t; simpl;
    repeat first
      [ assumption
      | apply still_ret | apply still_gets | apply still_error
      | apply still_bind; [|intros ?]
      | match goal with
        | |- still (match ?x with _ => _ end) => destruct x
        | |- still (mapM _ _) => apply still_mapM; intros ? ?; all_in
        end ].
Qed.

Ltac steady_step :=
  match goal with
  | H : steady ?m |- steady ?m => exact H
  | H : forall t, steady (?f t) |- steady (?f _) => apply H
  | |- steady (bind (withTable (enterScope _ _)) _) =>
      apply steady_bind_enter; intros ?
  | |- steady (bind _ _) => apply steady_bind; [| intros ?]
  | |- closing (bind (withTable exitScope) _) =>
      apply closing_bind_exit; intros ?
  | |- still (bind (withTable (enterScope _ _)) _) =>
      apply still_bind_enter; intros ?
  | |- still (bind _ _) => apply still_bind; [| intros ?]
  | |- still (gets _) => apply still_gets
  | |- still (ret _) => apply still_ret
  | |- still (resolveType _) => apply still_resolveType
  | |- still (withTable _) => apply still_effects; intros ?; split; reflexivity
  | |- still (modify _) => apply still_modify; grows_tac
  | |- still (match ?x with _ => _ end) => destruct x
  | |- closing (bind _ _) => apply closing_bind_steady; [| intros ?]
  | |- steady (ret _) => apply steady_ret
  | |- steady untyped => apply steady_untyped
  | |- steady (when _ _) => apply steady_when
  | |- steady (error _ _) => apply steady_error
  | |- steady (warning _ _) => apply steady_warning
  | |- steady (st_define _ _ _ _ _ _ _) => apply steady_st_define
  | |- steady (st_defineType _ _) => apply steady_st_defineType
  | |- steady (withTable _) => apply steady_withTable; reflexivity
  | |- steady (createTypeVariable _ _) => apply steady_createTypeVariable
  | |- steady (gets _) => apply steady_gets
  | |- steady (modify _) => apply steady_modify; grows_tac
  | |- steady (match ?x with _ => _ end) => destruct x
  | |- closing (match ?x with _ => _ end) => destruct x
  end.

Ltac steady_list :=
  match goal with
  | |- steady (mapM _ _) => apply steady_mapM; intros ? ?
  | |- steady (forEach _ _) => apply steady_forEach; intros ? ?
  | |- steady (forEach2 _ _ _) => apply steady_forEach2; intros ? ? ?
  | |- steady (foldM _ _ _) => apply steady_foldM; intros ? ? ?
  end.

Ltac steady_basic := cbv beta zeta; repeat (steady_step; cbv beta zeta).

Lemma steady_resolveType t : steady (resolveType t).
Proof.
  induction t; simpl; steady_basic; steady_list; all_in; assumption.
Qed.

Lemma steady_analyzePattern p : forall t, steady (analyzePattern p t).
Proof.
  induction p using Pattern_mind
    with (P0 := fun f =>
            match f with
            | mkStructPatternField _ _ p =>
                forall t, steady (analyzePattern p t)
            end); intros; simpl; steady_basic; try steady_list; try all_in;
    steady_basic.
Qed.

Lemma steady_analyzeIdentifier i : steady (analyzeIdentifier i).
Proof.
  unfold analyzeIdentifier. steady_basic; apply steady_resolveType.
Qed.

Lemma steady_checkEffectRequirements l effs :
  steady (checkEffectRequirements l effs).
Proof.
  unfold checkEffectRequirements. steady_basic.
  apply steady_forEach. intros; steady_basic.
Qed.

Ltac steady_known :=
  match goal with
  | |- steady (resolveType _) => apply steady_resolveType
  | |- steady (analyzePattern _ _) => apply steady_analyzePattern
  | |- steady (analyzeIdentifier _) => apply steady_analyzeIdentifier
  | |- steady (checkEffectRequirements _ _) =>
      apply steady_checkEffectRequirements
  | H : _ /\ _ |- _ => destruct H
  | H : True |- _ => clear H
  | H : list_all _ (_ :: _) |- _ => inversion H; clear H; subst
  | H : option_all _ (Some _) |- _ => apply option_all_Some in H
  end.

Ltac steady_go :=
  repeat (cbv beta iota zeta in *;
          first [ steady_step | steady_known | steady_list; try all_in ]).

Ltac steady_head :=
  match goal with
  | |- steady (analyzeExpression _) => rewrite analyzeExpression_eq
  | |- steady (analyzeStatement _) => rewrite analyzeStatement_eq
  | |- steady (analyzeAnnotation _) => rewrite analyzeAnnotation_eq
  | |- steady (analyzeFunctionDeclaration _) =>
      rewrite analyzeFunctionDeclaration_eq
  | |- steady (analyzeIfExpression _) => rewrite analyzeIfExpression_eq
  | |- steady (analyzeBlockExpression _) => rewrite analyzeBlockExpression_eq
  | |- steady (analyzeMatchArm _ _) => rewrite analyzeMatchArm_eq
  | |- steady (analyzeIfStatement _) => rewrite analyzeIfStatement_eq
  | |- steady (analyzeBlockStatement _) => rewrite analyzeBlockStatement_eq
  end.

Definition steadyElseExpression (e : ElseExpression) : Prop :=
  match e with
  | ElseBlockExpression b => steady (analyzeBlockExpression b)
  | ElseIfExpression e => steady (analyzeIfExpression e)
  | NoElseExpression => True
  end.

Definition steadyElseStatement (e : ElseStatement) : Prop :=
  match e with
  | ElseBlock b => steady (analyzeBlockStatement b)
  | ElseIf s => steady (analyzeIfStatement s)
  | NoElse => True
  end.

Definition steadyField (f : StructExpressionField) : Prop :=
  match f with
  | mkStructExpressionField _ _ value => steady (analyzeExpression value)
  end.

Definition steadyBinding (b : ForallBinding) : Prop :=
  match b with
  | mkForallBinding _ _ (Some range) => steady (analyzeExpression range)
  | mkForallBinding _ _ None => True
  end.

Definition steadyAnnotation (a : Annotation) : Prop :=
  steady (analyzeAnnotation a) /\
  match a with
  | InvariantAnnotation _ condition => steady (analyzeExpression condition)
  | _ => True
  end.

Definition steadyFunctionDeclaration (d : FunctionDeclaration) : Prop :=
  steady (analyzeFunctionDeclaration d) /\
  match d with
  | mkFunctionDeclaration _ _ _ _ _ _ (Some body) _ _ =>
      steady (analyzeBlockStatement body)
  | _ => True
  end.

Lemma steady_methods :
  (forall e, steady (analyzeExpression e)) /\
  (forall e, steady (analyzeIfExpression e)) /\
  (forall e, steadyElseExpression e) /\
  (forall b, steady (analyzeBlockExpression b)) /\
  (forall a t, steady (analyzeMatchArm a t)) /\
  (forall p : FunctionParameter, True) /\
  (forall f, steadyField f) /\
  (forall b, steadyBinding b) /\
  (forall a, steadyAnnotation a) /\
  (forall s, steady (analyzeStatement s)) /\
  (forall s, steady (analyzeIfStatement s)) /\
  (forall e, steadyElseStatement e) /\
  (forall b, steady (analyzeBlockStatement b)) /\
  (forall d, steadyFunctionDeclaration d) /\
  (forall f : StructField, True).
Proof.
  apply AST_mutind;
    unfold steadyElseExpression, steadyElseStatement, steadyField,
      steadyBinding, steadyAnnotation, steadyFunctionDeclaration in *;
    intros; try exact I;
    try match goal with |- _ /\ _ => split end;
    try exact I; try assumption.
  all: try steady_head; open_methods.
  all: try solve [steady_go].
  all: match goal with
       | H : option_all _ ?o |- _ => destruct H; [assumption | exact I]
       end.
Qed.

Lemma steady_analyzeStatement s : steady (analyzeStatement s).
Proof. apply steady_methods. Qed.

Lemma steady_analyzeExpression e : steady (analyzeExpression e).
Proof. apply steady_methods. Qed.

Lemma steady_analyzeAnnotation a : steady (analyzeAnnotation a).
Proof. apply steady_methods. Qed.

Lemma steady_analyzeBlockStatement b : steady (analyzeBlockStatement b).
Proof. apply steady_methods. Qed.

(** Checking a statement never removes or reorders what is recorded:
    the errors, the warnings and the type map it leaves are those it found
    with more at the end, the counter of type variables has not gone back,
    and the scopes around the current one are untouched. *)
Theorem statement_analysis_only_appends (s : Statement) (st st' : Analyzer)
    (t : Type_) (Hrun : analyzeStatement s st = Ok (t, st')) :
  prefix (errors st) (errors st') /\
  prefix (warnings st) (warnings st') /\
  prefix (typeMap st) (typeMap st') /\
  typeVarCounter st <= typeVarCounter st' /\
  parents (symbolTable st') = parents (symbolTable st).
Proof.
  destruct (steady_analyzeStatement s _ Hrun) as [[] Ho]. auto.
Qed.

Lemma statement_analysis_only_appends_witness :
  exists t st',
    analyzeStatement Examples.letNope new_SemanticAnalyzer = Ok (t, st') /\
    prefix (errors new_SemanticAnalyzer) (errors st') /\
    List.length (errors st') = 2.
Proof.
  destruct (analyzeStatement Examples.letNope new_SemanticAnalyzer)
    as [[t st']|] eqn:E.
  - exists t, st'. split; [reflexivity|]. split.
    + apply (@statement_analysis_only_appends Examples.letNope
               new_SemanticAnalyzer st' t E).
    + vm_compute in E. inversion E. reflexivity.
  - vm_compute in E. discriminate E.
Defined.

(** The same for an expression, whose type is the last entry of the
    type map. *)
Lemma expression_analysis_only_appends (e : Expression) (st st' : Analyzer)
    (t : Type_) (Hrun : analyzeExpression e st = Ok (t, st')) :
  prefix (errors st) (errors st') /\
  prefix (warnings st) (warnings st') /\
  prefix (typeMap st) (typeMap st') /\
  (exists before, typeMap st' = before ++ [(e, t)]) /\
  typeVarCounter st <= typeVarCounter st' /\
  parents (symbolTable st') = parents (symbolTable st).
Proof.
  destruct (steady_analyzeExpression e _ Hrun) as [[He Hw Hm Hc] Ho].
  repeat split; auto.
  rewrite analyzeExpression_eq in Hrun. unfold analyzeExpression_body in Hrun.
  unfold bind in Hrun.
  destruct (analyzeExpression_switch _ _ _ _ e st) as [[t1 st1]|];
    [|discriminate].
  simpl in Hrun. inversion Hrun; subst t st'. simpl. eauto.
Qed.

(** ** Scopes *)

Lemma still_analyzeBlockStatement b : still (analyzeBlockStatement b).
Proof.
  pose proof steady_analyzeStatement as HS.
  destruct b as [l statements]. rewrite analyzeBlockStatement_eq.
  open_methods. steady_go.
Qed.

Lemma still_analyzeFunctionDeclaration d :
  still (analyzeFunctionDeclaration d).
Proof.
  pose proof steady_analyzeAnnotation as HA.
  pose proof steady_analyzeBlockStatement as HB.
  rewrite analyzeFunctionDeclaration_eq. open_methods. steady_go.
Qed.

Lemma same_scopes_lookup (t t' : SymbolTable) :
  currentScope t' = currentScope t -> parents t' = parents t ->
  forall n, lookup n t' = lookup n t /\ lookupType n t' = lookupType n t.
Proof.
  intros Hc Hp n. unfold lookup, lookupType, scope_chain.
  rewrite Hc, Hp. split; reflexivity.
Qed.

(** A block statement leaves the chain of scopes exactly as it found it:
    whatever is declared inside is out of reach afterwards, and every
    name resolves as before the block. *)
Theorem block_restores_scopes (b : BlockStatement) (st st' : Analyzer)
    (t : Type_) (Hrun : analyzeBlockStatement b st = Ok (t, st')) :
  currentScope (symbolTable st') = currentScope (symbolTable st) /\
  parents (symbolTable st') = parents (symbolTable st) /\
  (forall n, lookup n (symbolTable st') = lookup n (symbolTable st)) /\
  (forall n, lookupType n (symbolTable st') = lookupType n (symbolTable st)).
Proof.
  destruct (still_analyzeBlockStatement b _ Hrun) as (_ & Ho & Hc).
  unfold outer, current in *. split; [exact Hc|]. split; [exact Ho|].
  split; intros n; apply (same_scopes_lookup _ _ Hc Ho n).
Qed.

(** The same holds for a function declaration: its parameters, its
    generic parameters and the names of its body do not outlive it. *)
Theorem function_restores_scopes (d : FunctionDeclaration) (st st' : Analyzer)
    (t : Type_) (Hrun : analyzeFunctionDeclaration d st = Ok (t, st')) :
  currentScope (symbolTable st') = currentScope (symbolTable st) /\
  parents (symbolTable st') = parents (symbolTable st) /\
  (forall n, lookup n (symbolTable st') = lookup n (symbolTable st)) /\
  (forall n, lookupType n (symbolTable st') = lookupType n (symbolTable st)).
Proof.
  destruct (still_analyzeFunctionDeclaration d _ Hrun) as (_ & Ho & Hc).
  unfold outer, current in *. split; [exact Hc|]. split; [exact Ho|].
  split; intros n; apply (same_scopes_lookup _ _ Hc Ho n).
Qed.


(** [{ let y: Int = 1 }] *)
Definition blockWithLet : BlockStatement :=
  mkBlockStatement (Examples.L 1 1)
    [VariableDeclaration (Examples.L 1 3) (Examples.I 1 7 "y")
       (Some (Examples.TPrim 1 10 Int)) (Some (Examples.Num 1 16 1))
       false false].

Lemma block_restores_scopes_witness :
  exists t st',
    analyzeBlockStatement blockWithLet new_SemanticAnalyzer = Ok (t, st') /\
    lookup (js "y") (symbolTable st') = None.
Proof.
  destruct (analyzeBlockStatement blockWithLet new_SemanticAnalyzer)
    as [[t st']|] eqn:E.
  - exists t, st'. split; [reflexivity|].
    destruct (@block_restores_scopes blockWithLet new_SemanticAnalyzer st' t E)
      as (_ & _ & Hl & _).
    rewrite Hl. reflexivity.
  - vm_compute in E. discriminate E.
Defined.

(** The state in which the second pass starts on [fn main() ...]. *)
Definition collected : Analyzer :=
  match (initBuiltinTypes ;;
         collectDeclarations
           (Examples.program [Examples.effIO; Examples.fnLog;
                              Examples.fnMain []])) new_SemanticAnalyzer with
  | Ok (_, st) => st
  | Untyped => new_SemanticAnalyzer
  end.

Lemma function_restores_scopes_witness :
  exists t st',
    analyzeFunctionDeclaration (Examples.mainDeclaration []) collected
    = Ok (t, st') /\
    currentScope (symbolTable st') = currentScope (symbolTable collected).
Proof.
  destruct (analyzeFunctionDeclaration (Examples.mainDeclaration []) collected)
    as [[t st']|] eqn:E.
  - exists t, st'. split; [reflexivity|].
    apply (@function_restores_scopes (Examples.mainDeclaration []) collected
             st' t E).
  - vm_compute in E. discriminate E.
Defined.

(** ** The effect check *)

(** The effect check of a call appends one error for each effect of the
    callee that is not active, in the order of the callee's effects, each
    at the location of the call, and changes nothing else; when every
    effect of the callee is active the state is left as it is. *)
Theorem effect_check_diagnostics (location : SourceLocation)
    (calleeEffects : list EffectType) (st : Analyzer) :
  checkEffectRequirements location calleeEffects st =
  Ok (tt,
      set_errors
        (errors st
         ++ map (fun eff =>
                   mkSemanticError (effect_message (eff_name eff)) location
                     Serror)
              (filter (fun eff =>
                         negb (hasEffect (eff_name eff) (symbolTable st)))
                 calleeEffects))
        st).
Proof. apply checkEffectRequirements_errors. Qed.
End AnalyzerInvariants.

(* ================================================================== *)
(** * Invariants of the generator's output buffer *)
(* ================================================================== *)

Module GeneratorInvariants.

Import AST Codegen.
Open Scope codegen_scope.

(** [ext out n b b' m]: started with lines that extend [out] (by at
    least one line when [b] holds) and at an indentation of at least [n]
    levels, [m] ends [n] levels further out, with lines that still extend
    [out] (by at least one line when [b'] holds). *)
Definition ext {A} (out : list jsstring) (n : nat) (b b' : bool) (m : G A)
    : Prop :=
  forall g a g', m g = Ok (a, g') -> n <= indentLevel g ->
    (exists new, output g = out ++ new /\ (b = true -> new <> [])) ->
    indentLevel g' + n = indentLevel g /\
    exists new', output g' = out ++ new' /\ (b' = true -> new' <> []).

(** [appends m]: [m] restores the indentation and keeps the lines it
    found, with more at the end. *)
Definition appends {A} (m : G A) : Prop := forall out b, ext out 0 b b m.

(** [lev n m]: the indentation part of [ext]. *)
Definition lev {A} (n : nat) (m : G A) : Prop :=
  forall g a g', m g = Ok (a, g') -> n <= indentLevel g ->
    indentLevel g' + n = indentLevel g.

(** [quiet m]: [m] leaves the emitted lines and the indentation as they
    are. *)
Definition quiet {A} (m : G A) : Prop :=
  forall g a g', m g = Ok (a, g') ->
    output g' = output g /\ indentLevel g' = indentLevel g.

(** [restores out m]: [m] restores the indentation and ends with the
    lines [out]. *)
Definition restores {A} (out : list jsstring) (m : G A) : Prop :=
  forall g a g', m g = Ok (a, g') ->
    output g' = out /\ indentLevel g' = indentLevel g.

Lemma quiet_appends A (m : G A) : quiet m -> appends m.
Proof.
  intros H out b g a g' E _ [new [Ho Hb]]. destruct (H _ _ _ E) as [H1 H2].
  split; [lia|]. exists new. rewrite H1. auto.
Qed.

Lemma appends_lev A (m : G A) : appends m -> lev 0 m.
Proof.
  intros H g a g' E Hn. apply (H [] false g a g' E Hn).
  exists (output g). split; [reflexivity | discriminate].
Qed.

Lemma quiet_lev A (m : G A) : quiet m -> lev 0 m.
Proof. intros H g a g' E _. destruct (H _ _ _ E). lia. Qed.

Lemma ext_weaken A out n b b' (m : G A) : ext out n b true m -> ext out n b b' m.
Proof.
  intros H g a g' E Hn Hg. destruct (H _ _ _ E Hn Hg) as [Hi [new [Ho Hne]]].
  split; [assumption|]. exists new. auto.
Qed.

Lemma ext_appends A out b (m : G A) : appends m -> ext out 0 b b m.
Proof. intros H. apply H. Qed.

Lemma ext_appends_true A out b' (m : G A) : appends m -> ext out 0 true b' m.
Proof. intros H. apply ext_weaken, H. Qed.

Lemma ext_ret A out b (a : A) : ext out 0 b b (ret a).
Proof. intros g x g' H _ Hg. inversion H; subst. split; [lia | assumption]. Qed.

Lemma ext_ret_true A out b' (a : A) : ext out 0 true b' (ret a).
Proof. apply ext_weaken, ext_ret. Qed.

Lemma ext_emit out b b' line : ext out 0 b b' (emit line).
Proof.
  intros g x g' H _ [new [Ho _]]. inversion H; subst. simpl. split; [lia|].
  rewrite Ho, <- app_assoc. eexists. split; [reflexivity|].
  intros _. destruct new; discriminate.
Qed.

Lemma ext_outOfFuel A out n b b' : ext out n b b' (@outOfFuel A).
Proof. intros g x g' H. discriminate. Qed.

Lemma ext_bind A B out n b b' (m : G A) (k : A -> G B) :
  appends m -> (forall a, ext out n b b' (k a)) -> ext out n b b' (bind m k).
Proof.
  intros Hm Hk g x g'. unfold bind.
  destruct (m g) as [[a g1]|] eqn:E; [|discriminate].
  intros H Hn Hg. destruct (Hm out b _ _ _ E (Nat.le_0_l _) Hg) as [Hi Hg1].
  destruct (Hk a _ _ _ H) as [Hi' Hg']; [lia | assumption |].
  split; [lia | assumption].
Qed.

Lemma ext_bind_emit B out n b b' line (k : unit -> G B) :
  (forall a, ext out n true b' (k a)) -> ext out n b b' (bind (emit line) k).
Proof.
  intros Hk g x g'. unfold bind.
  destruct (emit line g) as [[a g1]|] eqn:E; [|discriminate].
  intros H Hn Hg.
  destruct (@ext_emit out b true line _ _ _ E (Nat.le_0_l _) Hg) as [Hi Hg1].
  destruct (Hk a _ _ _ H) as [Hi' Hg']; [lia | assumption |].
  split; [lia | assumption].
Qed.

Lemma ext_bind_indent B out n b b' (k : unit -> G B) :
  (forall a, ext out (S n) b b' (k a)) -> ext out n b b' (bind indent k).
Proof.
  intros Hk g x g'. unfold bind, indent, modify. intros H Hn Hg.
  destruct (Hk tt _ _ _ H) as [Hi Hg']; simpl; [lia | assumption |].
  simpl in Hi. split; [lia | assumption].
Qed.

Lemma ext_bind_dedent B out n b b' (k : unit -> G B) :
  (forall a, ext out n b b' (k a)) -> ext out (S n) b b' (bind dedent k).
Proof.
  intros Hk g x g'. unfold bind, dedent, modify. intros H Hn Hg.
  destruct (Hk tt _ _ _ H) as [Hi Hg']; simpl; [lia | assumption |].
  simpl in Hi. split; [lia | assumption].
Qed.

(** The change that [generateIfStatement] makes to the last line before
    an [else if]. *)
Lemma ext_bind_else B out n b' (k : unit -> G B) :
  (forall a, ext out n true b' (k a)) ->
  ext out n true b'
    (bind (modify (fun g =>
             match rev (output g) with
             | last :: before =>
                 set_output (rev before ++ [last ++ js " else"]) g
             | [] => g
             end)) k).
Proof.
  intros Hk g x g'. unfold bind, modify. intros H Hn [new [Ho Hne]].
  destruct (exists_last (Hne eq_refl)) as [front [line Hnew]].
  assert (Hrev : rev (output g) = line :: rev (out ++ front))
    by (rewrite Ho, Hnew, app_assoc, rev_app_distr; reflexivity).
  rewrite Hrev in H. destruct (Hk tt _ _ _ H) as [Hi Hg'].
  - assumption.
  - simpl. rewrite rev_involutive, <- app_assoc.
    eexists. split; [reflexivity|]. intros _. destruct front; discriminate.
  - split; assumption.
Qed.

Lemma quiet_ret A (a : A) : quiet (ret a).
Proof. intros g b g' H. inversion H; subst. auto. Qed.

Lemma quiet_outOfFuel A : quiet (@outOfFuel A).
Proof. intros g b g' H. discriminate. Qed.

Lemma quiet_bind A B (m : G A) (k : A -> G B) :
  quiet m -> (forall a, quiet (k a)) -> quiet (bind m k).
Proof.
  intros Hm Hk g b g'. unfold bind.
  destruct (m g) as [[a g1]|] eqn:E; [|discriminate].
  intros H. destruct (Hm _ _ _ E). destruct (Hk a _ _ _ H).
  split; congruence.
Qed.

(** The lines are saved, something is emitted, the lines are put back. *)
Lemma quiet_bind_saved B (k : list jsstring -> G B) :
  (forall saved, restores saved (k saved)) -> quiet (bind (gets output) k).
Proof. intros Hk g b g' H. apply (Hk (output g) _ _ _ H). Qed.

Lemma restores_bind A B out (m : G A) (k : A -> G B) :
  lev 0 m -> (forall a, restores out (k a)) -> restores out (bind m k).
Proof.
  intros Hm Hk g b g'. unfold bind.
  destruct (m g) as [[a g1]|] eqn:E; [|discriminate].
  intros H. specialize (Hm _ _ _ E (Nat.le_0_l _)). destruct (Hk a _ _ _ H).
  split; [assumption | lia].
Qed.

Lemma restores_bind_put B out (k : unit -> G B) :
  (forall a, quiet (k a)) -> restores out (bind (modify (set_output out)) k).
Proof.
  intros Hk g b g'. unfold bind, modify. intros H.
  destruct (Hk tt _ _ _ H). simpl in *. auto.
Qed.

Lemma quiet_gets A (f : Generator -> A) : quiet (gets f).
Proof. intros g a g' H. inversion H; subst. auto. Qed.

Lemma quiet_get : quiet get.
Proof. intros g a g' H. inversion H; subst. auto. Qed.

Lemma quiet_set_currentFunction f : quiet (modify (set_currentFunction f)).
Proof. intros g a g' H. inversion H; subst. auto. Qed.

Lemma lev_put out : lev 0 (modify (set_output out)).
Proof. intros g a g' H _. inversion H; subst. simpl. lia. Qed.

Lemma appends_emit line : appends (emit line).
Proof. intros out b. apply ext_emit. Qed.

Lemma appends_ret A (a : A) : appends (ret a).
Proof. intros out b. apply ext_ret. Qed.

Lemma appends_when b m : appends m -> appends (when b m).
Proof. intros H. destruct b; [exact H | apply appends_ret]. Qed.

Lemma appends_forEach X (f : X -> G unit) l :
  (forall x, In x l -> appends (f x)) -> appends (forEach f l).
Proof.
  induction l as [|x l IH]; intros H; simpl.
  - apply appends_ret.
  - intros out b. apply ext_bind; [apply H; left; reflexivity|]. intros _.
    apply IH; intros; apply H; right; assumption.
Qed.

Lemma quiet_mapM X Y (f : X -> G Y) l :
  (forall x, In x l -> quiet (f x)) -> quiet (mapM f l).
Proof.
  induction l as [|x l IH]; intros H; simpl.
  - apply quiet_ret.
  - apply quiet_bind; [apply H; left; reflexivity|]. intros y.
    apply quiet_bind; [apply IH; intros; apply H; right; assumption|].
    intros ys. apply quiet_ret.
Qed.

Lemma appends_emitBindings b : appends (emitBindings b).
Proof.
  unfold emitBindings. destruct b as [[|c s]|];
    auto using appends_ret, appends_emit.
Qed.

Ltac ext_step :=
  match goal with
  | |- appends (emit _) => apply appends_emit
  | |- appends (emitBindings _) => apply appends_emitBindings
  | |- appends (ret _) => apply appends_ret
  | |- appends (when _ _) => apply appends_when
  | |- appends get => apply quiet_appends, quiet_get
  | |- appends (gets _) => apply quiet_appends, quiet_gets
  | |- appends (modify (set_currentFunction _)) =>
      apply quiet_appends, quiet_set_currentFunction
  | H : appends ?m |- appends ?m => exact H
  | H : quiet ?m |- appends ?m => apply quiet_appends, H
  | H : forall e, quiet (?f e) |- appends (?f _) => apply quiet_appends, H
  | |- appends (bind _ _) => intros ? ?
  | |- appends (match ?x with _ => _ end) => destruct x
  | |- appends (if ?x then _ else _) => destruct x
  | |- ext _ _ _ _ (bind (emit _) _) => apply ext_bind_emit; intros ?
  | |- ext _ _ _ _ (bind indent _) => apply ext_bind_indent; intros ?
  | |- ext _ (S _) _ _ (bind dedent _) => apply ext_bind_dedent; intros ?
  | |- ext _ _ true _ (bind (modify (fun g => match rev _ with _ => _ end)) _) =>
      apply ext_bind_else; intros ?
  | |- ext _ _ _ _ (bind _ _) => apply ext_bind; [| intros ?]
  | |- ext _ 0 _ _ (emit _) => apply ext_emit
  | |- ext _ 0 ?b ?b (ret _) => apply ext_ret
  | |- ext _ 0 true _ (ret _) => apply ext_ret_true
  | |- ext _ _ _ _ (match ?x with _ => _ end) => destruct x
  | |- ext _ _ _ _ (if ?x then _ else _) => destruct x
  | |- ext _ 0 ?b ?b _ => apply ext_appends
  | |- ext _ 0 true _ _ => apply ext_appends_true
  | |- quiet (ret _) => apply quiet_ret
  | |- quiet (gets _) => apply quiet_gets
  | H : quiet ?m |- quiet ?m => exact H
  | H : forall e, quiet (?f e) |- quiet (?f _) => apply H
  | |- quiet (bind (gets output) _) => apply quiet_bind_saved; intros ?
  | |- quiet (bind _ _) => apply quiet_bind; [| intros ?]
  | |- quiet (match ?x with _ => _ end) => destruct x
  | |- quiet (if ?x then _ else _) => destruct x
  | |- restores ?out (bind (modify (set_output ?out)) _) =>
      apply restores_bind_put; intros ?
  | |- restores _ (bind _ _) => apply restores_bind; [| intros ?]
  | |- lev 0 (modify (set_output _)) => apply lev_put
  | |- lev 0 (gets _) => apply quiet_lev, quiet_gets
  | |- lev 0 _ => apply appends_lev
  end.

Ltac ext_list :=
  match goal with
  | |- appends (forEach _ _) => apply appends_forEach; intros ? ?
  | |- quiet (mapM _ _) => apply quiet_mapM; intros ? ?
  end.

Ltac ext_basic := cbv beta zeta; repeat (ext_step; cbv beta zeta).

Lemma appends_emitRuntimeHelpers : appends emitRuntimeHelpers.
Proof. unfold emitRuntimeHelpers. ext_basic. Qed.


Section Detached.

Variable gd : Expression -> G jsstring.
Hypothesis quiet_gd : forall e, quiet (gd e).

Lemma generateExpression_eq e :
  generateExpression gd e
  = generateExpression_body (generateExpression gd) (generateIfExpression gd)
      (generateBlockExpression gd) e.
Proof. destruct e; reflexivity. Qed.

Lemma generateStatement_eq s :
  generateStatement gd s
  = generateStatement_body gd (generateExpression gd) (generateStatement gd)
      (generateIfStatement gd) (generateFunctionDeclaration gd) s.
Proof. destruct s; reflexivity. Qed.

Lemma generateIfExpression_eq l c t e :
  generateIfExpression gd (mkIfExpression l c t e)
  = generateIfExpression_body (generateExpression gd)
      (generateIfExpression gd) (generateBlockExpression gd) c t e.
Proof. reflexivity. Qed.

Lemma generateBlockExpression_eq l statements expression :
  generateBlockExpression gd (mkBlockExpression l statements expression)
  = generateBlockExpression_body (generateExpression gd)
      (generateStatement gd) statements expression.
Proof. reflexivity. Qed.

Lemma generateIfStatement_eq l c t e :
  generateIfStatement gd (mkIfStatement l c t e)
  = generateIfStatement_body (generateExpression gd) (generateStatement gd)
      (generateIfStatement gd) c t e.
Proof. reflexivity. Qed.

Lemma generateFunctionDeclaration_eq d :
  generateFunctionDeclaration gd d
  = generateFunctionDeclaration_body gd (generateExpression gd)
      (generateStatement gd) d (fd_annotations d) (fd_body d).
Proof. destruct d; reflexivity. Qed.

Ltac gen_head :=
  match goal with
  | |- _ (generateExpression _ _) => rewrite generateExpression_eq
  | |- _ (generateStatement _ _) => rewrite generateStatement_eq
  | |- _ (generateIfExpression _ _) => rewrite generateIfExpression_eq
  | |- _ (generateBlockExpression _ _) => rewrite generateBlockExpression_eq
  | |- _ (generateIfStatement _ _) => rewrite generateIfStatement_eq
  | |- _ (generateFunctionDeclaration _ _) =>
      rewrite generateFunctionDeclaration_eq
  end.

Ltac gen_methods :=
  cbv beta iota zeta delta
    [generateExpression_body generateStatement_body generateReturnStatement
     generateIfStatement_body generateLoopInvariants generateWhileStatement
     generateForStatement generateBlockStatement
     generateFunctionDeclaration_body generateVariableDeclaration
     generateStructDeclaration generateEnumDeclaration
     generateTraitDeclaration generateImplDeclaration
     generateEffectDeclaration generateImportDeclaration
     generateBinaryExpression generateUnaryExpression generateCallExpression
     generateMemberExpression generateIfExpression_body
     generateMatchExpression generateBlockExpression_body
     generateLambdaExpression generateStructExpression generateQuantifier
     generateForallExpression generateExistsExpression generateTryExpression
     generateRangeExpression fd_annotations fd_body fd_name fd_parameters
     fd_isExported fd_location].

Definition quietArm (a : MatchArm) : Prop :=
  match a with
  | mkMatchArm _ _ guard body =>
      quiet (generateExpression gd body) /\
      match guard with
      | Some guard => quiet (generateExpression gd guard)
      | None => True
      end
  end.

Lemma appends_generateMatchStatement subject arms :
  quiet (generateExpression gd subject) -> list_all quietArm arms ->
  appends (generateMatchStatement (generateExpression gd) subject arms).
Proof.
  intros Hs Ha. unfold generateMatchStatement. ext_basic.
  induction Ha as [|[l p guard body] [Hb Hg] rest Hrest IH].
  - ext_basic.
  - ext_basic; try exact I. all: exact IH.
Qed.

Definition quietElseExpression (e : ElseExpression) : Prop :=
  match e with
  | ElseBlockExpression b => quiet (generateBlockExpression gd b)
  | ElseIfExpression e => quiet (generateIfExpression gd e)
  | NoElseExpression => True
  end.

Definition quietField (f : StructExpressionField) : Prop :=
  match f with
  | mkStructExpressionField _ _ value => quiet (generateExpression gd value)
  end.

Definition quietBinding (b : ForallBinding) : Prop :=
  match b with
  | mkForallBinding _ _ (Some range) => quiet (generateExpression gd range)
  | mkForallBinding _ _ None => True
  end.

Definition quietAnnotation (a : Annotation) : Prop :=
  match a with
  | RequiresAnnotation _ condition | InvariantAnnotation _ condition =>
      quiet (generateExpression gd condition)
  | _ => True
  end.

Definition appendsBlock (b : BlockStatement) : Prop :=
  forall s, In s (block_statements b) -> appends (generateStatement gd s).

Definition appendsElseStatement (e : ElseStatement) : Prop :=
  match e with
  | ElseBlock b => appendsBlock b
  | ElseIf s => appends (generateIfStatement gd s)
  | NoElse => True
  end.

Definition appendsFunctionDeclaration (d : FunctionDeclaration) : Prop :=
  appends (generateFunctionDeclaration gd d) /\
  match fd_body d with
  | Some body => appendsBlock body
  | None => True
  end.

Ltac gen_known :=
  match goal with
  | |- appends (generateMatchStatement _ _ _) =>
      apply appends_generateMatchStatement
  | |- appends (gd _) => apply quiet_appends, quiet_gd
  | |- quiet (gd _) => apply quiet_gd
  | H : _ /\ _ |- _ => destruct H
  | H : True |- _ => clear H
  | H : list_all _ (_ :: _) |- _ => inversion H; clear H; subst
  | H : option_all _ (Some _) |- _ => apply AnalyzerFacts.option_all_Some in H
  | H : appendsBlock ?b, Hx : In ?x (block_statements ?b) |- _ =>
      pose proof (H x Hx); clear Hx
  | H : appendsBlock (mkBlockStatement _ ?l), Hx : In ?x ?l |- _ =>
      pose proof (H x Hx); clear Hx
  | H : In _ (_ :: _) |- _ => destruct H as [<- | H]
  | H : list_all _ ?l, Hx : In ?x ?l |- _ =>
      pose proof (AnalyzerFacts.list_all_In H x Hx); clear Hx
  | H : option_all _ ?o |- match ?o with _ => _ end =>
      destruct H; [assumption | exact I]
  | H : context [fd_body (mkFunctionDeclaration _ _ _ _ _ _ _ _ _)] |- _ =>
      cbn [fd_body] in H
  | |- list_all quietArm _ => unfold quietArm; assumption
  | |- appendsBlock (mkBlockStatement _ _) =>
      unfold appendsBlock; simpl; intros ? ?
  end.

Ltac gen_go :=
  repeat (cbv beta iota zeta in *;
          first [ ext_step | gen_known | ext_list; try AnalyzerFacts.all_in ]).

Lemma generator_methods :
  (forall e, quiet (generateExpression gd e)) /\
  (forall e, quiet (generateIfExpression gd e)) /\
  (forall e, quietElseExpression e) /\
  (forall b, quiet (generateBlockExpression gd b)) /\
  (forall a, quietArm a) /\
  (forall p : FunctionParameter, True) /\
  (forall f, quietField f) /\
  (forall b, quietBinding b) /\
  (forall a, quietAnnotation a) /\
  (forall s, appends (generateStatement gd s)) /\
  (forall s, appends (generateIfStatement gd s)) /\
  (forall e, appendsElseStatement e) /\
  (forall b, appendsBlock b) /\
  (forall d, appendsFunctionDeclaration d) /\
  (forall f : StructField, True).
Proof.
  apply AnalyzerFacts.AST_mutind;
    unfold quietElseExpression, quietArm, quietField, quietBinding,
      quietAnnotation, appendsElseStatement, appendsFunctionDeclaration in *;
    intros; try exact I;
    try match goal with |- _ /\ _ => split end;
    try exact I; try assumption.
  all: try gen_head; gen_methods.
  all: gen_go.
Qed.

End Detached.

Lemma quiet_generateDetached fuel : forall e, quiet (generateDetached fuel e).
Proof.
  induction fuel as [|fuel IH]; intros e; simpl.
  - apply quiet_outOfFuel.
  - apply (@generator_methods _ IH).
Qed.

(** Generating the text of an expression leaves the emitted lines and the
    indentation as they were, also where statements inside a block
    expression are emitted on the side and taken back. *)
Theorem expression_generation_leaves_output (fuel : nat) (e : Expression)
    (g g' : Generator) (code : jsstring)
    (Hrun : generateExpression (generateDetached fuel) e g = Ok (code, g')) :
  output g' = output g /\ indentLevel g' = indentLevel g.
Proof.
  exact (proj1 (@generator_methods _ (quiet_generateDetached fuel)) e _ _ _ Hrun).
Qed.

(** Generating a statement keeps every line emitted before it, adds its
    own lines after them, and leaves the indentation where it was. *)
Theorem statement_generation_appends (fuel : nat) (s : Statement)
    (g g' : Generator)
    (Hrun : generateStatement (generateDetached fuel) s g = Ok (tt, g')) :
  (exists lines, output g' = output g ++ lines) /\
  indentLevel g' = indentLevel g.
Proof.
  pose proof (@generator_methods _ (quiet_generateDetached fuel)) as H.
  do 9 apply proj2 in H. apply proj1 in H.
  destruct (H s (output g) false _ _ _ Hrun (Nat.le_0_l _)) as [Hi [new [Ho _]]].
  - exists []. split; [symmetry; apply app_nil_r | discriminate].
  - split; [exists new; assumption | lia].
Qed.

(** [uniform m]: the lines and the indentation that [m] leaves depend on
    the lines and the indentation it finds only. *)
Definition uniform (m : G unit) : Prop :=
  forall g1 g2, output g1 = output g2 -> indentLevel g1 = indentLevel g2 ->
    exists g1' g2', m g1 = Ok (tt, g1') /\ m g2 = Ok (tt, g2') /\
      output g1' = output g2' /\ indentLevel g1' = indentLevel g2'.

Lemma uniform_bind (m : G unit) (k : unit -> G unit) :
  uniform m -> (forall a, uniform (k a)) -> uniform (bind m k).
Proof.
  intros Hm Hk g1 g2 Ho Hi. unfold bind.
  destruct (Hm g1 g2 Ho Hi) as [g1' [g2' [-> [-> [Ho' Hi']]]]].
  apply (Hk tt _ _ Ho' Hi').
Qed.

Lemma uniform_emit line : uniform (emit line).
Proof.
  intros g1 g2 Ho Hi. unfold emit, modify. do 2 eexists.
  split; [reflexivity|]. split; [reflexivity|]. simpl.
  rewrite Ho, Hi. auto.
Qed.

Lemma uniform_indent : uniform indent.
Proof.
  intros g1 g2 Ho Hi. unfold indent, modify. do 2 eexists.
  split; [reflexivity|]. split; [reflexivity|]. simpl. auto.
Qed.

Lemma uniform_dedent : uniform dedent.
Proof.
  intros g1 g2 Ho Hi. unfold dedent, modify. do 2 eexists.
  split; [reflexivity|]. split; [reflexivity|]. simpl. rewrite Hi. auto.
Qed.

Lemma uniform_emitRuntimeHelpers : uniform emitRuntimeHelpers.
Proof.
  unfold emitRuntimeHelpers.
  repeat match goal with
         | |- uniform (bind _ _) => apply uniform_bind; [| intros ?]
         | |- uniform (emit _) => apply uniform_emit
         | |- uniform indent => apply uniform_indent
         | |- uniform dedent => apply uniform_dedent
         end.
Qed.

Lemma emitRuntimeHelpers_lines g :
  output g = [] -> indentLevel g = 0 ->
  exists g', emitRuntimeHelpers g = Ok (tt, g') /\
    output g' = CodegenFacts.runtimeHelpers.
Proof.
  intros Ho Hi. unfold CodegenFacts.runtimeHelpers.
  destruct (uniform_emitRuntimeHelpers g
              (new_JavaScriptGenerator
                 (Analyzer.mkAnalysisResult [] [] Symbols.new_SymbolTable [])
                 DEFAULT_OPTIONS) Ho Hi) as [g1 [g2 [E1 [E2 [Ho' _]]]]].
  exists g1. split; [assumption|]. rewrite E2. assumption.
Qed.




Lemma generate_phases fuel program g :
  JavaScriptGenerator_generate fuel program g =
  match when (runtimeContracts (options g)) emitRuntimeHelpers
          (set_output [] g) with
  | Ok (_, g1) =>
      match forEach (fun stmt =>
                       generateStatement (generateDetached fuel) stmt ;;
                       emit []) (prog_statements program) g1 with
      | Ok (_, g2) => Ok (join [LF] (output g2), g2)
      | OutOfFuel => OutOfFuel
      end
  | OutOfFuel => OutOfFuel
  end.
Proof. reflexivity. Qed.
Lemma appends_statements fuel l :
  appends (forEach (fun stmt =>
                      generateStatement (generateDetached fuel) stmt ;;
                      emit []) l).
Proof.
  apply appends_forEach. intros s _ out b. apply ext_bind.
  - apply (@generator_methods _ (quiet_generateDetached fuel)).
  - intros _. apply ext_appends, appends_emit.
Qed.

(** With runtime contracts enabled the generated text opens with the
    runtime helpers, whatever the program. *)
Lemma generate_opens_with_helpers fuel program g code g' :
  runtimeContracts (options g) = true -> indentLevel g = 0 ->
  JavaScriptGenerator_generate fuel program g = Ok (code, g') ->
  exists lines, code = CodegenFacts.text lines.
Proof.
  intros Hon Hi Hrun. rewrite generate_phases, Hon in Hrun.
  destruct (@emitRuntimeHelpers_lines (set_output [] g) eq_refl Hi)
    as [g1 [E1 Ho1]].
  replace (when true emitRuntimeHelpers (set_output [] g))
    with (Ok (tt, g1)) in Hrun.
  destruct (forEach _ _ g1) as [[[] g2]|] eqn:E2; [|discriminate].
  destruct (@appends_statements fuel _ (output g1) false _ _ _ E2
              (Nat.le_0_l _)) as [_ [new [Ho _]]].
  - exists []. split; [symmetry; apply app_nil_r | discriminate].
  - exists new. unfold CodegenFacts.text. rewrite <- Ho1, <- Ho. congruence.
Qed.

(** With runtime contracts enabled the generated text opens with the
    runtime helpers, whatever the program. *)
Theorem generated_text_opens_with_helpers (fuel : nat) (program : Program)
    (analysisResult : Analyzer.AnalysisResult) (options : GeneratorOptions)
    (code : jsstring) (Hon : runtimeContracts options = true)
    (Hrun : generateJavaScript fuel program analysisResult options = Ok code) :
  exists lines, code = CodegenFacts.text lines.
Proof.
  unfold generateJavaScript in Hrun.
  destruct (JavaScriptGenerator_generate _ _ _) as [[code' g']|] eqn:E;
    [|discriminate].
  apply (@generate_opens_with_helpers fuel program
           (new_JavaScriptGenerator analysisResult options) code g' Hon
           eq_refl).
  congruence.
Qed.

(** ** Examples *)

Definition noAnalysis : Analyzer.AnalysisResult :=
  Analyzer.mkAnalysisResult [] [] Symbols.new_SymbolTable [].

(** A generator that has emitted one line and is one level deep. *)
Definition started : Generator :=
  mkGenerator [js "const a = 1;"] 1 DEFAULT_OPTIONS noAnalysis None.

(** [{ log("x"); 1 }] *)
Definition blockWithCall : Expression :=
  BlockExpressionExpr
    (mkBlockExpression (Examples.L 1 1) [Examples.callLog 1 3]
       (Some (Examples.Num 1 13 1))).

Lemma expression_generation_leaves_output_witness :
  exists code g',
    generateExpression (generateDetached 0) blockWithCall started
    = Ok (code, g') /\
    output g' = [js "const a = 1;"] /\ indentLevel g' = 1.
Proof.
  destruct (generateExpression (generateDetached 0) blockWithCall started)
    as [[code g']|] eqn:E.
  - exists code, g'. split; [reflexivity|].
    apply (@expression_generation_leaves_output 0 blockWithCall started g'
             code E).
  - vm_compute in E. discriminate E.
Defined.

Lemma statement_generation_appends_witness :
  exists g',
    generateStatement (generateDetached 1)
      (FunctionDeclarationStmt Examples.divideDeclaration) started
    = Ok (tt, g') /\
    (exists lines, output g' = [js "const a = 1;"] ++ lines) /\
    indentLevel g' = 1.
Proof.
  destruct (generateStatement (generateDetached 1)
              (FunctionDeclarationStmt Examples.divideDeclaration) started)
    as [[[] g']|] eqn:E.
  - exists g'. split; [reflexivity|].
    apply (@statement_generation_appends 1
             (FunctionDeclarationStmt Examples.divideDeclaration) started g'
             E).
  - vm_compute in E. discriminate E.
Defined.

Lemma generated_text_opens_with_helpers_witness :
  exists code lines,
    generateJavaScript 1 Examples.divide noAnalysis DEFAULT_OPTIONS = Ok code /\
    code = CodegenFacts.text lines.
Proof.
  destruct (generateJavaScript 1 Examples.divide noAnalysis DEFAULT_OPTIONS)
    as [code|] eqn:E.
  - exists code.
    destruct (@generated_text_opens_with_helpers 1 Examples.divide noAnalysis
                DEFAULT_OPTIONS code eq_refl E) as [lines H].
    exists lines. split; [reflexivity | exact H].
  - vm_compute in E. discriminate E.
Defined.
End GeneratorInvariants.

(* ================================================================== *)
(** * The entry points of the compiler together *)
(* ================================================================== *)

Module PipelineFacts.

Import AST Compiler.

Section Phases.

Variable tokenize :
  jsstring -> option jsstring -> run (list Token * list Lexer.LexerError).
Variable parse : list Token -> run (Program * list Parser.ParseError).
Variable analyze : Program -> run Analyzer.AnalysisResult.
Variable generateJavaScript :
  Program -> Analyzer.AnalysisResult -> Codegen.GeneratorOptions -> run jsstring.


End Phases.




End PipelineFacts.

(* ================================================================== *)
(** * The snapshots of pre-state expressions
      ([collectOldExpressions]) *)
(* ================================================================== *)

Module SnapshotFacts.

Import AST Types Codegen.

(** [e] stands under an [old] that the traversal of a postcondition of
    [decl] visits. *)
Definition reached (decl : FunctionDeclaration) (e : Expression) : Prop :=
  exists condition location,
    In condition (getEnsuresAnnotations decl) /\
    In (OldExpression location e) (traverseExpression condition).

(** The entry of [name] holds an expression with that name. *)
Definition named (m : Map Expression) (name : jsstring) : Prop :=
  exists e, Map_get m name = Some e /\ oldName e = name.

(** Every entry is filed under the name of its expression, which was
    reached, and no name is filed twice. *)
Definition sound (decl : FunctionDeclaration) (m : Map Expression) : Prop :=
  NoDup (map fst m) /\
  Forall (fun entry => fst entry = oldName (snd entry) /\
                       reached decl (snd entry)) m.

Lemma Map_set_keys T (m : Map T) k v :
  map fst (Map_set m k v)
  = if Map_has m k then map fst m else map fst m ++ [k].
Proof.
  unfold Map_has. induction m as [|[k' v'] m IH]; simpl; [reflexivity|].
  destruct (Js.eqb k' k) eqn:E; simpl; [reflexivity|].
  rewrite IH. destruct (Map_get m k); reflexivity.
Qed.

Lemma Map_get_In T (m : Map T) k : Map_get m k = None -> ~ In k (map fst m).
Proof.
  induction m as [|[k' v'] m IH]; simpl; [tauto|].
  destruct (Js.eqb k' k) eqn:E; [discriminate|].
  intros H [Hk|Hk]; [|exact (IH H Hk)].
  subst k'. rewrite SymbolsFacts.eqb_refl in E. discriminate.
Qed.

Lemma Map_set_entries T (P : jsstring * T -> Prop) (m : Map T) k v :
  Forall P m -> P (k, v) -> Forall P (Map_set m k v).
Proof.
  intros Hm Hkv. induction Hm as [|[k' v'] m Hx Hm IH]; simpl.
  - constructor; [exact Hkv | constructor].
  - destruct (Js.eqb k' k) eqn:E.
    + apply AnalyzerFacts.eqb_eq in E. subst k'. constructor; assumption.
    + constructor; assumption.
Qed.

Lemma sound_set decl m e :
  sound decl m -> reached decl e -> sound decl (Map_set m (oldName e) e).
Proof.
  intros [Hnd Hall] He. split.
  - rewrite Map_set_keys. unfold Map_has.
    destruct (Map_get m (oldName e)) eqn:E; [exact Hnd|].
    apply NoDup_app; [exact Hnd | repeat constructor; simpl; tauto |].
    intros k Hk [<-|[]]. exact (Map_get_In _ _ E Hk).
  - apply Map_set_entries; [exact Hall|]. split; [reflexivity | exact He].
Qed.

Lemma named_set m e name :
  named m name -> named (Map_set m (oldName e) e) name.
Proof.
  intros (e' & Hget & Hname).
  destruct (list_eq_dec N.eq_dec name (oldName e)) as [->|Hne].
  - exists e. split; [apply SymbolsFacts.Map_get_set_same | reflexivity].
  - exists e'. split; [|exact Hname].
    rewrite SymbolsFacts.Map_get_set_other by exact Hne. exact Hget.
Qed.

Lemma named_findOld m x name : named m name -> named (findOld m x) name.
Proof. destruct x; simpl; auto using named_set. Qed.

Lemma named_visit nodes : forall m name,
  named m name -> named (fold_left findOld nodes m) name.
Proof.
  induction nodes as [|x nodes IH]; intros m name H; simpl;
    [exact H | apply IH, named_findOld, H].
Qed.

Lemma named_visited nodes location e : forall m,
  In (OldExpression location e) nodes ->
  named (fold_left findOld nodes m) (oldName e).
Proof.
  induction nodes as [|x nodes IH]; intros m Hin; [destruct Hin|].
  destruct Hin as [Hx|Hin]; simpl.
  - subst x. apply named_visit. simpl. exists e.
    split; [apply SymbolsFacts.Map_get_set_same | reflexivity].
  - apply IH, Hin.
Qed.

Lemma named_conditions (conditions : list Expression) : forall m name,
  named m name ->
  named (fold_left (fun oldExprs condition =>
                      fold_left findOld (traverseExpression condition)
                        oldExprs) conditions m) name.
Proof.
  induction conditions as [|c conditions IH]; intros m name H; simpl;
    [exact H | apply IH, named_visit, H].
Qed.

Lemma sound_visit decl nodes : forall m,
  (forall location e, In (OldExpression location e) nodes -> reached decl e) ->
  sound decl m -> sound decl (fold_left findOld nodes m).
Proof.
  induction nodes as [|x nodes IH]; intros m Hnodes Hm; simpl; [exact Hm|].
  apply IH; [intros; eapply Hnodes; right; eassumption|].
  destruct x; simpl; try exact Hm.
  apply sound_set; [exact Hm|]. eapply Hnodes. left. reflexivity.
Qed.

Lemma sound_conditions decl (conditions : list Expression) : forall m,
  incl conditions (getEnsuresAnnotations decl) ->
  sound decl m ->
  sound decl (fold_left (fun oldExprs condition =>
                           fold_left findOld (traverseExpression condition)
                             oldExprs) conditions m).
Proof.
  induction conditions as [|c conditions IH]; intros m Hincl Hm; simpl;
    [exact Hm|].
  apply IH; [intros x Hx; apply Hincl; right; exact Hx|].
  apply sound_visit; [|exact Hm].
  intros location e Hin. exists c, location.
  split; [apply Hincl; left; reflexivity | exact Hin].
Qed.

(** Every [old(e)] that the traversal of a postcondition visits has a
    snapshot: the map holds, under the name of [e], an expression with
    that name ([e] itself, or a later expression of the same name). *)
Theorem visited_old_is_collected (decl : FunctionDeclaration)
    (condition e : Expression) (location : SourceLocation)
    (Hensures : In condition (getEnsuresAnnotations decl))
    (Hvisited : In (OldExpression location e) (traverseExpression condition)) :
  exists e',
    Map_get (collectOldExpressions decl) (oldName e) = Some e' /\
    oldName e' = oldName e.
Proof.
  unfold collectOldExpressions.
  generalize (@nil (jsstring * Expression)).
  induction (getEnsuresAnnotations decl) as [|c conditions IH]; intros m;
    [destruct Hensures|].
  simpl. destruct Hensures as [->|Hin].
  - apply named_conditions. eapply named_visited. exact Hvisited.
  - apply IH, Hin.
Qed.

(** The map of snapshots holds no name twice, so no snapshot is declared
    twice at the entry of the function; and every entry is an expression
    that stands under a visited [old], filed under its own name. *)
Theorem collected_names_distinct (decl : FunctionDeclaration) :
  NoDup (map fst (collectOldExpressions decl)) /\
  forall name e,
    In (name, e) (collectOldExpressions decl) ->
    name = oldName e /\ reached decl e.
Proof.
  assert (H : sound decl (collectOldExpressions decl)).
  { apply sound_conditions; [apply incl_refl|].
    split; [constructor | constructor]. }
  destruct H as [Hnd Hall]. split; [exact Hnd|].
  intros name e Hin. rewrite Forall_forall in Hall.
  exact (Hall (name, e) Hin).
Qed.

(** [result == old(a.b) + old(a.b)] *)
Definition twice : Expression :=
  BinaryExpression (Examples.L 1 1) OpEq (Examples.V 1 1 "result")
    (BinaryExpression (Examples.L 1 11) OpAdd
       (OldExpression (Examples.L 1 11)
          (MemberExpression (Examples.L 1 15) (Examples.V 1 15 "a")
             (Examples.I 1 17 "b") false))
       (OldExpression (Examples.L 1 22)
          (MemberExpression (Examples.L 1 26) (Examples.V 1 26 "a")
             (Examples.I 1 28 "b") false))).

Definition twiceDeclaration : FunctionDeclaration :=
  mkFunctionDeclaration (Examples.L 1 1) (Examples.I 1 4 "f") [] []
    (Examples.TPrim 1 10 Int) [EnsuresAnnotation (Examples.L 1 1) twice]
    None false false.

Lemma visited_old_is_collected_witness :
  exists e',
    Map_get (collectOldExpressions twiceDeclaration) (js "__old_a_b")
    = Some e' /\
    oldName e' = js "__old_a_b".
Proof.
  apply (@visited_old_is_collected twiceDeclaration twice
           (MemberExpression (Examples.L 1 15) (Examples.V 1 15 "a")
              (Examples.I 1 17 "b") false) (Examples.L 1 11)).
  - simpl. left. reflexivity.
  - simpl. right. right. right. left. reflexivity.
Defined.

End SnapshotFacts.

(* ================================================================== *)
(** * The collection pass ([collectDeclarations]) *)
(* ================================================================== *)

Module CollectionFacts.

Import AST Types Symbols Analyzer.
Open Scope analyzer_scope.

(** The symbols of the current scope. *)
Definition local (st : Analyzer) : Map Symbol :=
  symbols (currentScope (symbolTable st)).

(** [gathers m]: [m] stays in the scope where it starts and never removes
    or replaces a symbol of that scope. *)
Definition gathers {A} (m : M A) : Prop :=
  forall st a st', m st = Ok (a, st') ->
    parents (symbolTable st') = parents (symbolTable st) /\
    forall n s, Map_get (local st) n = Some s -> Map_get (local st') n = Some s.

Lemma gathers_ret A (a : A) : gathers (ret a).
Proof. intros st b st' H. inversion H; subst. auto. Qed.

Lemma gathers_bind A B (m : M A) (k : A -> M B) :
  gathers m -> (forall a, gathers (k a)) -> gathers (bind m k).
Proof.
  intros Hm Hk st b st'. unfold bind.
  destruct (m st) as [[a st1]|] eqn:E; [|discriminate].
  intros H. destruct (Hm _ _ _ E) as [Hp Hs].
  destruct (Hk a _ _ _ H) as [Hp' Hs']. split; [congruence | auto].
Qed.

Lemma gathers_gets A (f : Analyzer -> A) : gathers (gets f).
Proof. intros st b st' H. inversion H; subst. auto. Qed.

Lemma gathers_error l m : gathers (error l m).
Proof. intros st b st' H. inversion H; subst. auto. Qed.

Lemma gathers_createTypeVariable n b : gathers (createTypeVariable n b).
Proof. intros st a st' H. inversion H; subst. auto. Qed.

Lemma gathers_withTable f :
  (forall t, parents (f t) = parents t /\
             forall n s, Map_get (symbols (currentScope t)) n = Some s ->
                         Map_get (symbols (currentScope (f t))) n = Some s) ->
  gathers (withTable f).
Proof.
  intros Hf st a st' H. inversion H; subst. unfold local. simpl.
  apply Hf.
Qed.

Lemma define_keeps name type kind location isMutable isExported module t :
  let t' := fst (define name type kind location isMutable isExported module t) in
  parents t' = parents t /\
  (forall n s, Map_get (symbols (currentScope t)) n = Some s ->
               Map_get (symbols (currentScope t')) n = Some s) /\
  Map_has (symbols (currentScope t')) name = true.
Proof.
  unfold define, Scope_define. cbv zeta. cbn [sym_name].
  destruct (Map_has (symbols (currentScope t)) name) eqn:E; simpl.
  - auto.
  - split; [reflexivity|]. split.
    + intros n s Hn.
      rewrite SymbolsFacts.Map_get_set_other; [exact Hn|].
      intros ->. unfold Map_has in E. rewrite Hn in E. discriminate.
    + unfold Map_has. rewrite SymbolsFacts.Map_get_set_same. reflexivity.
Qed.

Lemma gathers_st_define n ty k l mu ex md : gathers (st_define n ty k l mu ex md).
Proof.
  apply gathers_withTable. intros t.
  destruct (define_keeps n ty k l mu ex md t) as (Hp & Hs & _). auto.
Qed.

Lemma gathers_st_defineType n ty : gathers (st_defineType n ty).
Proof.
  apply gathers_withTable. intros t. unfold defineType, Scope_defineType.
  destruct (Map_has (types (currentScope t)) n); simpl; auto.
Qed.

Lemma gathers_defineContract c :
  gathers (withTable (fun t => fst (defineContract c t))).
Proof.
  apply gathers_withTable. intros t. unfold defineContract, Scope_defineContract.
  destruct (Map_has (contracts (currentScope t)) (cs_name c)); simpl; auto.
Qed.

Lemma gathers_defineIntent i :
  gathers (withTable (fun t => fst (defineIntent i t))).
Proof.
  apply gathers_withTable. intros t. unfold defineIntent, Scope_defineIntent.
  destruct (Map_has (intents (currentScope t)) (is_name i)); simpl; auto.
Qed.

Lemma gathers_mapM X Y (f : X -> M Y) l :
  (forall x, In x l -> gathers (f x)) -> gathers (mapM f l).
Proof.
  induction l as [|x l IH]; intros H; simpl.
  - apply gathers_ret.
  - apply gathers_bind; [apply H; left; reflexivity|]. intros y.
    apply gathers_bind; [apply IH; intros; apply H; right; assumption|].
    intros ys. apply gathers_ret.
Qed.

Lemma gathers_forEach X (f : X -> M unit) l :
  (forall x, In x l -> gathers (f x)) -> gathers (forEach f l).
Proof.
  induction l as [|x l IH]; intros H; simpl.
  - apply gathers_ret.
  - apply gathers_bind; [apply H; left; reflexivity|]. intros _.
    apply IH; intros; apply H; right; assumption.
Qed.

Lemma gathers_foldM X S (f : S -> X -> M S) l :
  (forall s x, In x l -> gathers (f s x)) -> forall s, gathers (foldM f s l).
Proof.
  induction l as [|x l IH]; intros H s; simpl.
  - apply gathers_ret.
  - apply gathers_bind; [apply H; left; reflexivity|]. intros s'.
    apply IH; intros; apply H; right; assumption.
Qed.

Ltac gathers_step :=
  match goal with
  | H : gathers ?m |- gathers ?m => exact H
  | H : forall t, gathers (?f t) |- gathers (?f _) => apply H
  | |- gathers (bind _ _) => apply gathers_bind; [| intros ?]
  | |- gathers (ret _) => apply gathers_ret
  | |- gathers (gets _) => apply gathers_gets
  | |- gathers (error _ _) => apply gathers_error
  | |- gathers (createTypeVariable _ _) => apply gathers_createTypeVariable
  | |- gathers (st_define _ _ _ _ _ _ _) => apply gathers_st_define
  | |- gathers (st_defineType _ _) => apply gathers_st_defineType
  | |- gathers (withTable (fun t => fst (defineContract _ t))) =>
      apply gathers_defineContract
  | |- gathers (withTable (fun t => fst (defineIntent _ t))) =>
      apply gathers_defineIntent
  | |- gathers (mapM _ _) => apply gathers_mapM; intros ? ?
  | |- gathers (forEach _ _) => apply gathers_forEach; intros ? ?
  | |- gathers (foldM _ _ _) => apply gathers_foldM; intros ? ? ?
  | |- gathers (match ?x with _ => _ end) => destruct x
  | |- gathers (let '(_, _) := ?x in _) => destruct x
  end.

Ltac gathers_go := cbv beta zeta; repeat (gathers_step; cbv beta zeta).

Lemma gathers_resolveType t : gathers (resolveType t).
Proof.
  induction t; simpl; gathers_go; AnalyzerFacts.all_in; assumption.
Qed.

Lemma gathers_createFunctionType d : gathers (createFunctionType d).
Proof.
  pose proof gathers_resolveType.
  unfold createFunctionType. gathers_go.
Qed.

Lemma gathers_genericTypeVariables ps : gathers (genericTypeVariables ps).
Proof.
  pose proof gathers_resolveType.
  unfold genericTypeVariables. gathers_go.
Qed.

Lemma gathers_collectDeclaration s : gathers (collectDeclaration s).
Proof.
  pose proof gathers_resolveType. pose proof gathers_createFunctionType.
  pose proof gathers_genericTypeVariables.
  induction s; simpl; try apply gathers_ret; try assumption;
    unfold collectFunctionDeclaration, collectStructDeclaration,
      collectEnumDeclaration, collectTraitDeclaration,
      collectContractDeclaration, collectIntentDeclaration,
      collectEffectDeclaration, collectCapabilityDeclaration;
    gathers_go.
Qed.

(** The function that a top-level statement declares, also behind
    [export]. *)
Fixpoint declaredFunction (s : Statement) : option FunctionDeclaration :=
  match s with
  | FunctionDeclarationStmt d => Some d
  | ExportDeclaration _ declaration => declaredFunction declaration
  | _ => None
  end.

Lemma collectDeclaration_defines s d st st' :
  declaredFunction s = Some d ->
  collectDeclaration s st = Ok (tt, st') ->
  Map_has (local st') (id_name (fd_name d)) = true.
Proof.
  revert st st'. induction s; simpl; try discriminate.
  - intros st st' Hd. inversion Hd; subst d0. clear Hd.
    unfold collectFunctionDeclaration, bind.
    destruct (createFunctionType d st) as [[funcType st1]|]; [|discriminate].
    unfold gets, st_define, withTable, modify. intros H. inversion H.
    unfold local. simpl.
    apply (define_keeps (id_name (fd_name d)) (function funcType) Kfunction
             (fd_location d) None (Some (fd_isExported d))
             (Some (currentModule st1)) (symbolTable st1)).
  - intros st st' Hd. apply IHs. exact Hd.
Qed.

Lemma collected_stays statements : forall st st' n s,
  forEach collectDeclaration statements st = Ok (tt, st') ->
  Map_get (local st) n = Some s -> Map_get (local st') n = Some s.
Proof.
  intros st st' n s H.
  apply (gathers_forEach collectDeclaration statements
           (fun x _ => gathers_collectDeclaration x) _ H).
Qed.

(** After the collection pass every function declared at the top level
    of the program, exported or not and wherever it stands, resolves to a
    symbol; and the pass neither leaves the scope where it started nor
    removes or replaces a symbol that this scope already held: of two
    declarations of one name the first one stays. *)
Theorem declared_functions_are_collected (program : Program) (s : Statement)
    (d : FunctionDeclaration) (st st' : Analyzer)
    (Hrun : collectDeclarations program st = Ok (tt, st'))
    (Hin : In s (prog_statements program))
    (Hdecl : declaredFunction s = Some d) :
  (exists symbol,
     lookup (id_name (fd_name d)) (symbolTable st') = Some symbol) /\
  parents (symbolTable st') = parents (symbolTable st) /\
  (forall n symbol,
     Map_get (local st) n = Some symbol ->
     lookup n (symbolTable st') = Some symbol).
Proof.
  unfold collectDeclarations in Hrun.
  assert (Hg := gathers_forEach collectDeclaration (prog_statements program)
                  (fun x _ => gathers_collectDeclaration x) _ Hrun).
  destruct Hg as [Hp Hs].
  assert (Hlocal : forall n symbol,
             Map_get (local st') n = Some symbol ->
             lookup n (symbolTable st') = Some symbol).
  { intros n symbol Hn. unfold lookup, scope_chain. simpl.
    unfold local in Hn. rewrite Hn. reflexivity. }
  split; [|split; [exact Hp | intros n symbol Hn; apply Hlocal, Hs, Hn]].
  revert st Hrun Hp Hs.
  induction (prog_statements program) as [|x statements IH];
    [destruct Hin|].
  intros st Hrun _ _. simpl in Hrun. unfold bind in Hrun.
  destruct (collectDeclaration x st) as [[[] st1]|] eqn:E; [|discriminate].
  destruct Hin as [->|Hin].
  - pose proof (collectDeclaration_defines _ _ Hdecl E) as Hhas.
    unfold Map_has in Hhas.
    destruct (Map_get (local st1) (id_name (fd_name d))) as [symbol|] eqn:Hget;
      [|discriminate].
    exists symbol. apply Hlocal. exact (collected_stays _ _ _ Hrun Hget).
  - destruct (gathers_forEach collectDeclaration statements
                (fun x _ => gathers_collectDeclaration x) _ Hrun) as [Hp1 Hs1].
    exact (IH Hin st1 Hrun Hp1 Hs1).
Qed.

(** [log("x")] stands before [fn log ...]. *)
Definition callBeforeDeclaration : Program :=
  Examples.program [Examples.callLog 1 1; Examples.fnLog].

Definition logDeclaration : FunctionDeclaration :=
  match Examples.fnLog with
  | FunctionDeclarationStmt d => d
  | _ => Examples.divideDeclaration
  end.

Lemma declared_functions_are_collected_witness :
  exists st' symbol,
    collectDeclarations callBeforeDeclaration new_SemanticAnalyzer
    = Ok (tt, st') /\
    lookup (js "log") (symbolTable st') = Some symbol.
Proof.
  destruct (collectDeclarations callBeforeDeclaration new_SemanticAnalyzer)
    as [[[] st']|] eqn:E.
  - destruct (@declared_functions_are_collected callBeforeDeclaration
                Examples.fnLog logDeclaration new_SemanticAnalyzer st' E)
      as [[symbol H] _].
    + simpl. right. left. reflexivity.
    + reflexivity.
    + exists st', symbol. split; [reflexivity | exact H].
  - vm_compute in E. discriminate E.
Defined.


(** ** The whole analysis *)

Lemma gathers_initBuiltinTypes : gathers initBuiltinTypes.
Proof. unfold initBuiltinTypes. gathers_go. Qed.

Lemma steady_analyzeProgram program :
  AnalyzerInvariants.steady (analyzeProgram program).
Proof.
  apply AnalyzerInvariants.steady_forEach. intros s _.
  apply AnalyzerInvariants.steady_bind;
    [apply AnalyzerInvariants.steady_analyzeStatement|].
  intros ?. apply AnalyzerInvariants.steady_ret.
Qed.

(** When [analyze] returns, every scope that the two passes entered has
    been exited: the symbol table of the result is at the outermost scope
    again, with no enclosing scope left. *)
Theorem analysis_ends_at_outermost_scope (program : Program)
    (r : AnalysisResult) (Hrun : analyze program = Ok r) :
  parents (ar_symbolTable r) = [].
Proof.
  unfold analyze, SemanticAnalyzer_analyze in Hrun. unfold bind in *.
  destruct (initBuiltinTypes new_SemanticAnalyzer) as [[[] st1]|] eqn:E1;
    [|discriminate].
  destruct (collectDeclarations program st1) as [[[] st2]|] eqn:E2;
    [|discriminate].
  destruct (analyzeProgram program st2) as [[[] st3]|] eqn:E3; [|discriminate].
  unfold get, ret in Hrun. inversion Hrun; subst r. simpl.
  destruct (gathers_initBuiltinTypes E1) as [P1 _].
  assert (G2 : gathers (collectDeclarations program))
    by (apply gathers_forEach; intros; apply gathers_collectDeclaration).
  destruct (G2 _ _ _ E2) as [P2 _].
  destruct (@steady_analyzeProgram program _ _ _ E3) as [_ P3].
  unfold AnalyzerInvariants.outer in P3.
  rewrite P3, P2, P1. reflexivity.
Qed.

Lemma analysis_ends_at_outermost_scope_witness :
  exists r,
    analyze (Examples.program [Examples.effIO; Examples.fnLog]) = Ok r /\
    parents (ar_symbolTable r) = [].
Proof.
  destruct (analyze (Examples.program [Examples.effIO; Examples.fnLog]))
    as [r|] eqn:E.
  - exists r. split; [reflexivity|].
    apply (@analysis_ends_at_outermost_scope
             (Examples.program [Examples.effIO; Examples.fnLog]) r E).
  - vm_compute in E. discriminate E.
Defined.
End CollectionFacts.

(* ================================================================== *)
(** * Keywords and identifiers ([identifier] of the scanner) *)
(* ================================================================== *)

Module TokenKindFacts.

Import Lexer.
Open Scope lexer_scope.

(** The token types of the keyword table. *)
Definition keywordTypes : list TokenType := map snd KEYWORDS_table.

(** How the type of a token goes with its text. *)
Record classified (t : Token) : Prop := {
  identifier_free : tok_type t = IDENTIFIER -> KEYWORDS (tok_value t) = None;
  keyword_text :
    In (tok_type t) keywordTypes -> KEYWORDS (tok_value t) = Some (tok_type t);
  never_TRUE : tok_type t <> TRUE;
  never_FALSE : tok_type t <> FALSE;
  boolean_text :
    tok_type t = BOOLEAN ->
    exists b, tok_literal t = LitBool b /\
              tok_value t = js (if b then "true" else "false")
}.

(** [adds m]: [m] leaves the tokens it finds and adds classified
    tokens. *)
Definition adds {A} (m : M A) : Prop :=
  forall st,
    match m st with
    | Ok (_, st') =>
        exists new, tokens st' = tokens st ++ new /\ Forall classified new
    | _ => True
    end.

Lemma adds_none {A} (m : M A) :
  (forall st, match m st with
              | Ok (_, st') => tokens st' = tokens st
              | _ => True
              end) -> adds m.
Proof.
  intros H st. specialize (H st). destruct (m st) as [[a st']| |]; auto.
  exists []. rewrite app_nil_r. auto.
Qed.

Lemma adds_ret {A} (a : A) : adds (ret a).
Proof. apply adds_none. reflexivity. Qed.

Lemma adds_get : adds get.
Proof. apply adds_none. reflexivity. Qed.

Lemma adds_throw {A} e : adds (@throw A e).
Proof. intros st. exact I. Qed.

Lemma adds_bind {A B} (m : M A) (k : A -> M B) :
  adds m -> (forall a, adds (k a)) -> adds (bind m k).
Proof.
  intros Hm Hk st. unfold bind. specialize (Hm st).
  destruct (m st) as [[a st1]| |]; auto.
  destruct Hm as (new1 & H1 & F1). specialize (Hk a st1).
  destruct (k a st1) as [[b st2]| |]; auto.
  destruct Hk as (new2 & H2 & F2). exists (new1 ++ new2).
  rewrite H2, H1, app_assoc. split; [reflexivity | apply Forall_app; auto].
Qed.

Lemma adds_when (b : bool) (m : M unit) : adds m -> adds (when b m).
Proof. destruct b; simpl; auto using adds_ret. Qed.

Lemma adds_loop {A} (cond : A -> Lexer -> bool) (body : A -> M A) :
  (forall a, adds (body a)) -> forall fuel a, adds (loop fuel cond body a).
Proof.
  intros Hbody fuel. induction fuel as [|fuel IH]; intros a st; simpl.
  - destruct (cond a st); [exact I|]. exists []. rewrite app_nil_r. auto.
  - destruct (cond a st); [|exists []; rewrite app_nil_r; auto].
    specialize (Hbody a st). destruct (body a st) as [[a' st1]| |]; auto.
    destruct Hbody as (new1 & H1 & F1). specialize (IH a' st1).
    destruct (loop fuel cond body a' st1) as [[b st2]| |]; auto.
    destruct IH as (new2 & H2 & F2). exists (new1 ++ new2).
    rewrite H2, H1, app_assoc. split; [reflexivity | apply Forall_app; auto].
Qed.

Lemma adds_while {A} (cond : A -> Lexer -> bool) (body : A -> M A) (a : A) :
  (forall a, adds (body a)) -> adds (while cond body a).
Proof. intros Hbody st. unfold while. apply adds_loop. exact Hbody. Qed.

Lemma adds_advance : adds advance.
Proof. apply adds_none. reflexivity. Qed.

Lemma adds_match_ (c : N) : adds (match_ c).
Proof.
  apply adds_none. intros st. unfold match_.
  destruct (isAtEnd st); [reflexivity|].
  destruct (nth_error _ _); [|reflexivity].
  destruct (N.eqb _ _); reflexivity.
Qed.

Lemma adds_modify (f : Lexer -> Lexer) :
  (forall st, tokens (f st) = tokens st) -> adds (modify f).
Proof. intros H. apply adds_none. exact H. Qed.

Lemma adds_push (t : Token) (st : Lexer) :
  classified t ->
  exists new, tokens (push_token t st) = tokens st ++ new /\
              Forall classified new.
Proof. intros H. exists [t]. split; [reflexivity | auto]. Qed.

(** A type that is neither [IDENTIFIER], a keyword type nor [BOOLEAN]
    goes with every text. *)
Definition plainType (ty : TokenType) : Prop :=
  ty <> IDENTIFIER /\ ~ In ty keywordTypes /\ ty <> BOOLEAN.

Lemma plainType_classified ty value line column offset literal :
  plainType ty ->
  classified (createToken ty value line column offset literal).
Proof.
  intros (Hi & Hk & Hb). constructor; simpl; try contradiction.
  - intros ->. apply Hk. unfold keywordTypes. simpl. tauto.
  - intros ->. apply Hk. unfold keywordTypes. simpl. tauto.
Qed.

Lemma set_file_classified t f : classified t -> classified (set_file t f).
Proof. intros [H1 H2 H3 H4 H5]. constructor; simpl; assumption. Qed.

Lemma adds_addToken (ty : TokenType) : plainType ty -> adds (addToken ty).
Proof.
  intros H st. unfold addToken. apply adds_push.
  apply plainType_classified. exact H.
Qed.

Lemma adds_addTokenWithLiteral ty lit l c :
  plainType ty -> adds (addTokenWithLiteral ty lit l c).
Proof.
  intros H st. unfold addTokenWithLiteral. apply adds_push.
  destruct (file st) as [[|x f]|]; try apply set_file_classified;
    apply plainType_classified; exact H.
Qed.

Ltac plain_type :=
  split; [discriminate | split; [|discriminate]];
  unfold keywordTypes; simpl;
  let K := fresh "K" in
  intros K; repeat (destruct K as [K|K]; [discriminate K|]); exact K.

Ltac plain :=
  match goal with
  | |- plainType (if ?b then _ else _) => destruct b; plain_type
  | |- _ => plain_type
  end.

Lemma adds_error (message : jsstring) : adds (error message).
Proof.
  unfold error. apply adds_bind; [apply adds_none; reflexivity|].
  intros _. apply adds_addToken. plain.
Qed.

Ltac kinds :=
  match goal with
  | H : adds ?m |- adds ?m => exact H
  | |- adds (ret _) => apply adds_ret
  | |- adds get => apply adds_get
  | |- adds advance => apply adds_advance
  | |- adds (match_ _) => apply adds_match_
  | |- adds newline_inside => apply adds_modify; reflexivity
  | |- adds (modify _) => apply adds_modify; reflexivity
  | |- adds (addToken _) => apply adds_addToken; plain
  | |- adds (addTokenWithLiteral _ _ _ _) =>
      apply adds_addTokenWithLiteral; plain
  | |- adds (error _) => apply adds_error
  | |- adds (when _ _) => apply adds_when
  | |- adds (throw _) => apply adds_throw
  | |- adds (bind _ _) => apply adds_bind; [|intros]
  | |- adds (while _ _ _) => apply adds_while; intros
  | |- adds (advanceWhile _) => apply adds_while; intros
  | |- adds (if ?b then _ else _) => destruct b eqn:?
  | |- adds (match ?x with _ => _ end) => destruct x
  end.

Lemma adds_escapeSequence : adds escapeSequence.
Proof. unfold escapeSequence. repeat kinds. Qed.

Lemma adds_blockComment : adds blockComment.
Proof. unfold blockComment. repeat kinds. Qed.

Lemma adds_string_ : adds string_.
Proof. pose proof adds_escapeSequence. unfold string_. repeat kinds. Qed.

Lemma adds_char_ : adds char_.
Proof. pose proof adds_escapeSequence. unfold char_. repeat kinds. Qed.

Lemma adds_number : adds number.
Proof. unfold number. repeat (kinds; cbv zeta). Qed.

(** ** The keyword table *)

Lemma assoc_js_key A (tbl : list (string * A)) k v :
  assoc_js tbl k = Some v -> exists k', In (k', v) tbl /\ js k' = k.
Proof.
  induction tbl as [|[k' v'] tbl IH]; simpl; [discriminate|].
  destruct (Js.eqb (js k') k) eqn:E.
  - intros H. inversion H; subst v'. apply AnalyzerFacts.eqb_eq in E.
    exists k'. auto.
  - intros H. destruct (IH H) as (k0 & Hin & Hk). exists k0. auto.
Qed.

Lemma KEYWORDS_values text ty :
  KEYWORDS text = Some ty ->
  (In ty keywordTypes \/ ty = INHERITED text) /\
  ty <> IDENTIFIER /\ ty <> BOOLEAN.
Proof.
  unfold KEYWORDS. destruct (assoc_js KEYWORDS_table text) as [t'|] eqn:E.
  - intros H. inversion H; subst t'.
    apply TokenListFacts.assoc_js_In in E. split; [left; exact E|].
    simpl in E.
    repeat (destruct E as [<-|E]; [split; discriminate|]). destruct E.
  - destruct (existsb _ _); [|discriminate]. intros H. inversion H.
    split; [right; reflexivity | split; discriminate].
Qed.

Lemma KEYWORDS_TRUE text : KEYWORDS text = Some TRUE -> text = js "true".
Proof.
  unfold KEYWORDS. destruct (assoc_js KEYWORDS_table text) as [t'|] eqn:E.
  - intros H. inversion H; subst t'. apply assoc_js_key in E.
    destruct E as (k' & Hin & <-). simpl in Hin.
    repeat (destruct Hin as [Hin|Hin];
            [inversion Hin; try reflexivity|]). destruct Hin.
  - destruct (existsb _ _); discriminate.
Qed.

Lemma KEYWORDS_FALSE text : KEYWORDS text = Some FALSE -> text = js "false".
Proof.
  unfold KEYWORDS. destruct (assoc_js KEYWORDS_table text) as [t'|] eqn:E.
  - intros H. inversion H; subst t'. apply assoc_js_key in E.
    destruct E as (k' & Hin & <-). simpl in Hin.
    repeat (destruct Hin as [Hin|Hin];
            [inversion Hin; try reflexivity|]). destruct Hin.
  - destruct (existsb _ _); discriminate.
Qed.

Lemma TokenType_eqb_true a b : TokenType_eqb a b = true -> a = b.
Proof. unfold TokenType_eqb. destruct (TokenType_eq_dec a b); congruence. Qed.

Lemma TokenType_eqb_false a b : TokenType_eqb a b = false -> a <> b.
Proof. unfold TokenType_eqb. destruct (TokenType_eq_dec a b); congruence. Qed.

Lemma adds_identifier : adds identifier.
Proof.
  unfold identifier. apply adds_bind; [repeat kinds|]. intros _.
  intros st. unfold bind, get. cbv zeta.
  set (text := substring (source st) (start st) (current st)).
  destruct (KEYWORDS text) as [ty|] eqn:K.
  - destruct (KEYWORDS_values _ K) as (Hrange & Hid & Hbool).
    destruct (TokenType_eqb ty TRUE) eqn:ET;
      [|destruct (TokenType_eqb ty FALSE) eqn:EF;
        [|destruct (TokenType_eqb ty NIL) eqn:EN]].
    + apply TokenType_eqb_true in ET. subst ty.
      unfold addTokenWithLiteral. apply adds_push. fold text.
      assert (classified
                (createToken BOOLEAN text (line st)
                   (column st - Z.of_nat (List.length text)) (start st)
                   (LitBool true))).
      { constructor; simpl; try discriminate.
        - unfold keywordTypes. simpl. intros H.
          repeat (destruct H as [H|H]; [discriminate H|]). destruct H.
        - intros _. exists true. split; [reflexivity|].
          apply KEYWORDS_TRUE. exact K. }
      destruct (file st) as [[|x f]|]; try apply set_file_classified;
        assumption.
    + apply TokenType_eqb_true in EF. subst ty.
      unfold addTokenWithLiteral. apply adds_push. fold text.
      assert (classified
                (createToken BOOLEAN text (line st)
                   (column st - Z.of_nat (List.length text)) (start st)
                   (LitBool false))).
      { constructor; simpl; try discriminate.
        - unfold keywordTypes. simpl. intros H.
          repeat (destruct H as [H|H]; [discriminate H|]). destruct H.
        - intros _. exists false. split; [reflexivity|].
          apply KEYWORDS_FALSE. exact K. }
      destruct (file st) as [[|x f]|]; try apply set_file_classified;
        assumption.
    + apply TokenType_eqb_true in EN. subst ty.
      unfold addTokenWithLiteral. apply adds_push. fold text.
      assert (classified
                (createToken NIL text (line st)
                   (column st - Z.of_nat (List.length text)) (start st)
                   LitNull)).
      { constructor; simpl; try discriminate. intros _. exact K. }
      destruct (file st) as [[|x f]|]; try apply set_file_classified;
        assumption.
    + unfold addToken. apply adds_push. fold text.
      constructor; simpl.
      * intros H. contradiction.
      * intros _. exact K.
      * apply TokenType_eqb_false. exact ET.
      * apply TokenType_eqb_false. exact EF.
      * intros H. contradiction.
  - simpl. unfold addToken. apply adds_push. fold text.
    constructor; simpl; try discriminate.
    + intros _. exact K.
    + unfold keywordTypes. simpl. intros H.
      repeat (destruct H as [H|H]; [discriminate H|]). destruct H.
Qed.

Lemma adds_scanToken : adds scanToken.
Proof.
  unfold scanToken.
  repeat first
    [ apply adds_blockComment | apply adds_string_ | apply adds_char_
    | apply adds_number | apply adds_identifier | kinds ].
Qed.

Lemma adds_scan_loop :
  adds (while (fun _ st => negb (isAtEnd st))
          (fun _ => modify (fun st => set_start (current st) st) ;; scanToken)
          tt).
Proof. pose proof adds_scanToken. repeat kinds. Qed.

(** In every token list that [tokenize] returns the types go with the
    texts: a token of type [IDENTIFIER] never has the text of a keyword
    (nor a name that the keyword table inherits, such as [toString]); a
    token whose type is a keyword type has a text that the table maps to
    that type; the types [TRUE] and [FALSE] never occur, the words [true]
    and [false] being [BOOLEAN] tokens with their value as literal. *)
Theorem tokens_classified (s : jsstring) (f : option jsstring)
    (toks : list Token) (errs : list LexerError)
    (Hrun : tokenize s f = Ok (toks, errs)) :
  Forall classified toks.
Proof.
  unfold tokenize, Lexer_tokenize in Hrun. unfold bind at 1 in Hrun.
  pose proof (adds_scan_loop (new_Lexer s f)) as H.
  destruct (while _ _ _ (new_Lexer s f)) as [[[] st]| |]; try discriminate.
  simpl in Hrun. inversion Hrun; subst toks errs. clear Hrun.
  destruct H as (new & Htokens & Hnew). simpl in Htokens. rewrite Htokens.
  apply Forall_app. split; [exact Hnew|].
  constructor; [|constructor]. apply plainType_classified. plain.
Qed.

Lemma tokens_classified_witness :
  exists toks errs,
    tokenize (js "let toString = true") None = Ok (toks, errs) /\
    Forall classified toks /\
    map tok_type toks
    = [LET; INHERITED (js "toString"); ASSIGN; BOOLEAN; Token.EOF].
Proof.
  destruct (tokenize (js "let toString = true") None) as [[toks errs]| |] eqn:E.
  - exists toks, errs. split; [reflexivity|]. split.
    + apply (@tokens_classified (js "let toString = true") None toks errs E).
    + vm_compute in E. inversion E. reflexivity.
  - vm_compute in E. discriminate E.
  - vm_compute in E. discriminate E.
Defined.

End TokenKindFacts.
